(** * PcaPsfDeterminer.determinePsf: the iterative robust PSF-fitting loop

    A shallow embedding of [python/lsst/meas/algorithms/pcaPsfDeterminer.py]
    (Python 2).  Candidates are objects on a heap, referred to by index; the
    determiner object [self] and the class-level stamp size are part of the
    world that a call threads through; calls that reach external
    collaborators (the spatial cell set, the fit routines, [raw_input]) are
    recorded in a trace.  A Python float is the rational it stands for, with
    a separate NaN for the one quantity the code tests with [numpy.isnan];
    infinities are not modelled.  The kernel size is computed with the
    rounding of each double operation written out ([Py.fround]); the
    residuals and eigenvalues are the exact quotients and sums, and what is
    proved of when they raise is stated for sums that the doubles hold
    exactly. *)

From Stdlib Require Import ZArith QArith Qround Qabs List String Bool Lia
  Permutation Sorted.
Import ListNotations.
Open Scope Z_scope.

(** ** Python numerics *)

Module Py.

(** [int(x)] on a float: truncation toward zero. *)
Definition int (x : Q) : Z := Z.quot (Qnum x) (Zpos (Qden x)).

(** [a < b] and [a > b] on floats. *)
Definition ltb (a b : Q) : bool := negb (Qle_bool b a).
Definition gtb (a b : Q) : bool := ltb b a.

(** [max(a, b)]: the first argument unless the second is strictly larger. *)
Definition max (a b : Q) : Q := if gtb b a then b else a.

(** A float that may be NaN ([PsfCandidate.getChi2()]). *)
Inductive float := NaN | Fin (q : Q).

Definition isnan (x : float) : bool :=
  match x with NaN => true | Fin _ => false end.

(** [x > y] on possibly-NaN floats: false as soon as one side is NaN. *)
Definition fgtb (x y : float) : bool :=
  match x, y with
  | Fin a, Fin b => gtb a b
  | _, _ => false
  end.

(** The double nearest to a real number: round to nearest, ties to the even
    mantissa, 53 bits, gradual underflow below [2^-1022].  Every arithmetic
    operation on doubles returns this of its exact result.  (Overflow to
    infinity, from [2^1024] on, is not modelled.) *)
Definition round_half_even (a b : Z) : Z :=
  let f := a / b in
  match Z.compare (2 * (a mod b)) b with
  | Lt => f
  | Gt => f + 1
  | Eq => if Z.even f then f else f + 1
  end.

(** [floor(log2(n/d))] for positive [n] and [d]. *)
Definition log2_floor (n d : Z) : Z :=
  let e := Z.log2 n - Z.log2 d in
  if (if 0 <=? e then d * 2 ^ e <=? n else d <=? n * 2 ^ (- e)) then e else e - 1.

Definition fround (x : Q) : Q :=
  let r := Qred x in
  let n := Z.abs (Qnum r) in
  let d := Zpos (Qden r) in
  if n =? 0 then 0%Q
  else
    let e := Z.max (log2_floor n d - 52) (-1074) in
    let m := if 0 <=? e then round_half_even n (d * 2 ^ e)
             else round_half_even (n * 2 ^ (- e)) d in
    let v := if 0 <=? e then inject_Z (m * 2 ^ e)
             else Qred (m # Z.to_pos (2 ^ (- e))) in
    if Qnum r <? 0 then (- v)%Q else v.

(** [a + b], [a * b] and [a / b] on doubles, and [float(n)] of an int. *)
Definition fadd (a b : Q) : Q := fround (a + b).
Definition fmul (a b : Q) : Q := fround (a * b).
Definition fdiv (a b : Q) : Q := fround (a / b).
Definition float_of_int (n : Z) : Q := fround (inject_Z n).

(** [range(n)] *)
Definition range (n : Z) : list Z := map Z.of_nat (seq 0 (Z.to_nat n)).

(** [zip(range(n), l)] keeps the first [n] elements of [l] (none when
    [n <= 0]). *)
Definition zip_range {A} (n : Z) (l : list A) : list A := firstn (Z.to_nat n) l.

(** [l.sort(...)].  Python's sort is stable, also with [reverse=True]; on
    keys that are totally ordered its result is the unique stable
    arrangement, which this insertion sort computes.  [before y x] says that
    [y] sorts strictly before [x]: [key(y) > key(x)] for [reverse=True],
    [y < x] for a plain ascending sort.  With a NaN among the keys the
    comparisons are no order and Python's result depends on the merge
    strategy of its sort, which is not modelled here: what is proved of the
    order of a sorted pool is stated for pools without a NaN key. *)
Fixpoint insert_by {A} (before : A -> A -> bool) (x : A) (l : list A) : list A :=
  match l with
  | [] => [x]
  | y :: l' => if before y x then y :: insert_by before x l' else x :: y :: l'
  end.

Definition sort_by {A} (before : A -> A -> bool) (l : list A) : list A :=
  fold_right (insert_by before) [] l.

(** [numpy.median]: middle element of the sorted data, or the mean of the two
    middle ones (their double sum divided by 2). *)
Definition np_median (l : list Q) : Q :=
  let s := sort_by ltb l in
  let n := List.length s in
  if Nat.even n
  then fdiv (fadd (nth (n / 2 - 1)%nat s 0%Q) (nth (n / 2)%nat s 0%Q)) 2
  else nth (n / 2)%nat s 0%Q.

End Py.

(** ** The rejection schedule

    [numBad = int(len(badCandidates) * (iter + 1) / self._nIterForPsf + 0.5)];
    all three operands are Python 2 ints, so [/] is floor division and the
    quotient is an integer before [0.5] is added. *)
Definition numBad (poolSize iter nIterForPsf : Z) : Z :=
  Py.int (inject_Z (poolSize * (iter + 1) / nIterForPsf) + (1 # 2)).

(** The schedule as the specification words it: the real quotient
    [P*(i+1)/K] plus [0.5], rounded to the nearest integer (half away from
    zero, as Python 2's [round]), clamped to [[0, P]]. *)
Definition spec_round (x : Q) : Z :=
  if Qle_bool 0 x then Qfloor (x + (1 # 2)) else Qceiling (x - (1 # 2)).

Definition spec_numBad (poolSize iter nIterForPsf : Z) : Z :=
  Z.max 0 (Z.min poolSize
    (spec_round (inject_Z (poolSize * (iter + 1)) / inject_Z nIterForPsf + (1 # 2)))).

(** ** Data model *)

(** [afwMath.SpatialCellCandidate] status. *)
Inductive Status := GOOD | BAD | UNKNOWN.

Definition isBad (s : Status) : bool :=
  match s with BAD => true | _ => false end.

(** [afwDetection.Source], as far as [determinePsf] reads or writes it. *)
Record Source := {
  getId : Z;
  getIxx : Q;
  getIyy : Q;
  getIxy : Q;
  getFlagForDetection : Z
}.

Definition setFlagForDetection (f : Z) (s : Source) : Source :=
  {| getId := getId s; getIxx := getIxx s; getIyy := getIyy s;
     getIxy := getIxy s; getFlagForDetection := f |}.

(** [sdqa.SdqaRating(name, value, err, scope)]; the scope is always CCD. *)
Record SdqaRating := { ratingName : string; ratingValue : Q; ratingErr : Z }.

(** Python exceptions that the code of [determinePsf] itself can raise. *)
Inductive Exn :=
| RuntimeError (msg : string)
| ZeroDivisionError
| IndexError.

Inductive Result (A : Type) :=
| Ok (a : A)
| Raise (e : Exn).
Arguments Ok {A} a.
Arguments Raise {A} e.

(** The configuration held by a [PcaPsfDeterminer] instance ([__init__]). *)
Record PcaPsfDeterminer := {
  _nonLinearSpatialFit : bool;
  _nEigenComponents : Z;
  _spatialOrder : Z;
  _sizeCellX : Z;
  _sizeCellY : Z;
  _nStarPerCell : Z;
  _kernelSize : Z;
  _kernelSizeMin : Z;
  _kernelSizeMax : Z;
  _borderWidth : Z;
  _nStarPerCellSpatialFit : Z;
  _constantWeight : bool;
  _tolerance : Q;
  _lambda : Q;
  _reducedChi2ForPsfCandidates : Q;
  _nIterForPsf : Z;
  _spatialReject : Q
}.

(** [self._kernelSize = n] *)
Definition set_kernelSize (n : Z) (s : PcaPsfDeterminer) : PcaPsfDeterminer :=
  {| _nonLinearSpatialFit := _nonLinearSpatialFit s;
     _nEigenComponents := _nEigenComponents s;
     _spatialOrder := _spatialOrder s;
     _sizeCellX := _sizeCellX s;
     _sizeCellY := _sizeCellY s;
     _nStarPerCell := _nStarPerCell s;
     _kernelSize := n;
     _kernelSizeMin := _kernelSizeMin s;
     _kernelSizeMax := _kernelSizeMax s;
     _borderWidth := _borderWidth s;
     _nStarPerCellSpatialFit := _nStarPerCellSpatialFit s;
     _constantWeight := _constantWeight s;
     _tolerance := _tolerance s;
     _lambda := _lambda s;
     _reducedChi2ForPsfCandidates := _reducedChi2ForPsfCandidates s;
     _nIterForPsf := _nIterForPsf s;
     _spatialReject := _spatialReject s |}.

(** The part of [lsstDebug.Info(__name__)] that steers control flow; the
    other display switches only select what is drawn.  [display] is an int
    (or a bool, read as 0/1). *)
Record DebugInfo := {
  dbg_display : Z;
  dbg_displayIterations : bool;
  dbg_pause : bool
}.

(** The locals of [determinePsf] that the interactive prompt rebinds. *)
Record Locals := {
  display : Z;
  pause : bool;
  reply : string
}.

(** A candidate is referred to by its index on the heap. *)
Definition CandRef := nat.

(** One call that leaves [determinePsf] or mutates a candidate. *)
Inductive Event :=
| EvInsertCandidate (c : CandRef)
| EvSetHeight (n : Z)
| EvSetWidth (n : Z)
| EvFitPsf (statuses : list Status)
| EvSetStatus (c : CandRef) (s : Status).

(** [afwMath.SpatialCellSet]: the cells in [getCellList()] order, each with
    its candidates in iteration order. *)
Definition SpatialCellSet := list (list CandRef).

Section Model.

(** Opaque values of the external libraries. *)
Context {Image Kernel Exposure : Type}.

(** [algorithms.PsfCandidate].  [getImage] depends on the class-level stamp
    size (width, height) and is [None] where the Python call raises. *)
Record PsfCandidate := {
  getSource : Source;
  getXCenter : Q;
  getYCenter : Q;
  getStatus : Status;
  getChi2 : Py.float;
  getImage : Z -> Z -> option Image
}.

Definition setStatus_ (s : Status) (c : PsfCandidate) : PsfCandidate :=
  {| getSource := getSource c; getXCenter := getXCenter c;
     getYCenter := getYCenter c; getStatus := s; getChi2 := getChi2 c;
     getImage := getImage c |}.

Definition setChi2_ (x : Py.float) (c : PsfCandidate) : PsfCandidate :=
  {| getSource := getSource c; getXCenter := getXCenter c;
     getYCenter := getYCenter c; getStatus := getStatus c; getChi2 := x;
     getImage := getImage c |}.

Definition setSource_ (s : Source) (c : PsfCandidate) : PsfCandidate :=
  {| getSource := s; getXCenter := getXCenter c;
     getYCenter := getYCenter c; getStatus := getStatus c;
     getChi2 := getChi2 c; getImage := getImage c |}.

(** The candidate objects and the stamp size.

    Modelled from the spec: [setWidth]/[setHeight]/[getWidth]/[getHeight] of
    the candidate class are declared outside these sources.  The spec has the
    one call through [psfCandidateList[0]] set the stamp size of every
    candidate, so the size is held once for the whole class (a static member,
    as afw declares it) and every candidate's [getWidth], [getHeight] and
    [getImage] read that one pair. *)
Record Heap := {
  candidates : list PsfCandidate;
  stampWidth : Z;
  stampHeight : Z
}.

Definition nullCandidate : PsfCandidate :=
  {| getSource := {| getId := 0; getIxx := 0; getIyy := 0; getIxy := 0;
                     getFlagForDetection := 0 |};
     getXCenter := 0; getYCenter := 0; getStatus := UNKNOWN;
     getChi2 := Py.NaN; getImage := fun _ _ => None |}.

Definition getCand (h : Heap) (c : CandRef) : PsfCandidate :=
  nth c (candidates h) nullCandidate.

Definition getWidth (h : Heap) (c : CandRef) : Z := stampWidth h.
Definition getHeight (h : Heap) (c : CandRef) : Z := stampHeight h.

Fixpoint updNth {A} (n : nat) (f : A -> A) (l : list A) : list A :=
  match l, n with
  | [], _ => []
  | x :: l', O => f x :: l'
  | x :: l', S n' => x :: updNth n' f l'
  end.

Definition updCand (c : CandRef) (f : PsfCandidate -> PsfCandidate) (h : Heap) : Heap :=
  {| candidates := updNth c f (candidates h);
     stampWidth := stampWidth h; stampHeight := stampHeight h |}.

Definition statuses (h : Heap) : list Status := map getStatus (candidates h).

(** [createPsf("PCA", kernel)] and [psf.getKernel()]. *)
Inductive Psf := createPsf_PCA (kernel : Kernel).
Definition getKernel (p : Psf) : Kernel := match p with createPsf_PCA k => k end.

(** The external collaborators: the spatial cell set of afw, the fit
    routines of [algorithmsLib], the ellipse and statistics helpers and
    [numpy.sqrt].  A fit routine sees the heap and may assign every
    candidate a new chi-square; [fitKernelParamsToImage] returns the fitted
    parameters and, for each basis kernel it returns, that kernel's
    [getSum()]. *)
Record Externals := {
  newSpatialCellSet : Exposure -> Z -> Z -> SpatialCellSet;
  insertCandidate : Heap -> SpatialCellSet -> CandRef -> SpatialCellSet;
  Axes_getA : Q -> Q -> Q -> Q;
  np_sqrt : Q -> Q;
  createKernelFromPsfCandidates :
    Heap -> SpatialCellSet -> Exposure -> Z -> Z -> Z -> Z -> bool ->
    Kernel * list Q * (CandRef -> Py.float -> Py.float);
  countPsfCandidates : Heap -> SpatialCellSet -> Z -> Z;
  fitSpatialKernelFromPsfCandidates :
    Kernel -> Heap -> SpatialCellSet -> bool -> Z -> Q -> Q ->
    Z * Q * (CandRef -> Py.float -> Py.float);
  getNKernelParameters : Kernel -> nat;
  getSpatialFunction : Kernel -> nat -> Q -> Q -> Q;
  fitKernelParamsToImage : Kernel -> Image -> Q -> Q -> list Q * list Q;
  makeStatistics : list Q -> Q * Q;
  PSFSTAR : Z
}.

Variable ext : Externals.

(** What a call of [determinePsf] threads through: the determiner object,
    the candidate heap, the debug switches, the lines still to be read by
    [raw_input] (each already [strip().split()]) and the trace so far. *)
Record World := {
  self : PcaPsfDeterminer;
  heap : Heap;
  debug : DebugInfo;
  stdin : list (list string);
  trace : list Event
}.

(** ** A state-and-exception monad over the world *)

Definition M (A : Type) : Type := World -> Result A * World.

Definition ret {A} (a : A) : M A := fun w => (Ok a, w).

Definition bind {A B} (m : M A) (k : A -> M B) : M B :=
  fun w => match m w with
           | (Ok a, w') => k a w'
           | (Raise e, w') => (Raise e, w')
           end.

Definition raise {A} (e : Exn) : M A := fun w => (Raise e, w).

Definition get : M World := fun w => (Ok w, w).

Definition emit (e : Event) : M unit :=
  fun w => (Ok tt, {| self := self w; heap := heap w; debug := debug w;
                      stdin := stdin w; trace := trace w ++ [e] |}).

Definition modifyHeap (f : Heap -> Heap) : M unit :=
  fun w => (Ok tt, {| self := self w; heap := f (heap w); debug := debug w;
                      stdin := stdin w; trace := trace w |}).

Definition modifySelf (f : PcaPsfDeterminer -> PcaPsfDeterminer) : M unit :=
  fun w => (Ok tt, {| self := f (self w); heap := heap w; debug := debug w;
                      stdin := stdin w; trace := trace w |}).

Definition putStdin (l : list (list string)) : M unit :=
  fun w => (Ok tt, {| self := self w; heap := heap w; debug := debug w;
                      stdin := l; trace := trace w |}).

Notation "x <- c1 ;; c2" := (bind c1 (fun x => c2))
  (at level 61, c1 at next level, right associativity).
Notation "c1 ;; c2" := (bind c1 (fun _ => c2))
  (at level 61, right associativity).

(** [for x in l: body(x)] *)
Fixpoint forEach {A} (l : list A) (body : A -> M unit) : M unit :=
  match l with
  | [] => ret tt
  | x :: l' => body x ;; forEach l' body
  end.

(** [[f(x) for x in l]] where [f] may raise *)
Fixpoint mapM {A B} (f : A -> M B) (l : list A) : M (list B) :=
  match l with
  | [] => ret []
  | x :: l' => y <- f x ;; ys <- mapM f l' ;; ret (y :: ys)
  end.

(** [cand.setStatus(s)] *)
Definition setStatus (s : Status) (c : CandRef) : M unit :=
  emit (EvSetStatus c s) ;; modifyHeap (updCand c (setStatus_ s)).

(** [cell.begin(ignoreBad)]: the candidates of a cell, without the BAD ones
    when [ignoreBad].  The source says which is which: [begin(False)] carries
    the comments "include bad candidates" and "don't ignore BAD stars",
    [begin(True)] the comments "ignore bad candidates" and "do ignore BAD
    stars". *)
Definition begin (h : Heap) (cell : list CandRef) (ignoreBad : bool) : list CandRef :=
  if ignoreBad
  then filter (fun c => negb (isBad (getStatus (getCand h c)))) cell
  else cell.

(** [for cell in psfCellSet.getCellList(): for cand in cell.begin(ignoreBad)] *)
Definition cellCandidates (h : Heap) (cs : SpatialCellSet) (ignoreBad : bool) : list CandRef :=
  flat_map (fun cell => begin h cell ignoreBad) cs.

(** ** [PcaPsfDeterminer._fitPsf] *)

Definition applyChi2 (f : CandRef -> Py.float -> Py.float) (h : Heap) : Heap :=
  {| candidates :=
       map (fun ic => setChi2_ (f (fst ic) (getChi2 (snd ic))) (snd ic))
           (combine (seq 0 (List.length (candidates h))) (candidates h));
     stampWidth := stampWidth h; stampHeight := stampHeight h |}.

Definition _fitPsf (exposure : Exposure) (psfCellSet : SpatialCellSet)
  : M (Psf * list Q * Q) :=
  w <- get ;;
  emit (EvFitPsf (statuses (heap w))) ;;
  let s := self w in
  (* Determine KL components *)
  let '(kernel, eigenValues, chi2s) :=
    createKernelFromPsfCandidates ext (heap w) psfCellSet exposure
      (_nEigenComponents s) (_spatialOrder s) (_kernelSize s)
      (_nStarPerCell s) (_constantWeight s) in
  modifyHeap (applyChi2 chi2s) ;;
  (* Express eigenValues in units of reduced chi^2 per star *)
  let size := _kernelSize s + 2 * _borderWidth s in
  let nu := size * size - 1 in
  w1 <- get ;;
  eigenValues <-
    mapM (fun l =>
            let d := countPsfCandidates ext (heap w1) psfCellSet (_nStarPerCell s) * nu in
            if d =? 0 then raise ZeroDivisionError
            else ret (l / inject_Z d)%Q)
         eigenValues ;;
  (* Fit spatial model *)
  let '(status, chi2, chi2s') :=
    fitSpatialKernelFromPsfCandidates ext kernel (heap w1) psfCellSet
      (_nonLinearSpatialFit s) (_nStarPerCellSpatialFit s)
      (_tolerance s) (_lambda s) in
  modifyHeap (applyChi2 chi2s') ;;
  ret (createPsf_PCA kernel, eigenValues, chi2).

(** ** The kernel size (lines 116-140) *)

(** [sizes[i] = afwEll.Axes(afwEll.Quadrupole(Ixx, Iyy, Ixy)).getA()] *)
Definition candidateSize (h : Heap) (c : CandRef) : Q :=
  let source := getSource (getCand h c) in
  Axes_getA ext (getIxx source) (getIyy source) (getIxy source).

(** The value assigned to [self._kernelSize] (lines 125-133).  The product
    and the sum of line 129 are double operations: the int is converted, and
    each result is rounded, before [int()] truncates. *)
Definition scaledKernelSize (s : PcaPsfDeterminer) (sizes : list Q) : Z :=
  if _kernelSize s >=? 15 then
    _kernelSize s
  else
    let k := 2 * Py.int (Py.fadd (Py.fmul (Py.float_of_int (_kernelSize s))
                                          (np_sqrt ext (Py.np_median sizes)))
                                 (1 # 2)) + 1 in
    let k := if k <? _kernelSizeMin s then _kernelSizeMin s else k in
    let k := if k >? _kernelSizeMax s then _kernelSizeMax s else k in
    k.

(** [psfCandidateList[0].setHeight(n)] and [.setWidth(n)] *)
Definition setHeight (n : Z) : M unit :=
  emit (EvSetHeight n) ;;
  modifyHeap (fun h => {| candidates := candidates h;
                          stampWidth := stampWidth h; stampHeight := n |}).

Definition setWidth (n : Z) : M unit :=
  emit (EvSetWidth n) ;;
  modifyHeap (fun h => {| candidates := candidates h;
                          stampWidth := n; stampHeight := stampHeight h |}).

(** Construct and populate the spatial cell set (lines 114-123). *)
Fixpoint populate (psfCandidateList : list CandRef) (psfCellSet : SpatialCellSet)
  : M SpatialCellSet :=
  match psfCandidateList with
  | [] => ret psfCellSet
  | psfCandidate :: rest =>
      w <- get ;;
      emit (EvInsertCandidate psfCandidate) ;;
      populate rest (insertCandidate ext (heap w) psfCellSet psfCandidate)
  end.

(** ** One round of the loop (lines 195-302) *)

(** "Allow all candidates to be innocent until proven guilty". *)
Definition resetStatus (psfCellSet : SpatialCellSet) : M unit :=
  w <- get ;;
  forEach (cellCandidates (heap w) psfCellSet false) (setStatus UNKNOWN).

(** [rchi2 < 0 or rchi2 > self._reducedChi2ForPsfCandidates or numpy.isnan(rchi2)] *)
Definition chi2IsBad (threshold : Q) (rchi2 : Py.float) : bool :=
  match rchi2 with
  | Py.NaN => true
  | Py.Fin q => Py.ltb q 0 || Py.gtb q threshold
  end.

(** The pool of the chi-square clipping, before it is sorted. *)
Definition chi2Pool (s : PcaPsfDeterminer) (h : Heap) (psfCellSet : SpatialCellSet)
  : list CandRef :=
  filter (fun c => chi2IsBad (_reducedChi2ForPsfCandidates s) (getChi2 (getCand h c)))
         (cellCandidates h psfCellSet false).

(** [badCandidates.sort(key=lambda x: x.getChi2(), reverse=True)] *)
Definition chi2Sorted (h : Heap) (pool : list CandRef) : list CandRef :=
  Py.sort_by (fun y x => Py.fgtb (getChi2 (getCand h y)) (getChi2 (getCand h x))) pool.

(** The candidates that the chi-square clipping of round [iter] marks. *)
Definition chi2Marked (s : PcaPsfDeterminer) (h : Heap) (psfCellSet : SpatialCellSet)
  (iter : Z) : list CandRef :=
  let badCandidates := chi2Sorted h (chi2Pool s h psfCellSet) in
  Py.zip_range (numBad (Z.of_nat (List.length badCandidates)) iter (_nIterForPsf s))
               badCandidates.

Definition chi2Clip (psfCellSet : SpatialCellSet) (iter : Z) : M unit :=
  w <- get ;;
  forEach (chi2Marked (self w) (heap w) psfCellSet iter) (setStatus BAD).

(** [amp += p * afwMath.cast_FixedKernel(k).getSum()] over [zip(params, kernels)],
    as the exact sum of the exact products; the double that the code
    accumulates is this number when every product and every partial sum is a
    double ([exactAmplitude] below). *)
Definition amplitude (params kernelSums : list Q) : Q :=
  fold_left (fun amp pk => (amp + fst pk * snd pk)%Q) (combine params kernelSums) 0%Q.

(** [[a / amp - p for a, p in zip(params, predict)]]; the float division
    raises when [amp] is zero. *)
Definition residualRow (amp : Q) (params predict : list Q) : M (list Q) :=
  mapM (fun ap => if Qeq_bool amp 0 then raise ZeroDivisionError
                  else ret (fst ap / amp - snd ap)%Q)
       (combine params predict).

(** The residuals of one candidate (lines 250-262). *)
Definition candidateResiduals (kernel : Kernel) (cand : PsfCandidate) (im : Image)
  : M (list Q) :=
  let x := getXCenter cand in
  let y := getYCenter cand in
  let '(params, kernels) := fitKernelParamsToImage ext kernel im x y in
  let amp := amplitude params kernels in
  let predict := map (fun k => getSpatialFunction ext kernel k x y)
                     (seq 0 (getNKernelParameters ext kernel)) in
  residualRow amp params predict.

(** The loop of lines 241-263 over [cell.begin(False)]: a candidate whose
    [getImage()] raises is skipped. *)
Fixpoint spatialResiduals (kernel : Kernel) (cands : list CandRef)
  : M (list (list Q) * list CandRef) :=
  match cands with
  | [] => ret ([], [])
  | c :: rest =>
      w <- get ;;
      let cand := getCand (heap w) c in
      match getImage cand (stampWidth (heap w)) (stampHeight (heap w)) with
      | None => spatialResiduals kernel rest
      | Some im =>
          row <- candidateResiduals kernel cand im ;;
          rc <- spatialResiduals kernel rest ;;
          ret (row :: fst rc, c :: snd rc)
      end
  end.

(** [numpy.array(residuals)[:, k]]: an IndexError unless the rows form a
    matrix with more than [k] columns. *)
Definition column (residuals : list (list Q)) (k : nat) : option (list Q) :=
  match residuals with
  | [] => None
  | r0 :: _ =>
      if forallb (fun r => Nat.eqb (List.length r) (List.length r0)) residuals
         && Nat.ltb k (List.length r0)
      then Some (map (fun r => nth k r 0%Q) residuals)
      else None
  end.

(** [numpy.fabs(residuals[i,k] - mean)] *)
Definition deviation (col : list Q) (mean : Q) (i : nat) : Q :=
  Qabs (nth i col 0%Q - mean).

(** The per-component pool (lines 287-290): indices into [candidates]. *)
Definition spatialPool (s : PcaPsfDeterminer) (col : list Q) (mean rms : Q)
  (candidates : list CandRef) : list nat :=
  filter (fun i => Py.gtb (deviation col mean i) (_spatialReject s * rms)%Q)
         (seq 0 (List.length candidates)).

(** [badCandidates.sort(key=lambda x: numpy.fabs(residuals[x,k] - mean), reverse=True)] *)
Definition spatialSorted (col : list Q) (mean : Q) (pool : list nat) : list nat :=
  Py.sort_by (fun y x => Py.gtb (deviation col mean y) (deviation col mean x)) pool.

(** The candidates that component [k] marks in round [iter] (lines 292-302). *)
Definition spatialMarked (s : PcaPsfDeterminer) (col : list Q)
  (candidates : list CandRef) (iter : Z) : list CandRef :=
  let '(mean, rms) := makeStatistics ext col in
  let rms := Py.max (1 # 10000) rms in
  let badCandidates := spatialSorted col mean (spatialPool s col mean rms candidates) in
  let numBad := numBad (Z.of_nat (List.length badCandidates)) iter (_nIterForPsf s) in
  map (fun c => nth c candidates O)
      (Py.zip_range (Z.min (Z.of_nat (List.length badCandidates)) numBad) badCandidates).

Definition spatialClipComponent (residuals : list (list Q)) (candidates : list CandRef)
  (iter : Z) (k : nat) : M unit :=
  match column residuals k with
  | None => raise IndexError
  | Some col =>
      w <- get ;;
      forEach (spatialMarked (self w) col candidates iter) (setStatus BAD)
  end.

Definition spatialClip (psf : Psf) (psfCellSet : SpatialCellSet) (iter : Z) : M unit :=
  let kernel := getKernel psf in
  w <- get ;;
  rc <- spatialResiduals kernel (cellCandidates (heap w) psfCellSet false) ;;
  forEach (seq 0 (getNKernelParameters ext kernel))
          (spatialClipComponent (fst rc) (snd rc) iter).

(** ** The interactive prompt (lines 341-378) *)

Inductive PromptResult :=
| Prompted (loc : Locals) (rest : list (list string))
| PromptRaised (e : Exn) (rest : list (list string)).

Definition withReply (r : string) (loc : Locals) : Locals :=
  {| display := display loc; pause := pause loc; reply := r |}.

(** What one recognised reply does; [None] is [continue].  For "p" the code
    enters the debugger ([pdb.set_trace()]), which reads its own commands
    from the same input and may end the call; the debugger session is not
    modelled, and the reply is taken here as if the debugger returned at once
    without reading.  What is proved of the prompt's outcomes is stated for
    input without a "p" reply. *)
Definition promptStep (r : string) (args : list string) (loc : Locals)
  : option (Result Locals) :=
  if String.eqb r "c" then
    Some (Ok {| display := display loc; pause := false; reply := r |})
  else if String.eqb r "h" then None
  else if String.eqb r "p" then Some (Ok (withReply r loc))
  else if String.eqb r "q" then
    Some (Ok {| display := 0; pause := pause loc; reply := r |})
  else if String.eqb r "s" then
    match args with
    | [] => Some (Raise IndexError)      (* args.pop(0) *)
    | _ :: _ => None
    end
  else Some (Ok (withReply r loc)).

Definition recognised (r : string) : bool :=
  existsb (String.eqb r) [""; "c"; "h"; "n"; "p"; "q"; "s"; "y"]%string.

(** The [while True] around [raw_input]; at end of input the reply is "n". *)
Fixpoint promptLoop (input : list (list string)) (loc : Locals) : PromptResult :=
  match input with
  | [] => Prompted (withReply "n" loc) []
  | line :: rest =>
      let r := match line with [] => ""%string | r :: _ => r end in
      let args := match line with [] => [] | _ :: args => args end in
      if recognised r then
        match promptStep r args loc with
        | Some (Ok loc') => Prompted loc' rest
        | Some (Raise e) => PromptRaised e rest
        | None => promptLoop rest (withReply r loc)
        end
      else promptLoop rest (withReply r loc)
  end.

Definition prompt (loc : Locals) : M Locals :=
  w <- get ;;
  match promptLoop (stdin w) loc with
  | Prompted loc' rest => putStdin rest ;; ret loc'
  | PromptRaised e rest => putStdin rest ;; raise e
  end.

(** "Display results" (lines 307-378).  The display routines draw and
    change nothing; with [pause] set the prompt follows.  The boolean is
    [true] when the round leaves the loop by [break]. *)
Definition interact (loc : Locals) : M (Locals * bool) :=
  w <- get ;;
  if negb (display loc =? 0) && dbg_displayIterations (debug w) then
    if pause loc then
      loc' <- prompt loc ;;
      if String.eqb (reply loc') "n" then ret (loc', true) else ret (loc', false)
    else ret (loc, false)
  else ret (loc, false).

(** The body of [for iter in range(self._nIterForPsf)].  The mosaic of
    lines 157-193 is drawn from the candidates and changes nothing. *)
Definition psfIteration (exposure : Exposure) (psfCellSet : SpatialCellSet)
  (iter : Z) (loc : Locals) : M (Locals * bool) :=
  (* First, estimate the PSF *)
  fit <- _fitPsf exposure psfCellSet ;;
  let psf := fst (fst fit) in
  (* In clipping, allow all candidates to be innocent until proven guilty *)
  resetStatus psfCellSet ;;
  (* Clip out bad fits based on raw chi^2 *)
  chi2Clip psfCellSet iter ;;
  (* Clip out bad fits based on spatial fitting *)
  spatialClip psf psfCellSet iter ;;
  (* Display results *)
  interact loc.

(** [for iter in range(...)] with [break]. *)
Fixpoint forIter (iters : list Z) (body : Z -> Locals -> M (Locals * bool))
  (loc : Locals) : M Locals :=
  match iters with
  | [] => ret loc
  | iter :: rest =>
      r <- body iter loc ;;
      if snd r then ret (fst r) else forIter rest body (fst r)
  end.

(** ** The star counts and SDQA ratings (lines 431-452) *)

Definition markPsfStar (c : CandRef) : M unit :=
  modifyHeap (updCand c (fun cand =>
    let src := getSource cand in
    setSource_ (setFlagForDetection (Z.lor (getFlagForDetection src) (PSFSTAR ext)) src)
               cand)).

Definition sdqaRatings (fitChi2 : Q) (numGoodStars numAvailStars : Z) : list SdqaRating :=
  [ {| ratingName := "phot.psf.spatialFitChi2"; ratingValue := fitChi2; ratingErr := -1 |};
    {| ratingName := "phot.psf.numGoodStars"; ratingValue := inject_Z numGoodStars;
       ratingErr := 0 |};
    {| ratingName := "phot.psf.numAvailStars"; ratingValue := inject_Z numAvailStars;
       ratingErr := 0 |};
    {| ratingName := "phot.psf.spatialLowOrdFlag"; ratingValue := 0; ratingErr := 0 |} ].

Definition finalize (psfCellSet : SpatialCellSet) (fitChi2 : Q)
  (sdqaRatingSet : option (list SdqaRating)) : M (option (list SdqaRating)) :=
  w <- get ;;
  let numAvailStars := Z.of_nat (List.length (cellCandidates (heap w) psfCellSet false)) in
  let good := cellCandidates (heap w) psfCellSet true in
  forEach good markPsfStar ;;
  let numGoodStars := Z.of_nat (List.length good) in
  ret (option_map (fun l => l ++ sdqaRatings fitChi2 numGoodStars numAvailStars)
                  sdqaRatingSet).

(** ** [PcaPsfDeterminer.determinePsf] *)

(** Lines 105-140: the cell set, the kernel size and the stamp size. *)
Definition prepare (exposure : Exposure) (psfCandidateList : list CandRef)
  : M (SpatialCellSet * Locals) :=
  w <- get ;;
  let loc := {| display := dbg_display (debug w);
                pause := if dbg_display (debug w) >? 1 then true else dbg_pause (debug w);
                reply := "y" |} in
  if Nat.eqb (List.length psfCandidateList) 0 then
    raise (RuntimeError "No PSF candidates supplied.")
  else
    psfCellSet <- populate psfCandidateList
                    (newSpatialCellSet ext exposure (_sizeCellX (self w)) (_sizeCellY (self w))) ;;
    let sizes := map (candidateSize (heap w)) psfCandidateList in
    modifySelf (fun s => set_kernelSize (scaledKernelSize s sizes) s) ;;
    w' <- get ;;
    (* Set size of image returned around candidate *)
    setHeight (_kernelSize (self w')) ;;
    setWidth (_kernelSize (self w')) ;;
    ret (psfCellSet, loc).

(** Lines 105-378: everything up to the end of the loop. *)
Definition fitLoop (exposure : Exposure) (psfCandidateList : list CandRef)
  : M SpatialCellSet :=
  pl <- prepare exposure psfCandidateList ;;
  w <- get ;;
  forIter (Py.range (_nIterForPsf (self w))) (psfIteration exposure (fst pl)) (snd pl) ;;
  ret (fst pl).

Definition determinePsf (exposure : Exposure) (psfCandidateList : list CandRef)
  (sdqaRatingSet : option (list SdqaRating))
  : M (Psf * SpatialCellSet * option (list SdqaRating)) :=
  psfCellSet <- fitLoop exposure psfCandidateList ;;
  (* One last time, to take advantage of the last iteration *)
  fit <- _fitPsf exposure psfCellSet ;;
  let psf := fst (fst fit) in
  let fitChi2 := snd fit in
  ratings <- finalize psfCellSet fitChi2 sdqaRatingSet ;;
  ret (psf, psfCellSet, ratings).

End Model.

Arguments Externals : clear implicits.
Arguments World : clear implicits.
Arguments M : clear implicits.

Declare Scope py_scope.
Delimit Scope py_scope with py.
Notation "x <- c1 ;; c2" := (bind c1 (fun x => c2))
  (at level 61, c1 at next level, right associativity) : py_scope.
Notation "c1 ;; c2" := (bind c1 (fun _ => c2))
  (at level 61, right associativity) : py_scope.

(** ** Observations on traces and worlds *)

Definition isFitPsf (e : Event) : bool :=
  match e with EvFitPsf _ => true | _ => false end.

Definition isSetStatus (e : Event) : bool :=
  match e with EvSetStatus _ _ => true | _ => false end.

Definition isSetStamp (e : Event) : bool :=
  match e with EvSetHeight _ | EvSetWidth _ => true | _ => false end.

Definition isInsert (e : Event) : bool :=
  match e with EvInsertCandidate _ => true | _ => false end.

(** The number of [_fitPsf] calls in a trace. *)
Definition fitCount (tr : list Event) : nat := List.length (filter isFitPsf tr).

(** [x] clamped to [[lo, hi]]. *)
Definition clamp (lo hi x : Z) : Z := Z.min hi (Z.max lo x).

(** The kernel size as the specification words it. *)
Definition spec_kernelSize (base lo hi : Z) (sqrtMedian : Q) : Z :=
  if 15 <=? base then base
  else clamp lo hi (2 * Qfloor (inject_Z base * sqrtMedian + (1 # 2)) + 1).



(** No candidate of [l] has a NaN chi-square. *)
Definition noNaN {Image} (h : @Heap Image) (l : list CandRef) : Prop :=
  forall c, In c l -> Py.isnan (getChi2 (getCand h c)) = false.

(** The median as the specification has it: the middle one of the values in
    ascending order, or the mean of the two middle ones (as [numpy.median]
    takes it: their double sum, halved). *)
Definition medianOf (l : list Q) (m : Q) : Prop :=
  exists sorted,
    Permutation sorted l /\ Sorted Qle sorted /\
    let n := List.length l in
    m = if Nat.even n
        then Py.fdiv (Py.fadd (nth (n / 2 - 1)%nat sorted 0%Q) (nth (n / 2)%nat sorted 0%Q)) 2
        else nth (n / 2)%nat sorted 0%Q.

(** The residual of a candidate for component [k] as the specification words
    it: the fitted parameter normalised by the sum of the parameters, minus
    the prediction. *)
Definition spec_residual (params predict : list Q) (k : nat) : Q :=
  (nth k params 0 / fold_right Qplus 0 params - nth k predict 0)%Q.

(** ** Relations between the world before and after a computation *)

(** The heap after [setStatus(s)] on each candidate of [l] in turn. *)
Definition markAll {Image} (s : Status) (l : list CandRef) (h : @Heap Image) : Heap :=
  fold_left (fun h c => updCand c (setStatus_ s) h) l h.

(** The computation appends events that all satisfy [P] and leaves the
    determiner object, the debug switches and the stamp size alone. *)
Definition Steady {Image} (P : Event -> bool) (w w' : World Image) : Prop :=
  self w' = self w /\ debug w' = debug w /\
  stampWidth (heap w') = stampWidth (heap w) /\
  stampHeight (heap w') = stampHeight (heap w) /\
  exists evs, trace w' = trace w ++ evs /\ forallb P evs = true.

(** The computation records nothing and changes no candidate's status. *)
Definition Quiet {Image} (w w' : World Image) : Prop :=
  self w' = self w /\ debug w' = debug w /\
  stampWidth (heap w') = stampWidth (heap w) /\
  stampHeight (heap w') = stampHeight (heap w) /\
  trace w' = trace w /\ statuses (heap w') = statuses (heap w).

(** A call of [_fitPsf]: one event that carries the statuses at the call;
    only chi-squares change. *)
Definition Fitted {Image} (w w' : World Image) : Prop :=
  self w' = self w /\ debug w' = debug w /\
  stampWidth (heap w') = stampWidth (heap w) /\
  stampHeight (heap w') = stampHeight (heap w) /\
  trace w' = trace w ++ [EvFitPsf (statuses (heap w))] /\
  statuses (heap w') = statuses (heap w).

(** The exceptions of the numeric code. *)
Definition benign (e : Exn) : Prop := e = ZeroDivisionError \/ e = IndexError.

(** [m] relates the worlds before and after by [R] and raises benign
    exceptions only. *)
Definition sat {Image A} (R : World Image -> World Image -> Prop) (m : M Image A) : Prop :=
  forall w, R w (snd (m w)) /\ (forall e, fst (m w) = Raise e -> benign e).

(** The interactive prompt cannot be reached. *)
Definition promptOff {Image} (loc : Locals) (w : World Image) : Prop :=
  display loc = 0 \/ dbg_displayIterations (debug w) = false.

Definition hasImage {Image} (h : @Heap Image) (c : CandRef) : bool :=
  match getImage (getCand h c) (stampWidth h) (stampHeight h) with
  | Some _ => true
  | None => false
  end.

(** The locals at the start of the loop (lines 105-106, 155). *)
Definition initialLocals (d : DebugInfo) : Locals :=
  {| display := dbg_display d;
     pause := if dbg_display d >? 1 then true else dbg_pause d;
     reply := "y" |}.

(** The world when the loop starts, for a non-empty candidate list: the
    candidates inserted, [self._kernelSize] overwritten and the stamp size
    set from it. *)
Definition preparedWorld {Image Kernel Exposure} (ext : Externals Image Kernel Exposure)
  (psfCandidateList : list CandRef) (w : World Image) : World Image :=
  let k := scaledKernelSize ext (self w)
             (map (candidateSize ext (heap w)) psfCandidateList) in
  {| self := set_kernelSize k (self w);
     heap := {| candidates := candidates (heap w);
                stampWidth := k; stampHeight := k |};
     debug := debug w;
     stdin := stdin w;
     trace := trace w ++ map EvInsertCandidate psfCandidateList
                      ++ [EvSetHeight k; EvSetWidth k] |}.

Definition isSetBad (e : Event) : bool :=
  match e with EvSetStatus _ BAD => true | _ => false end.

Definition inLoop (e : Event) : bool := isFitPsf e || isSetStatus e.

(** The number of loop rounds that a call starts: every round calls
    [_fitPsf] once, first thing, and nothing else up to the end of the loop
    does. *)
Definition roundsRun {Image Kernel Exposure} (ext : Externals Image Kernel Exposure)
  (exposure : Exposure) (psfCandidateList : list CandRef) (w : World Image) : nat :=
  fitCount (trace (snd (fitLoop ext exposure psfCandidateList w))) - fitCount (trace w).

(** The sum of the products [p * k] over two lists. *)
Definition dot (ps ks : list Q) : Q :=
  fold_right Qplus 0%Q (map (fun pk => (fst pk * snd pk)%Q) (combine ps ks)).

(** The residual row of one candidate, empty when the computation raises. *)
Definition residualsOf {Image Kernel Exposure} (ext : Externals Image Kernel Exposure)
  (kernel : Kernel) (cand : PsfCandidate) (im : Image) (w : World Image) : list Q :=
  match fst (candidateResiduals ext kernel cand im w) with
  | Ok row => row
  | Raise _ => []
  end.

(** The same world seen by another determiner object. *)
Definition withSelf {Image} (s : PcaPsfDeterminer) (w : World Image) : World Image :=
  {| self := s; heap := heap w; debug := debug w; stdin := stdin w; trace := trace w |}.

(** ** A small concrete instantiation

    One cell that keeps every candidate in insertion order; fit routines
    that return fixed parameters and leave the chi-squares alone; a square
    root that is exact on squares of rationals.  It serves to run the model
    on concrete inputs. *)

Module Toy.

Definition sqrt (q : Q) : Q :=
  let r := Qred q in
  Z.sqrt (Qnum r) # Pos.sqrt (Qden r).

(** Semi-major axis of the ellipse with second moments [ixx], [iyy], [ixy]. *)
Definition axesA (ixx iyy ixy : Q) : Q :=
  Qred (sqrt ((1 # 2) * (ixx + iyy + sqrt ((ixx - iyy) * (ixx - iyy) + 4 * ixy * ixy)))).

Definition insert (cs : SpatialCellSet) (c : CandRef) : SpatialCellSet :=
  match cs with
  | [] => [[c]]
  | cell :: rest => (cell ++ [c]) :: rest
  end.

(** The kernel is the list of the spatial functions' (constant) values. *)
Definition ext (params kernelSums predict : list Q) : Externals unit (list Q) unit :=
  {| newSpatialCellSet := fun _ _ _ => [[]];
     insertCandidate := fun _ cs c => insert cs c;
     Axes_getA := axesA;
     np_sqrt := sqrt;
     createKernelFromPsfCandidates :=
       fun _ _ _ _ _ _ _ _ => (predict, [1%Q], fun _ x => x);
     countPsfCandidates :=
       fun h cs _ => Z.of_nat (List.length (cellCandidates h cs true));
     fitSpatialKernelFromPsfCandidates :=
       fun _ _ _ _ _ _ _ => (0, 1%Q, fun _ x => x);
     getNKernelParameters := fun k => List.length k;
     getSpatialFunction := fun k i _ _ => nth i k 0%Q;
     fitKernelParamsToImage := fun _ _ _ _ => (params, kernelSums);
     makeStatistics :=
       fun col => ((fold_right Qplus 0 col / inject_Z (Z.of_nat (List.length col)))%Q, 0%Q);
     PSFSTAR := 1024 |}.

(** No basis component: the spatial clipping has nothing to do. *)
Definition plain : Externals unit (list Q) unit := ext [] [] [].

Definition star (id : Z) (ixx : Q) (chi2 : Py.float) : @PsfCandidate unit :=
  {| getSource := {| getId := id; getIxx := ixx; getIyy := ixx; getIxy := 0;
                     getFlagForDetection := 0 |};
     getXCenter := inject_Z id; getYCenter := inject_Z id;
     getStatus := UNKNOWN; getChi2 := chi2;
     getImage := fun _ _ => Some tt |}.

Definition determiner (kernelSize nIter : Z) : PcaPsfDeterminer :=
  {| _nonLinearSpatialFit := false;
     _nEigenComponents := 2;
     _spatialOrder := 1;
     _sizeCellX := 256;
     _sizeCellY := 256;
     _nStarPerCell := 0;
     _kernelSize := kernelSize;
     _kernelSizeMin := 5;
     _kernelSizeMax := 99;
     _borderWidth := 3;
     _nStarPerCellSpatialFit := 0;
     _constantWeight := true;
     _tolerance := 1 # 100;
     _lambda := 1 # 2;
     _reducedChi2ForPsfCandidates := 2;
     _nIterForPsf := nIter;
     _spatialReject := 3 |}.

Definition quiet : DebugInfo :=
  {| dbg_display := 0; dbg_displayIterations := false; dbg_pause := false |}.

Definition interactive : DebugInfo :=
  {| dbg_display := 1; dbg_displayIterations := true; dbg_pause := true |}.

Definition world (s : PcaPsfDeterminer) (cands : list (@PsfCandidate unit))
  (d : DebugInfo) (input : list (list string)) : World unit :=
  {| self := s;
     heap := {| candidates := cands; stampWidth := 0; stampHeight := 0 |};
     debug := d; stdin := input; trace := [] |}.

(** Ten stars whose chi-squares 11, 12, ..., 20 all exceed the threshold 2. *)
Definition tenBad : list (@PsfCandidate unit) :=
  map (fun i => star i 4 (Py.Fin (inject_Z (10 + i)))) [1; 2; 3; 4; 5; 6; 7; 8; 9; 10].

(** Two stars over the threshold and one good one. *)
Definition twoBad : list (@PsfCandidate unit) :=
  [star 1 4 (Py.Fin 50); star 2 4 (Py.Fin 1); star 3 4 (Py.Fin 40)].

(** Stars whose ellipses have semi-major axes 1, 4 and 9. *)
Definition axes149 : list (@PsfCandidate unit) :=
  [star 1 1 (Py.Fin 1); star 2 16 (Py.Fin 1); star 3 81 (Py.Fin 1)].

Definition cells3 : SpatialCellSet := [[0; 1; 2]]%nat.
Definition cells10 : SpatialCellSet := [[0; 1; 2; 3; 4; 5; 6; 7; 8; 9]]%nat.

(** Ten candidates over the threshold, five rounds. *)
Definition tenWorld : World unit := world (determiner 21 5) tenBad quiet [].

(** Two rounds without display. *)
Definition quietWorld : World unit := world (determiner 21 2) twoBad quiet [].

(** Three rounds asked for; the user answers "n" at the first prompt. *)
Definition promptWorld : World unit :=
  world (determiner 21 3) twoBad interactive [["n"%string]].

(** A single round, stopped after its chi-square clipping. *)
Definition clippedWorld : World unit :=
  snd (chi2Clip cells3 0
         (snd (resetStatus cells3 (world (determiner 21 1) twoBad quiet [])))).

(** Base size 5 and stars of semi-major axes 1, 4 and 9. *)
Definition sizingWorld : World unit := world (determiner 5 2) axes149 quiet [].

(** Two basis kernels of sums 1 and 0, fitted parameters 2 and 3, predicted
    weights 1 and 0. *)
Definition mixture : Externals unit (list Q) unit := ext [2; 3]%Q [1; 0]%Q [1; 0]%Q.

End Toy.

(** ** Further observations *)

(** [c] occurs in [l]. *)
Definition memb (c : nat) (l : list nat) : bool := existsb (Nat.eqb c) l.

(** The status and the detection flags of the candidate that [c] refers to. *)
Definition statusOf {Image} (h : @Heap Image) (c : CandRef) : Status :=
  getStatus (getCand h c).

Definition flagsOf {Image} (h : @Heap Image) (c : CandRef) : Z :=
  getFlagForDetection (getSource (getCand h c)).

(** [c] refers to a candidate of the heap. *)
Definition validRef {Image} (h : @Heap Image) (c : CandRef) : Prop :=
  (c < List.length (candidates h))%nat.

(** An event of the loop that is not a [setStatus(GOOD)]. *)
Definition noGood (e : Event) : bool :=
  match e with
  | EvFitPsf _ => true
  | EvSetStatus _ GOOD => false
  | EvSetStatus _ _ => true
  | _ => false
  end.

(** The computation leaves the determiner, the debug switches and the
    pending input alone. *)
Definition HeapOnly {Image} (w w' : World Image) : Prop :=
  self w' = self w /\ debug w' = debug w /\ stdin w' = stdin w.

(** Every product [p * k] and every partial sum of the amplitude is a double:
    the doubles that lines 253-255 accumulate are then the exact sums. *)
Fixpoint exactSumFrom (acc : Q) (l : list (Q * Q)) : Prop :=
  match l with
  | [] => True
  | pk :: rest =>
      (Py.fround (fst pk * snd pk) == fst pk * snd pk)%Q /\
      (Py.fround (acc + fst pk * snd pk) == acc + fst pk * snd pk)%Q /\
      exactSumFrom (acc + fst pk * snd pk)%Q rest
  end.

Definition exactAmplitude (params kernelSums : list Q) : Prop :=
  exactSumFrom 0%Q (combine params kernelSums).

(** The candidate with the PSFSTAR bit set on its source (lines 440-441). *)
Definition withPsfStar {Image Kernel Exposure} (ext : Externals Image Kernel Exposure)
  (cand : @PsfCandidate Image) : PsfCandidate :=
  setSource_ (setFlagForDetection
                (Z.lor (getFlagForDetection (getSource cand)) (PSFSTAR ext))
                (getSource cand)) cand.

(** * measurement.py: slots, validation and the aperture correction *)

Module Measurement.

(** The exceptions that the code of [measurement.py] itself raises:
    [ValueError] from [validate], and [AttributeError] where an attribute
    that was never assigned is read. *)
Inductive PyExn :=
| ValueError (msg : string)
| AttributeError (name : string).

Inductive Outcome (A : Type) :=
| Done (a : A)
| Raised (e : PyExn).
Arguments Done {A} a.
Arguments Raised {A} e.

(** [name in names] and [x in names] for an [x] that may be [None]. *)
Definition inNames (name : string) (names : list string) : bool :=
  existsb (String.eqb name) names.

Definition optInNames (x : option string) (names : list string) : bool :=
  match x with Some name => inNames name names | None => false end.

(** [SourceSlotConfig]: six optional algorithm names. *)
Record SourceSlotConfig := {
  centroid : option string;
  shape : option string;
  apFlux : option string;
  modelFlux : option string;
  psfFlux : option string;
  instFlux : option string
}.

(** The slots of an afw source table, as far as [setupTable] defines them. *)
Record SourceTable := {
  centroidSlot : option string;
  shapeSlot : option string;
  apFluxSlot : option string;
  modelFluxSlot : option string;
  psfFluxSlot : option string;
  instFluxSlot : option string
}.

Definition defineCentroid (n : string) (t : SourceTable) : SourceTable :=
  {| centroidSlot := Some n; shapeSlot := shapeSlot t; apFluxSlot := apFluxSlot t;
     modelFluxSlot := modelFluxSlot t; psfFluxSlot := psfFluxSlot t;
     instFluxSlot := instFluxSlot t |}.
Definition defineShape (n : string) (t : SourceTable) : SourceTable :=
  {| centroidSlot := centroidSlot t; shapeSlot := Some n; apFluxSlot := apFluxSlot t;
     modelFluxSlot := modelFluxSlot t; psfFluxSlot := psfFluxSlot t;
     instFluxSlot := instFluxSlot t |}.
Definition defineApFlux (n : string) (t : SourceTable) : SourceTable :=
  {| centroidSlot := centroidSlot t; shapeSlot := shapeSlot t; apFluxSlot := Some n;
     modelFluxSlot := modelFluxSlot t; psfFluxSlot := psfFluxSlot t;
     instFluxSlot := instFluxSlot t |}.
Definition defineModelFlux (n : string) (t : SourceTable) : SourceTable :=
  {| centroidSlot := centroidSlot t; shapeSlot := shapeSlot t; apFluxSlot := apFluxSlot t;
     modelFluxSlot := Some n; psfFluxSlot := psfFluxSlot t;
     instFluxSlot := instFluxSlot t |}.
Definition definePsfFlux (n : string) (t : SourceTable) : SourceTable :=
  {| centroidSlot := centroidSlot t; shapeSlot := shapeSlot t; apFluxSlot := apFluxSlot t;
     modelFluxSlot := modelFluxSlot t; psfFluxSlot := Some n;
     instFluxSlot := instFluxSlot t |}.
Definition defineInstFlux (n : string) (t : SourceTable) : SourceTable :=
  {| centroidSlot := centroidSlot t; shapeSlot := shapeSlot t; apFluxSlot := apFluxSlot t;
     modelFluxSlot := modelFluxSlot t; psfFluxSlot := psfFluxSlot t;
     instFluxSlot := Some n |}.

(** [if x is not None: define(x)] *)
Definition whenSet (x : option string) (define : string -> SourceTable -> SourceTable)
  (t : SourceTable) : SourceTable :=
  match x with Some n => define n t | None => t end.

(** [SourceSlotConfig.setupTable] *)
Definition setupTable (self : SourceSlotConfig) (table : SourceTable) : SourceTable :=
  let table := whenSet (centroid self) defineCentroid table in
  let table := whenSet (shape self) defineShape table in
  let table := whenSet (apFlux self) defineApFlux table in
  let table := whenSet (modelFlux self) defineModelFlux table in
  let table := whenSet (psfFlux self) definePsfFlux table in
  whenSet (instFlux self) defineInstFlux table.

(** [SourceMeasurementConfig]: [algorithms] is [self.algorithms.names],
    [centroider] is [self.centroider.name]. *)
Record SourceMeasurementConfig := {
  slots : SourceSlotConfig;
  algorithms : list string;
  centroider : option string;
  apCorrFluxes : list string;
  doApplyApCorr : bool;
  prefix : option string
}.

(** The slot names that [SourceMeasurementConfig.__init__] assigns. *)
Definition initSlots (centroiderName : option string) : SourceSlotConfig :=
  {| centroid := centroiderName;
     shape := Some "shape.sdss"%string;
     apFlux := Some "flux.naive"%string;
     modelFlux := Some "flux.gaussian"%string;
     psfFlux := Some "flux.psf"%string;
     instFlux := Some "flux.gaussian"%string |}.

(** The configuration as the field defaults and [__init__] leave it. *)
Definition defaultConfig : SourceMeasurementConfig :=
  {| slots := initSlots (Some "centroid.sdss"%string);
     algorithms := ["flags.pixel"; "centroid.gaussian"; "centroid.naive"; "shape.sdss";
                    "flux.gaussian"; "flux.naive"; "flux.psf"; "flux.sinc";
                    "classification.extendedness"; "skycoord"]%string;
     centroider := Some "centroid.sdss"%string;
     apCorrFluxes := ["flux.psf"; "flux.gaussian"]%string;
     doApplyApCorr := true;
     prefix := None |}.

(** [a != b] for a string [a] and a [b] that may be [None]. *)
Definition differs (a : string) (b : option string) : bool :=
  match b with Some b' => negb (String.eqb a b') | None => true end.

Definition notRun (kind name : string) : PyExn :=
  ValueError ("source " ++ kind ++ " slot algorithm '" ++ name ++ "' is not being run.").

(** The loop over the four flux slots of [validate]. *)
Fixpoint checkFluxSlots (l : list (option string)) (names : list string) : Outcome unit :=
  match l with
  | [] => Done tt
  | slot :: rest =>
      match slot with
      | Some name =>
          if negb (inNames name names) then Raised (notRun "flux" name)
          else checkFluxSlots rest names
      | None => checkFluxSlots rest names
      end
  end.

(** One check of [validate] after another: the first that raises decides. *)
Definition andThen (a b : Outcome unit) : Outcome unit :=
  match a with Done _ => b | Raised e => Raised e end.

(** [SourceMeasurementConfig.validate], after the field checks of the base
    class.  The message of the second check reads [self.slots.astrom], an
    attribute that [SourceSlotConfig] does not have, so that check ends in an
    AttributeError. *)
Definition validate (self : SourceMeasurementConfig) : Outcome unit :=
  let names := algorithms self in
  if optInNames (centroider self) names then
    Raised (ValueError ("The algorithm in the 'centroider' field must not also appear in the "
                        ++ "'algorithms' field."))
  else
    andThen
      match centroid (slots self) with
      | Some c =>
          if negb (inNames c names) && differs c (centroider self)
          then Raised (AttributeError "astrom")
          else Done tt
      | None => Done tt
      end
      (andThen
         match shape (slots self) with
         | Some s => if negb (inNames s names) then Raised (notRun "shape" s) else Done tt
         | None => Done tt
         end
         (checkFluxSlots [psfFlux (slots self); apFlux (slots self);
                          modelFlux (slots self); instFlux (slots self)] names)).

(** A field key of the source schema, a source record with its position and
    its float fields, and a catalog with its table. *)
Definition Key := nat.

Record SourceRecord := {
  getX : Q;
  getY : Q;
  field : Key -> Q
}.

Definition get (source : SourceRecord) (key : Key) : Q := field source key.

Definition set (key : Key) (value : Q) (source : SourceRecord) : SourceRecord :=
  {| getX := getX source; getY := getY source;
     field := fun k => if Nat.eqb k key then value else field source k |}.

Record SourceCatalog := {
  table : SourceTable;
  records : list SourceRecord
}.

(** What [SourceMeasurementTask.__init__] assigns when [doApplyApCorr] is
    set; without it [corrKey] and [corrErrKey] are [None] and [fluxKeys] is
    never assigned. *)
Record ApCorrKeys := {
  fluxKeys : list (Key * Key);
  corrKey : Key;
  corrErrKey : Key
}.

(** Every key that a list of (flux, error) key pairs names. *)
Definition flatKeys (l : list (Key * Key)) : list Key :=
  flat_map (fun p => [fst p; snd p]) l.

Section Task.

(** Opaque values of the external libraries, and what they compute: the
    measurer's [apply], [apCorr.computeAt], the float power [x ** 0.5],
    [schema.find(name).key] and the keys that [schema.addField] returns for
    the two correction fields. *)
Context {Exposure ApCorr : Type}.

Record Externals := {
  measurerApply : SourceTable -> Exposure -> SourceRecord -> SourceRecord;
  computeAt : ApCorr -> Q -> Q -> Q * Q;
  pow_half : Q -> Q;
  findKey : string -> Key;
  newCorrKey : Key;
  newCorrErrKey : Key
}.

Variable ext : Externals.

Record SourceMeasurementTask := {
  config : SourceMeasurementConfig;
  apCorrKeys : option ApCorrKeys
}.

(** The list comprehension of [__init__]: the fluxes of [apCorrFluxes] that
    are among the algorithms, each with its error field. *)
Definition selectFluxKeys (c : SourceMeasurementConfig) : list (Key * Key) :=
  map (fun f => (findKey ext f, findKey ext (f ++ ".err")))
      (filter (fun f => inNames f (algorithms c)) (apCorrFluxes c)).

(** [SourceMeasurementTask.__init__], after the measurer is made. *)
Definition init (c : SourceMeasurementConfig) : SourceMeasurementTask :=
  {| config := c;
     apCorrKeys :=
       if doApplyApCorr c
       then Some {| fluxKeys := selectFluxKeys c;
                    corrKey := newCorrKey ext;
                    corrErrKey := newCorrErrKey ext |}
       else None |}.

(** [SourceMeasurementTask.measure] *)
Definition measure (self : SourceMeasurementTask) (exposure : Exposure)
  (sources : SourceCatalog) : SourceCatalog :=
  let table := setupTable (slots (config self)) (table sources) in
  {| table := table;
     records := map (measurerApply ext table exposure) (records sources) |}.

(** The body of [for fluxKey, fluxErrKey in self.fluxKeys]. *)
Definition correctFlux (corr corrErr : Q) (source : SourceRecord) (keys : Key * Key)
  : SourceRecord :=
  let flux := get source (fst keys) in
  let fluxErr := get source (snd keys) in
  let source := set (fst keys) (flux * corr)%Q source in
  set (snd keys)
      (pow_half ext (fluxErr ^ 2 * corr ^ 2 + flux ^ 2 * corrErr ^ 2)%Q) source.

(** The body of [for source in sources]. *)
Definition correctSource (keys : ApCorrKeys) (apCorr : ApCorr) (source : SourceRecord)
  : SourceRecord :=
  let cc := computeAt ext apCorr (getX source) (getY source) in
  let source := fold_left (correctFlux (fst cc) (snd cc)) (fluxKeys keys) source in
  let source := set (corrKey keys) (fst cc) source in
  set (corrErrKey keys) (snd cc) source.

(** [SourceMeasurementTask.applyApCorr]: reading [self.fluxKeys] raises when
    it was never assigned, which the first source reaches. *)
Definition applyApCorr (self : SourceMeasurementTask) (sources : SourceCatalog)
  (apCorr : ApCorr) : Outcome SourceCatalog :=
  match apCorrKeys self with
  | Some keys =>
      Done {| table := table sources;
              records := map (correctSource keys apCorr) (records sources) |}
  | None =>
      match records sources with
      | [] => Done sources
      | _ :: _ => Raised (AttributeError "fluxKeys")
      end
  end.

(** [SourceMeasurementTask.run]; in [self.config.doApplyApCorr and apCorr] an
    [apCorr] object is true and [None] is not. *)
Definition run (self : SourceMeasurementTask) (exposure : Exposure)
  (sources : SourceCatalog) (apCorr : option ApCorr) : Outcome SourceCatalog :=
  let sources := measure self exposure sources in
  match apCorr with
  | Some a => if doApplyApCorr (config self) then applyApCorr self sources a
              else Done sources
  | None => Done sources
  end.

End Task.

Arguments Externals : clear implicits.

(** A concrete correction: the measurer leaves records alone, the correction
    is 2 with error 1/2 everywhere, and the power is exact on squares. *)
Definition toyExt : Externals unit unit :=
  {| measurerApply := fun _ _ r => r;
     computeAt := fun _ _ _ => (2, 1 # 2)%Q;
     pow_half := Toy.sqrt;
     findKey := fun name => if String.eqb name "flux.psf" then 0%nat
                            else if String.eqb name "flux.psf.err" then 1%nat
                            else if String.eqb name "flux.gaussian" then 2%nat
                            else if String.eqb name "flux.gaussian.err" then 3%nat
                            else 9%nat;
     newCorrKey := 4%nat;
     newCorrErrKey := 5%nat |}.

(** A source with PSF flux 3 +- 4 and Gaussian flux 10 +- 0. *)
Definition toySource : SourceRecord :=
  {| getX := 1; getY := 1;
     field := fun k => if Nat.eqb k 0 then 3%Q
                       else if Nat.eqb k 1 then 4%Q
                       else if Nat.eqb k 2 then 10%Q
                       else if Nat.eqb k 6 then 7%Q
                       else 0%Q |}.

Definition emptyTable : SourceTable :=
  {| centroidSlot := None; shapeSlot := None; apFluxSlot := None;
     modelFluxSlot := None; psfFluxSlot := None; instFluxSlot := None |}.

Definition toyCatalog : SourceCatalog :=
  {| table := emptyTable; records := [toySource; toySource] |}.

(** A configuration that names the PSF flux twice among the fluxes to
    correct. *)
Definition twiceConfig : SourceMeasurementConfig :=
  {| slots := initSlots None;
     algorithms := ["flux.psf"; "flux.naive"]%string;
     centroider := None;
     apCorrFluxes := ["flux.psf"; "flux.psf"]%string;
     doApplyApCorr := true;
     prefix := None |}.

End Measurement.

(** ** Further concrete inputs *)

Module Runs.

(** Display, prompt and pause on, three rounds asked for, nothing to read. *)
Definition eofWorld : World unit :=
  Toy.world (Toy.determiner 21 3) Toy.twoBad Toy.interactive [].

(** Both candidates of the cell set are BAD. *)
Definition cells2 : SpatialCellSet := [[0; 1]]%nat.

Definition allBadWorld : World unit :=
  snd (chi2Clip cells2 0
         (Toy.world (Toy.determiner 21 1)
                    [Toy.star 1 4 (Py.Fin 50); Toy.star 2 4 (Py.Fin 60)] Toy.quiet [])).

(** A star whose stamp cannot be extracted. *)
Definition blindStar : @PsfCandidate unit :=
  {| getSource := {| getId := 7; getIxx := 4; getIyy := 4; getIxy := 0;
                     getFlagForDetection := 0 |};
     getXCenter := 7; getYCenter := 7; getStatus := UNKNOWN; getChi2 := Py.Fin 1;
     getImage := fun _ _ => None |}.

Definition blindWorld : World unit :=
  Toy.world (Toy.determiner 21 2) [blindStar; blindStar] Toy.quiet [].

(** Basis kernels that both sum to zero: the amplitude vanishes. *)
Definition flat : Externals unit (list Q) unit := Toy.ext [2; 3]%Q [0; 0]%Q [1; 0]%Q.

(** Bounds out of order, and a base size below 15. *)
Definition crossed : PcaPsfDeterminer :=
  {| _nonLinearSpatialFit := false; _nEigenComponents := 2; _spatialOrder := 1;
     _sizeCellX := 256; _sizeCellY := 256; _nStarPerCell := 0;
     _kernelSize := 5; _kernelSizeMin := 31; _kernelSizeMax := 9;
     _borderWidth := 3; _nStarPerCellSpatialFit := 0; _constantWeight := true;
     _tolerance := 1 # 100; _lambda := 1 # 2; _reducedChi2ForPsfCandidates := 2;
     _nIterForPsf := 2; _spatialReject := 3 |}.

(** Three rounds asked for, and both candidates BAD when the call starts (as
    an earlier call can leave them): the first fit counts no candidate. *)
Definition staleWorld : World unit :=
  Toy.world (Toy.determiner 21 3)
            [setStatus_ BAD (Toy.star 1 4 (Py.Fin 1)); setStatus_ BAD (Toy.star 2 4 (Py.Fin 1))]
            Toy.quiet [].

(** Two basis kernels of sums 0 and 1 and predicted weights 2 and 1; the fit
    of a stamp returns the parameters [x] and 1 for a candidate centred at
    [x], so the residuals of the first component are [x - 2]. *)
Definition graded : Externals unit (list Q) unit :=
  {| newSpatialCellSet := newSpatialCellSet Toy.plain;
     insertCandidate := insertCandidate Toy.plain;
     Axes_getA := Axes_getA Toy.plain;
     np_sqrt := np_sqrt Toy.plain;
     createKernelFromPsfCandidates :=
       createKernelFromPsfCandidates (Toy.ext [] [] [2; 1]%Q);
     countPsfCandidates := countPsfCandidates Toy.plain;
     fitSpatialKernelFromPsfCandidates := fitSpatialKernelFromPsfCandidates Toy.plain;
     getNKernelParameters := getNKernelParameters Toy.plain;
     getSpatialFunction := getSpatialFunction Toy.plain;
     fitKernelParamsToImage := fun _ _ x _ => ([x; 1]%Q, [0; 1]%Q);
     makeStatistics := makeStatistics Toy.plain;
     PSFSTAR := PSFSTAR Toy.plain |}.

(** One round; the first of three stars (centred at 1, 2 and 3) is over the
    chi-square threshold. *)
Definition gradedWorld : World unit :=
  Toy.world (Toy.determiner 21 1)
            [Toy.star 1 4 (Py.Fin 50); Toy.star 2 4 (Py.Fin 1); Toy.star 3 4 (Py.Fin 1)]
            Toy.quiet [].

(** The doubles nearest to 3.61 and to 1.9. *)
Definition d361 : Q := 8128997327403745 # 2251799813685248.
Definition d19 : Q := 4278419646001971 # 2251799813685248.

(** As [Toy.plain], with the second moment itself as the semi-major axis and
    a square root that at [d361] returns [d19], the double nearest to the
    root, as [numpy.sqrt] does. *)
Definition rounding : Externals unit (list Q) unit :=
  {| newSpatialCellSet := newSpatialCellSet Toy.plain;
     insertCandidate := insertCandidate Toy.plain;
     Axes_getA := fun ixx _ _ => ixx;
     np_sqrt := fun q => if Qeq_bool q d361 then d19 else Toy.sqrt q;
     createKernelFromPsfCandidates := createKernelFromPsfCandidates Toy.plain;
     countPsfCandidates := countPsfCandidates Toy.plain;
     fitSpatialKernelFromPsfCandidates := fitSpatialKernelFromPsfCandidates Toy.plain;
     getNKernelParameters := getNKernelParameters Toy.plain;
     getSpatialFunction := getSpatialFunction Toy.plain;
     fitKernelParamsToImage := fitKernelParamsToImage Toy.plain;
     makeStatistics := makeStatistics Toy.plain;
     PSFSTAR := PSFSTAR Toy.plain |}.

(** Base size 5 and one star of semi-major axis [d361]. *)
Definition roundingWorld : World unit :=
  Toy.world (Toy.determiner 5 2) [Toy.star 1 d361 (Py.Fin 1)] Toy.quiet [].

(** A negative base size, with bounds that admit it, and one star of
    semi-major axis 1. *)
Definition negative : PcaPsfDeterminer :=
  {| _nonLinearSpatialFit := false; _nEigenComponents := 2; _spatialOrder := 1;
     _sizeCellX := 256; _sizeCellY := 256; _nStarPerCell := 0;
     _kernelSize := -3; _kernelSizeMin := -9; _kernelSizeMax := 99;
     _borderWidth := 3; _nStarPerCellSpatialFit := 0; _constantWeight := true;
     _tolerance := 1 # 100; _lambda := 1 # 2; _reducedChi2ForPsfCandidates := 2;
     _nIterForPsf := 2; _spatialReject := 3 |}.

Definition negativeWorld : World unit :=
  Toy.world negative [Toy.star 1 1 (Py.Fin 1)] Toy.quiet [].

End Runs.

Example numBad_10_5 :
  map (fun i => numBad 10 i 5) (Py.range 5) = [2; 4; 6; 8; 10].
Proof. reflexivity. Qed.

Example median_149 : Py.np_median [1; 4; 9]%Q = 4%Q.
Proof. reflexivity. Qed.

Example median_1423 : (Py.np_median [1; 4; 2; 3] == 5 # 2)%Q.
Proof. reflexivity. Qed.


(** * Properties *)

(** ** Python numerics *)

Lemma Py_int_floor (x : Q) : (0 <= x)%Q -> Py.int x = Qfloor x.
Proof.
  destruct x as [n d]. unfold Qle, Py.int, Qfloor. simpl. intros H.
  apply Z.quot_div_nonneg; lia.
Qed.

Lemma Py_int_half (n : Z) : 0 <= n -> Py.int (inject_Z n + (1 # 2)) = n.
Proof.
  intros H. unfold Py.int, Qplus, inject_Z. simpl.
  rewrite Z.quot_div_nonneg by lia.
  symmetry. apply (Z.div_unique_pos _ _ _ 1); lia.
Qed.

Lemma numBad_floor (P iter K : Z) :
  0 <= P -> 0 <= iter -> 0 < K -> numBad P iter K = P * (iter + 1) / K.
Proof.
  intros HP Hi HK. unfold numBad. apply Py_int_half.
  apply Z.div_pos; nia.
Qed.



(** ** Sorting *)

Section Sorting.
Context {A : Type} (before : A -> A -> bool).

Lemma insert_by_perm (x : A) (l : list A) :
  Permutation (Py.insert_by before x l) (x :: l).
Proof.
  induction l as [|y l IH]; simpl.
  - reflexivity.
  - destruct (before y x).
    + rewrite IH. apply perm_swap.
    + reflexivity.
Qed.

Lemma sort_by_perm (l : list A) : Permutation (Py.sort_by before l) l.
Proof.
  induction l as [|x l IH]; simpl.
  - reflexivity.
  - rewrite insert_by_perm. now constructor.
Qed.

Lemma sort_by_length (l : list A) :
  List.length (Py.sort_by before l) = List.length l.
Proof. apply Permutation_length, sort_by_perm. Qed.



(** Provided [before] is asymmetric, no element of the sorted list is
    directly followed by one that sorts strictly before it. *)
Hypothesis before_asym : forall x y, before x y = true -> before y x = false.

Lemma insert_by_sorted (x : A) (l : list A) :
  Sorted (fun a b => before b a = false) l ->
  Sorted (fun a b => before b a = false) (Py.insert_by before x l).
Proof.
  induction l as [|y l IH]; simpl; intros Hs.
  - repeat constructor.
  - destruct (before y x) eqn:Hyx.
    + apply Sorted_inv in Hs. destruct Hs as [Hs Hhd].
      constructor; [now apply IH|].
      destruct l as [|z l]; simpl.
      * constructor. now apply before_asym.
      * destruct (before z x) eqn:Hzx.
        -- constructor. now inversion Hhd.
        -- constructor. now apply before_asym.
    + constructor; [assumption|]. now constructor.
Qed.

Lemma sort_by_sorted (l : list A) :
  Sorted (fun a b => before b a = false) (Py.sort_by before l).
Proof.
  induction l as [|x l IH]; simpl.
  - constructor.
  - now apply insert_by_sorted.
Qed.

End Sorting.

Lemma Py_gtb_asym (x y : Q) : Py.gtb x y = true -> Py.gtb y x = false.
Proof.
  unfold Py.gtb, Py.ltb. rewrite !negb_true_iff, !negb_false_iff.
  intros H. apply Qle_bool_iff. destruct (Qlt_le_dec y x) as [Hlt|Hle].
  - now apply Qlt_le_weak.
  - apply Qle_bool_iff in Hle. congruence.
Qed.



(** ** The monad *)

Section Monad.
Context {Image : Type}.
Local Abbreviation World := (World Image).
Local Abbreviation M := (M Image).

Lemma bind_Ok {A B} (m : M A) (k : A -> M B) w b w' :
  bind m k w = (Ok b, w') ->
  exists a w1, m w = (Ok a, w1) /\ k a w1 = (Ok b, w').
Proof.
  unfold bind. destruct (m w) as [[a|e] w1]; intros H.
  - now exists a, w1.
  - discriminate.
Qed.

Lemma bind_step {A B} (m : M A) (k : A -> M B) w a w1 :
  m w = (Ok a, w1) -> bind m k w = k a w1.
Proof. unfold bind. now intros ->. Qed.

Lemma bind_raise {A B} (m : M A) (k : A -> M B) w e w1 :
  m w = (Raise e, w1) -> bind m k w = (Raise e, w1).
Proof. unfold bind. now intros ->. Qed.

Section Sat.
Variable R : World -> World -> Prop.
Hypothesis R_refl : forall w, R w w.
Hypothesis R_trans : forall w1 w2 w3, R w1 w2 -> R w2 w3 -> R w1 w3.

Lemma sat_ret {A} (a : A) : sat R (ret a).
Proof. intros w. simpl. split; [apply R_refl | discriminate]. Qed.

Lemma sat_get : sat R get.
Proof. intros w. simpl. split; [apply R_refl | discriminate]. Qed.

Lemma sat_raise {A} (e : Exn) : benign e -> sat R (@raise Image A e).
Proof.
  intros He w. simpl. split; [apply R_refl |]. now intros e' [= <-].
Qed.

Lemma sat_bind {A B} (m : M A) (k : A -> M B) :
  sat R m -> (forall a, sat R (k a)) -> sat R (bind m k).
Proof.
  intros Hm Hk w. unfold bind. destruct (Hm w) as [H1 H2].
  destruct (m w) as [[a|e] w1]; simpl in *.
  - destruct (Hk a w1) as [H3 H4]. split; [eapply R_trans; eauto | exact H4].
  - split; [exact H1 |]. intros e' [= <-]. now apply H2.
Qed.

Lemma sat_forEach {A} (l : list A) (body : A -> M unit) :
  (forall x, sat R (body x)) -> sat R (forEach l body).
Proof.
  intros Hb. induction l as [|x l IH]; simpl.
  - apply sat_ret.
  - apply sat_bind; [apply Hb | intros _; exact IH].
Qed.

Lemma sat_mapM {A B} (f : A -> M B) (l : list A) :
  (forall x, sat R (f x)) -> sat R (mapM f l).
Proof.
  intros Hf. induction l as [|x l IH]; simpl.
  - apply sat_ret.
  - apply sat_bind; [apply Hf | intros y].
    apply sat_bind; [exact IH | intros ys; apply sat_ret].
Qed.

End Sat.

Lemma sat_weaken {A} (R R' : World -> World -> Prop) (m : M A) :
  (forall w w', R w w' -> R' w w') -> sat R m -> sat R' m.
Proof. intros H Hm w. destruct (Hm w). split; auto. Qed.

(** *** The relations are preorders *)

Lemma Same_trans (w1 w2 w3 : World) : w2 = w1 -> w3 = w2 -> w3 = w1.
Proof. congruence. Qed.

Lemma Quiet_refl (w : World) : Quiet w w.
Proof. unfold Quiet. tauto. Qed.

Lemma Quiet_trans (w1 w2 w3 : World) : Quiet w1 w2 -> Quiet w2 w3 -> Quiet w1 w3.
Proof. unfold Quiet. intuition congruence. Qed.

Lemma Steady_refl P (w : World) : Steady P w w.
Proof.
  unfold Steady. repeat split. exists []. now rewrite app_nil_r.
Qed.

Lemma Steady_trans P (w1 w2 w3 : World) :
  Steady P w1 w2 -> Steady P w2 w3 -> Steady P w1 w3.
Proof.
  intros (S1 & D1 & W1 & H1 & e1 & T1 & F1) (S2 & D2 & W2 & H2 & e2 & T2 & F2).
  unfold Steady. repeat split; try congruence.
  exists (e1 ++ e2). rewrite T2, T1, app_assoc. split; [reflexivity|].
  rewrite forallb_app, F1, F2. reflexivity.
Qed.

Lemma Steady_mono (P P' : Event -> bool) (w w' : World) :
  (forall e, P e = true -> P' e = true) -> Steady P w w' -> Steady P' w w'.
Proof.
  intros HP (S1 & D1 & W1 & H1 & e1 & T1 & F1). unfold Steady.
  repeat split; try assumption. exists e1. split; [assumption|].
  rewrite forallb_forall in *. auto.
Qed.

Lemma Same_Quiet (w w' : World) : w' = w -> Quiet w w'.
Proof. intros ->. apply Quiet_refl. Qed.

Lemma Quiet_Steady P (w w' : World) : Quiet w w' -> Steady P w w'.
Proof.
  intros (S1 & D1 & W1 & H1 & T1 & _). unfold Steady. repeat split; try assumption.
  exists []. now rewrite app_nil_r.
Qed.

Lemma Fitted_Steady (w w' : World) : Fitted w w' -> Steady isFitPsf w w'.
Proof.
  intros (S1 & D1 & W1 & H1 & T1 & _). unfold Steady.
  repeat split; try assumption. eexists. split; [exact T1 | reflexivity].
Qed.

Lemma Fitted_Quiet (w w1 w2 : World) : Fitted w w1 -> Quiet w1 w2 -> Fitted w w2.
Proof. unfold Fitted, Quiet. intuition congruence. Qed.

End Monad.

(** ** The steps of a round, one by one *)

Section Steps.
Context {Image Kernel Exposure : Type}.
Variable ext : Externals Image Kernel Exposure.
Local Abbreviation World := (World Image).
Local Abbreviation M := (M Image).
Local Abbreviation Same := (fun w w' : World => w' = w).

Lemma fitCount_app (t1 t2 : list Event) :
  fitCount (t1 ++ t2) = (fitCount t1 + fitCount t2)%nat.
Proof. unfold fitCount. now rewrite filter_app, length_app. Qed.

Lemma fitCount_none (evs : list Event) :
  forallb (fun e => negb (isFitPsf e)) evs = true -> fitCount evs = O.
Proof.
  unfold fitCount. induction evs as [|e evs IH]; simpl; [reflexivity|].
  rewrite andb_true_iff. intros [He Hr]. destruct (isFitPsf e); [discriminate|].
  now apply IH.
Qed.

Lemma statuses_updNth (c : nat) (f : @PsfCandidate Image -> PsfCandidate)
  (l : list PsfCandidate) :
  (forall x, getStatus (f x) = getStatus x) ->
  map getStatus (updNth c f l) = map getStatus l.
Proof.
  intros Hf. revert c. induction l as [|x l IH]; intros [|c]; simpl;
    try reflexivity.
  - now rewrite Hf.
  - now rewrite IH.
Qed.

Lemma map_snd_combine_seq {A} (l : list A) (s : nat) :
  map snd (combine (seq s (List.length l)) l) = l.
Proof.
  revert s. induction l as [|x l IH]; intros s; simpl; [reflexivity|].
  now rewrite IH.
Qed.

Lemma statuses_applyChi2 f (h : @Heap Image) :
  statuses (applyChi2 f h) = statuses h.
Proof.
  unfold statuses, applyChi2. simpl. rewrite map_map. simpl.
  rewrite <- (map_map snd getStatus). now rewrite map_snd_combine_seq.
Qed.

(** *** [setStatus] over a list *)

Lemma forEach_setStatus (s : Status) (l : list CandRef) (w : World) :
  forEach l (setStatus s) w =
  (Ok tt, {| self := self w; heap := markAll s l (heap w); debug := debug w;
             stdin := stdin w;
             trace := trace w ++ map (fun c => EvSetStatus c s) l |}).
Proof.
  revert w. induction l as [|c l IH]; intros w.
  - destruct w. simpl. now rewrite app_nil_r.
  - simpl. unfold bind at 1. unfold setStatus at 1, bind, emit, modifyHeap. simpl.
    rewrite IH. simpl. now rewrite <- app_assoc.
Qed.

Lemma markAll_stamp (s : Status) (l : list CandRef) (h : @Heap Image) :
  stampWidth (markAll s l h) = stampWidth h /\
  stampHeight (markAll s l h) = stampHeight h.
Proof.
  unfold markAll. revert h. induction l as [|c l IH]; intros h; simpl.
  - now split.
  - destruct (IH (updCand c (setStatus_ s) h)) as [-> ->]. now split.
Qed.

Section SetStatus.
Variable P : Event -> bool.
Variable s : Status.
Hypothesis P_s : forall c, P (EvSetStatus c s) = true.

Lemma forallb_map_setStatus (l : list CandRef) :
  forallb P (map (fun c => EvSetStatus c s) l) = true.
Proof. induction l; simpl; [reflexivity|]. now rewrite P_s. Qed.

Lemma forEach_setStatus_steady (l : list CandRef) :
  sat (Image:=Image) (Steady P) (forEach l (setStatus s)).
Proof.
  intros w. rewrite forEach_setStatus. simpl. split; [|discriminate].
  destruct (markAll_stamp s l (heap w)) as [Hw Hh].
  unfold Steady. simpl. repeat split; try assumption.
  eexists. split; [reflexivity | apply forallb_map_setStatus].
Qed.

End SetStatus.

Section Clipping.
Variable P : Event -> bool.
Hypothesis P_bad : forall c, P (EvSetStatus c BAD) = true.

Lemma chi2Clip_steady (cs : SpatialCellSet) (iter : Z) :
  sat (Image:=Image) (Steady P) (chi2Clip cs iter).
Proof.
  unfold chi2Clip. apply (sat_bind _ (Steady_trans _)).
  - apply sat_get, Steady_refl.
  - intros w. now apply forEach_setStatus_steady.
Qed.

(** *** The spatial residuals change nothing *)

Lemma residualRow_same (amp : Q) (params predict : list Q) :
  sat (Image:=Image) Same (residualRow amp params predict).
Proof.
  unfold residualRow. apply sat_mapM; try congruence.
  intros ap. destruct (Qeq_bool amp 0).
  - apply sat_raise; [reflexivity | now left].
  - now apply sat_ret.
Qed.

Lemma candidateResiduals_same (kernel : Kernel) cand (im : Image) :
  sat Same (candidateResiduals ext kernel cand im).
Proof.
  unfold candidateResiduals.
  destruct (fitKernelParamsToImage ext kernel im _ _) as [params kernels].
  apply residualRow_same.
Qed.

Lemma spatialResiduals_same (kernel : Kernel) (cands : list CandRef) :
  sat Same (spatialResiduals ext kernel cands).
Proof.
  induction cands as [|c cands IH]; simpl.
  - now apply sat_ret.
  - apply sat_bind; [congruence | now apply sat_get |]. intros w.
    destruct (getImage _ _ _) as [im|]; [|exact IH].
    apply sat_bind; [congruence | apply candidateResiduals_same |]. intros row.
    apply sat_bind; [congruence | exact IH |]. intros rc. now apply sat_ret.
Qed.

Lemma spatialClipComponent_steady residuals candidates iter k :
  sat (Image:=Image) (Steady P)
      (spatialClipComponent ext residuals candidates iter k).
Proof.
  unfold spatialClipComponent. destruct (column residuals k) as [col|].
  - apply (sat_bind _ (Steady_trans _)).
    + apply sat_get, Steady_refl.
    + intros w. now apply forEach_setStatus_steady.
  - apply sat_raise; [apply Steady_refl | now right].
Qed.

Lemma spatialClip_steady (psf : Psf) (cs : SpatialCellSet) (iter : Z) :
  sat (Image:=Image) (Steady P) (spatialClip ext psf cs iter).
Proof.
  unfold spatialClip. apply (sat_bind _ (Steady_trans _)).
  - apply sat_get, Steady_refl.
  - intros w. apply (sat_bind _ (Steady_trans _)).
    + eapply sat_weaken; [|apply spatialResiduals_same].
      intros w1 w2 ->. apply Steady_refl.
    + intros rc. apply sat_forEach;
        [apply Steady_refl | apply Steady_trans |].
      intros k. apply spatialClipComponent_steady.
Qed.

End Clipping.

(** *** The prompt *)

Lemma promptLoop_benign input loc e rest :
  promptLoop input loc = PromptRaised e rest -> benign e.
Proof.
  revert loc. induction input as [|line input IH]; intros loc; simpl.
  - discriminate.
  - destruct (recognised _); [|apply IH].
    destruct (promptStep _ _ _) as [[loc'|e']|] eqn:Hs; [discriminate | | apply IH].
    intros [= <- <-]. unfold promptStep in Hs.
    repeat match type of Hs with
           | (if ?b then _ else _) = _ => destruct b; try discriminate
           end.
    destruct line as [|r [|a args]]; try discriminate; injection Hs as <-; now right.
Qed.

Lemma prompt_quiet (loc : Locals) : sat (Image:=Image) Quiet (prompt loc).
Proof.
  intros w. unfold prompt, bind, get, putStdin, ret, raise.
  destruct (promptLoop (stdin w) loc) as [loc' rest|e rest] eqn:Hp; simpl.
  - split; [unfold Quiet; simpl; tauto | discriminate].
  - split; [unfold Quiet; simpl; tauto |].
    intros e' [= <-]. eapply promptLoop_benign; eauto.
Qed.

Lemma interact_quiet (loc : Locals) : sat (Image:=Image) Quiet (interact loc).
Proof.
  unfold interact. apply (sat_bind _ Quiet_trans).
  - apply sat_get, Quiet_refl.
  - intros w. destruct (_ && _); [|apply sat_ret, Quiet_refl].
    destruct (pause loc); [|apply sat_ret, Quiet_refl].
    apply (sat_bind _ Quiet_trans); [apply prompt_quiet|].
    intros loc'. destruct (String.eqb _ _); apply sat_ret, Quiet_refl.
Qed.

Lemma interact_off (loc : Locals) (w : World) :
  promptOff loc w -> interact loc w = (Ok (loc, false), w).
Proof.
  unfold promptOff, interact, bind, get. simpl. intros [H|H].
  - rewrite H. reflexivity.
  - rewrite H, andb_false_r. reflexivity.
Qed.

(** *** The star counts *)

Lemma markPsfStar_quiet (c : CandRef) : sat (Image:=Image) Quiet (markPsfStar ext c).
Proof.
  intros w. unfold markPsfStar, modifyHeap. simpl. split; [|discriminate].
  unfold Quiet. simpl. repeat split.
  unfold statuses. simpl. now apply statuses_updNth.
Qed.

Lemma finalize_quiet cs fitChi2 sd : sat (Image:=Image) Quiet (finalize ext cs fitChi2 sd).
Proof.
  unfold finalize. apply (sat_bind _ Quiet_trans).
  - apply sat_get, Quiet_refl.
  - intros w. apply (sat_bind _ Quiet_trans).
    + apply sat_forEach; [apply Quiet_refl | apply Quiet_trans |].
      apply markPsfStar_quiet.
    + intros _. apply sat_ret, Quiet_refl.
Qed.

(** *** [_fitPsf] *)

Lemma applyChi2_quiet f : sat (Image:=Image) Quiet (modifyHeap (applyChi2 f)).
Proof.
  intros w. unfold modifyHeap. simpl. split; [|discriminate].
  unfold Quiet. simpl. repeat split. apply statuses_applyChi2.
Qed.

Lemma fitPsf_fitted (exposure : Exposure) (cs : SpatialCellSet) (w : World) :
  Fitted w (snd (_fitPsf ext exposure cs w)) /\
  (forall e, fst (_fitPsf ext exposure cs w) = Raise e -> benign e).
Proof.
  unfold _fitPsf, bind at 1, get at 1. unfold bind at 1, emit at 1.
  match goal with
  | |- Fitted _ (snd (?m ?w0)) /\ _ =>
      assert (Hm : sat Quiet m); [| destruct (Hm w0) as [Hq Hb]; split; [|exact Hb];
                                     eapply Fitted_Quiet; [|exact Hq] ]
  end.
  - destruct (createKernelFromPsfCandidates ext _ _ _ _ _ _ _ _) as [[kernel ev] c1].
    apply (sat_bind _ Quiet_trans); [apply applyChi2_quiet | intros _].
    apply (sat_bind _ Quiet_trans); [apply sat_get, Quiet_refl | intros w1].
    apply (sat_bind _ Quiet_trans).
    + apply sat_mapM; [apply Quiet_refl | apply Quiet_trans |].
      intros l. destruct (_ =? 0).
      * apply sat_raise; [apply Quiet_refl | now left].
      * apply sat_ret, Quiet_refl.
    + intros ev'.
      destruct (fitSpatialKernelFromPsfCandidates ext _ _ _ _ _ _ _) as [[st chi2] c2].
      apply (sat_bind _ Quiet_trans); [apply applyChi2_quiet | intros _].
      apply sat_ret, Quiet_refl.
  - unfold Fitted. simpl. tauto.
Qed.

(** *** The preparation *)

Lemma populate_eq (l : list CandRef) (cs : SpatialCellSet) (w : World) :
  populate ext l cs w =
  (Ok (fold_left (insertCandidate ext (heap w)) l cs),
   {| self := self w; heap := heap w; debug := debug w; stdin := stdin w;
      trace := trace w ++ map EvInsertCandidate l |}).
Proof.
  revert cs w. induction l as [|c l IH]; intros cs w.
  - destruct w. simpl. now rewrite app_nil_r.
  - simpl. unfold bind at 1, get at 1. unfold bind at 1, emit at 1.
    rewrite IH. simpl. now rewrite <- app_assoc.
Qed.

Lemma prepare_nonempty (exposure : Exposure) (l : list CandRef) (w : World) :
  l <> [] ->
  exists cs, prepare ext exposure l w =
             (Ok (cs, initialLocals (debug w)), preparedWorld ext l w).
Proof.
  intros Hl. destruct l as [|c l]; [congruence|].
  unfold prepare, bind at 1, get at 1.
  cbn [List.length Nat.eqb]. unfold bind at 1. rewrite populate_eq.
  eexists. unfold preparedWorld, initialLocals.
  cbv [bind modifySelf get setHeight setWidth emit modifyHeap ret].
  cbn [self heap debug stdin trace candidates stampWidth stampHeight
       _kernelSize set_kernelSize].
  rewrite <- !app_assoc. reflexivity.
Qed.

(** *** One round *)

Lemma cellCandidates_all (h : @Heap Image) (cs : SpatialCellSet) :
  cellCandidates h cs false = List.concat cs.
Proof.
  unfold cellCandidates, begin. induction cs as [|c cs IH]; simpl; [reflexivity|].
  now rewrite IH.
Qed.

Lemma psfIteration_raise exposure cs iter loc w e w1 :
  _fitPsf ext exposure cs w = (Raise e, w1) ->
  psfIteration ext exposure cs iter loc w = (Raise e, w1).
Proof. intros H. unfold psfIteration. now apply bind_raise. Qed.

(** After a successful fit the round resets every candidate of the cell set
    and then only marks candidates BAD. *)
Lemma psfIteration_Ok exposure cs iter loc w fit w1 :
  _fitPsf ext exposure cs w = (Ok fit, w1) ->
  let r := psfIteration ext exposure cs iter loc w in
  self (snd r) = self w1 /\ debug (snd r) = debug w1 /\
  stampWidth (heap (snd r)) = stampWidth (heap w1) /\
  stampHeight (heap (snd r)) = stampHeight (heap w1) /\
  (exists evs, trace (snd r) =
               trace w1 ++ map (fun c => EvSetStatus c UNKNOWN) (List.concat cs) ++ evs /\
               forallb isSetBad evs = true) /\
  (forall e, fst r = Raise e -> benign e) /\
  (promptOff loc w1 -> forall x, fst r = Ok x -> x = (loc, false)).
Proof.
  intros Hfit r. subst r.
  pose (w2 := {| self := self w1;
                 heap := markAll UNKNOWN (List.concat cs) (heap w1);
                 debug := debug w1; stdin := stdin w1;
                 trace := trace w1 ++
                          map (fun c => EvSetStatus c UNKNOWN) (List.concat cs) |}).
  assert (Heq : psfIteration ext exposure cs iter loc w =
                bind (chi2Clip cs iter) (fun _ =>
                bind (spatialClip ext (fst (fst fit)) cs iter) (fun _ =>
                interact loc)) w2).
  { unfold psfIteration. rewrite (bind_step _ _ _ _ _ Hfit).
    unfold resetStatus. unfold bind at 1, get at 1. unfold bind at 1.
    rewrite forEach_setStatus, cellCandidates_all. reflexivity. }
  rewrite Heq. clear Heq.
  destruct (markAll_stamp UNKNOWN (List.concat cs) (heap w1)) as [Hsw Hsh].
  assert (Hc : sat (Image:=Image) (Steady isSetBad) (chi2Clip cs iter))
    by now apply chi2Clip_steady.
  assert (Hs : sat (Image:=Image) (Steady isSetBad)
                   (spatialClip ext (fst (fst fit)) cs iter))
    by now apply spatialClip_steady.
  pose proof (interact_quiet loc) as Hi.
  assert (Ht : sat (Steady isSetBad)
                 (bind (chi2Clip cs iter) (fun _ =>
                  bind (spatialClip ext (fst (fst fit)) cs iter) (fun _ =>
                  interact loc)))).
  { apply (sat_bind _ (Steady_trans _)); [exact Hc | intros _].
    apply (sat_bind _ (Steady_trans _)); [exact Hs | intros _].
    eapply sat_weaken; [|exact Hi]. intros ? ?. apply Quiet_Steady. }
  destruct (Ht w2) as [(S1 & D1 & W1 & H1 & evs & T1 & F1) Hb].
  split; [exact S1|]. split; [exact D1|].
  split; [rewrite W1; exact Hsw|]. split; [rewrite H1; exact Hsh|].
  split; [|split; [exact Hb|]].
  - exists evs. split; [|exact F1]. rewrite T1. unfold w2. simpl.
    now rewrite <- app_assoc.
  - intros Hoff x Hx.
    match type of Hx with fst (?m w2) = _ => destruct (m w2) as [rx wx] eqn:Hrun end.
    simpl in Hx. subst rx.
    apply bind_Ok in Hrun. destruct Hrun as (u1 & w3 & Hr1 & Hrun).
    apply bind_Ok in Hrun. destruct Hrun as (u2 & w4 & Hr2 & Hrun).
    destruct (Hc w2) as [(_ & D3 & _) _]. rewrite Hr1 in D3. simpl in D3.
    destruct (Hs w3) as [(_ & D4 & _) _]. rewrite Hr2 in D4. simpl in D4.
    rewrite interact_off in Hrun; [congruence|].
    unfold promptOff in *. rewrite D4, D3. exact Hoff.
Qed.

Lemma isSetBad_notFit (evs : list Event) :
  forallb isSetBad evs = true -> forallb (fun e => negb (isFitPsf e)) evs = true.
Proof.
  rewrite !forallb_forall. intros H e He. specialize (H e He). now destruct e.
Qed.

Lemma setUnknown_notFit (l : list CandRef) :
  forallb (fun e => negb (isFitPsf e)) (map (fun c => EvSetStatus c UNKNOWN) l) = true.
Proof. induction l; simpl; auto. Qed.

Lemma notFit_inLoop (evs : list Event) :
  forallb isSetStatus evs = true -> forallb inLoop evs = true.
Proof.
  rewrite !forallb_forall. intros H e He. unfold inLoop. rewrite (H e He).
  apply orb_true_r.
Qed.

(** Every round starts with the call of [_fitPsf], on the statuses as the
    round finds them, and calls it once. *)
Lemma psfIteration_round exposure cs iter loc w :
  let r := psfIteration ext exposure cs iter loc w in
  self (snd r) = self w /\ debug (snd r) = debug w /\
  stampWidth (heap (snd r)) = stampWidth (heap w) /\
  stampHeight (heap (snd r)) = stampHeight (heap w) /\
  (exists evs, trace (snd r) = trace w ++ EvFitPsf (statuses (heap w)) :: evs /\
               forallb isSetStatus evs = true) /\
  (forall e, fst r = Raise e -> benign e) /\
  (promptOff loc w -> forall x, fst r = Ok x -> x = (loc, false)).
Proof.
  intros r. subst r.
  destruct (fitPsf_fitted exposure cs w) as [Hf Hb].
  destruct (_fitPsf ext exposure cs w) as [[fit|e] w1] eqn:Hfit; simpl in Hf, Hb.
  - destruct Hf as (S1 & D1 & W1 & H1 & T1 & St1).
    destruct (psfIteration_Ok exposure cs iter loc w fit w1 Hfit)
      as (S2 & D2 & W2 & H2 & (evs & T2 & F2) & Hb2 & Hoff).
    split; [congruence|]. split; [congruence|]. split; [congruence|].
    split; [congruence|]. split; [|split; [exact Hb2|]].
    + eexists. split.
      * rewrite T2, T1, <- app_assoc. reflexivity.
      * rewrite forallb_app. apply andb_true_iff. split.
        -- now apply forallb_map_setStatus.
        -- rewrite forallb_forall in *. intros e He. specialize (F2 e He).
           now destruct e.
    + intros Ho. apply Hoff. unfold promptOff in *. now rewrite D1.
  - rewrite (psfIteration_raise exposure cs iter loc w e w1 Hfit). simpl.
    destruct Hf as (S1 & D1 & W1 & H1 & T1 & St1).
    split; [congruence|]. split; [congruence|]. split; [congruence|].
    split; [congruence|]. split; [|split].
    + exists []. split; [exact T1 | reflexivity].
    + intros e' [= <-]. now apply Hb.
    + intros _ x Hx. discriminate.
Qed.

Lemma fitCount_round (tr : list Event) (sts : list Status) (evs : list Event) :
  forallb isSetStatus evs = true ->
  fitCount (tr ++ EvFitPsf sts :: evs) = S (fitCount tr).
Proof.
  intros H. rewrite fitCount_app.
  change (fitCount (EvFitPsf sts :: evs)) with (S (fitCount evs)).
  rewrite (fitCount_none evs); [apply Nat.add_1_r|].
  rewrite forallb_forall in *. intros e He. specialize (H e He). now destruct e.
Qed.

(** *** The loop *)

Lemma forIter_spec exposure cs (iters : list Z) : forall loc w,
  let r := forIter iters (psfIteration ext exposure cs) loc w in
  Steady inLoop w (snd r) /\
  (forall e, fst r = Raise e -> benign e) /\
  (fitCount (trace (snd r)) <= fitCount (trace w) + List.length iters)%nat /\
  (promptOff loc w -> forall loc', fst r = Ok loc' ->
   fitCount (trace (snd r)) = (fitCount (trace w) + List.length iters)%nat).
Proof.
  induction iters as [|iter iters IH]; intros loc w r; subst r.
  - simpl. split; [apply Steady_refl|]. split; [discriminate|].
    split; [lia|]. intros _ loc' _. lia.
  - cbn [forIter]. unfold bind.
    destruct (psfIteration_round exposure cs iter loc w)
      as (S1 & D1 & W1 & H1 & (evs & T1 & F1) & Hb & Hoff).
    assert (Hst : Steady inLoop w (snd (psfIteration ext exposure cs iter loc w))).
    { unfold Steady. repeat (split; [assumption|]).
      eexists. split; [exact T1|]. simpl. now apply notFit_inLoop. }
    assert (Hcount : fitCount (trace (snd (psfIteration ext exposure cs iter loc w)))
                     = S (fitCount (trace w))).
    { rewrite T1. now apply fitCount_round. }
    destruct (psfIteration ext exposure cs iter loc w) as [[[loc1 brk]|e] w1];
      cbn [fst snd] in *.
    + destruct brk; cbn [fst snd].
      * simpl. split; [exact Hst|]. split; [discriminate|].
        split; [lia|]. intros Ho. specialize (Hoff Ho _ eq_refl). discriminate.
      * destruct (IH loc1 w1) as (Hst2 & Hb2 & Hle & Heq).
        split; [eapply Steady_trans; eauto|]. split; [exact Hb2|].
        split; [simpl; lia|]. intros Ho loc' Hr.
        specialize (Hoff Ho _ eq_refl). injection Hoff as ->.
        rewrite Heq with (loc' := loc'); [simpl; lia| |exact Hr].
        unfold promptOff in *. now rewrite D1.
    + simpl. split; [exact Hst|].
      split; [intros e' [= <-]; now apply Hb|]. split; [lia|].
      intros _ loc' Hr. discriminate.
Qed.

Lemma range_length (n : Z) : List.length (Py.range n) = Z.to_nat n.
Proof. unfold Py.range. now rewrite length_map, length_seq. Qed.

Lemma fitLoop_eq exposure l w :
  l <> [] ->
  exists cs,
    fitLoop ext exposure l w =
    bind (forIter (Py.range (_nIterForPsf (self w))) (psfIteration ext exposure cs)
                  (initialLocals (debug w)))
         (fun _ => ret cs) (preparedWorld ext l w).
Proof.
  intros Hl. destruct (prepare_nonempty exposure l w Hl) as [cs Hp].
  exists cs. unfold fitLoop. rewrite (bind_step _ _ _ _ _ Hp). reflexivity.
Qed.

(** From the prepared world on, the loop keeps the determiner and the stamp
    size and only fits and sets statuses. *)
Lemma fitLoop_spec exposure l w :
  l <> [] ->
  let r := fitLoop ext exposure l w in
  let K := Z.to_nat (_nIterForPsf (self w)) in
  Steady inLoop (preparedWorld ext l w) (snd r) /\
  (forall e, fst r = Raise e -> benign e) /\
  (fitCount (trace (snd r)) <= fitCount (trace w) + K)%nat /\
  (fitCount (trace w) <= fitCount (trace (snd r)))%nat /\
  (promptOff (initialLocals (debug w)) w -> forall cs, fst r = Ok cs ->
   fitCount (trace (snd r)) = (fitCount (trace w) + K)%nat).
Proof.
  intros Hl r K. subst r K. destruct (fitLoop_eq exposure l w Hl) as [cs ->].
  destruct (forIter_spec exposure cs (Py.range (_nIterForPsf (self w)))
              (initialLocals (debug w)) (preparedWorld ext l w))
    as (Hst & Hb & Hle & Heq).
  rewrite range_length in Hle, Heq.
  assert (Hprep : fitCount (trace (preparedWorld ext l w)) = fitCount (trace w)).
  { unfold preparedWorld. simpl. rewrite !fitCount_app.
    assert (H0 : fitCount (map EvInsertCandidate l) = O).
    { apply fitCount_none. clear. induction l; simpl; auto. }
    rewrite H0. unfold fitCount. simpl. lia. }
  rewrite Hprep in Hle, Heq.
  assert (Hge : (fitCount (trace (preparedWorld ext l w)) <=
                 fitCount (trace (snd (forIter (Py.range (_nIterForPsf (self w)))
                                         (psfIteration ext exposure cs)
                                         (initialLocals (debug w))
                                         (preparedWorld ext l w)))))%nat).
  { destruct Hst as (_ & _ & _ & _ & evs & -> & _). rewrite fitCount_app. lia. }
  rewrite Hprep in Hge.
  unfold bind.
  destruct (forIter _ _ _ _) as [[loc'|e] w1]; cbn [fst snd] in *.
  - split; [exact Hst|]. split; [discriminate|]. split; [exact Hle|].
    split; [exact Hge|]. intros Ho cs' _. now apply (Heq Ho loc').
  - split; [exact Hst|]. split; [intros e' [= <-]; now apply Hb|].
    split; [exact Hle|]. split; [exact Hge|]. intros _ cs' Hr. discriminate.
Qed.

(** The whole call, from the prepared world on. *)
Lemma determinePsf_run exposure l sd w r w' :
  l <> [] ->
  determinePsf ext exposure l sd w = (r, w') ->
  Steady inLoop (preparedWorld ext l w) w' /\
  (forall e, r = Raise e -> benign e).
Proof.
  intros Hl Hrun. unfold determinePsf, bind in Hrun.
  destruct (fitLoop_spec exposure l w Hl) as (Hst & Hb & _).
  assert (Hfs : forall w1 w2 : World, Fitted w1 w2 -> Steady inLoop w1 w2).
  { intros w1 w2 Hf. eapply Steady_mono; [|apply Fitted_Steady, Hf].
    intros e He. unfold inLoop. now rewrite He. }
  destruct (fitLoop ext exposure l w) as [[cs|e] w1]; cbn [fst snd] in *.
  - destruct (fitPsf_fitted exposure cs w1) as [Hf Hbf].
    destruct (_fitPsf ext exposure cs w1) as [[fit|e] w2]; cbn [fst snd] in *.
    + destruct (finalize_quiet cs (snd fit) sd w2) as [Hq Hbq].
      destruct (finalize ext cs (snd fit) sd w2) as [[ratings|e] w3];
        cbn [fst snd] in *.
      * unfold ret in Hrun. injection Hrun as <- <-. split; [|discriminate].
        eapply Steady_trans; [exact Hst|]. eapply Steady_trans; [exact (Hfs _ _ Hf)|].
        now apply Quiet_Steady.
      * injection Hrun as <- <-. split; [|intros e' [= <-]; now apply Hbq].
        eapply Steady_trans; [exact Hst|]. eapply Steady_trans; [exact (Hfs _ _ Hf)|].
        now apply Quiet_Steady.
    + injection Hrun as <- <-. split; [|intros e' [= <-]; now apply Hbf].
      eapply Steady_trans; [exact Hst|]. exact (Hfs _ _ Hf).
  - injection Hrun as <- <-. split; [exact Hst|]. intros e' [= <-]. now apply Hb.
Qed.

(** *** The residuals *)

Lemma residualRow_Ok amp params predict (w : World) row w' :
  residualRow amp params predict w = (Ok row, w') ->
  w' = w /\
  row = map (fun ap => (fst ap / amp - snd ap)%Q) (combine params predict) /\
  (row <> [] -> Qeq_bool amp 0 = false).
Proof.
  unfold residualRow. generalize (combine params predict) as l.
  intros l. revert row w'. induction l as [|ap l IH]; intros row w'; simpl.
  - unfold ret. intros [= <- <-]. repeat split. congruence.
  - intros H. apply bind_Ok in H. destruct H as (y & w1 & Hy & H).
    apply bind_Ok in H. destruct H as (ys & w2 & Hys & H).
    unfold ret in H. injection H as <- <-.
    destruct (Qeq_bool amp 0) eqn:Ha; [discriminate|].
    unfold ret in Hy. injection Hy as <- <-.
    destruct (IH _ _ Hys) as (-> & -> & _). repeat split.
Qed.

Lemma spatialResiduals_scored (kernel : Kernel) (cands : list CandRef) (w : World)
  res scored w' :
  spatialResiduals ext kernel cands w = (Ok (res, scored), w') ->
  w' = w /\
  scored = filter (hasImage (heap w)) cands /\
  Forall2 (fun c row =>
             exists im,
               getImage (getCand (heap w) c) (stampWidth (heap w)) (stampHeight (heap w))
               = Some im /\
               candidateResiduals ext kernel (getCand (heap w) c) im w = (Ok row, w))
          scored res.
Proof.
  revert res scored w'. induction cands as [|c cands IH]; intros res scored w'.
  - simpl. unfold ret. intros [= <- <- <-]. repeat split. constructor.
  - cbn [spatialResiduals filter]. unfold bind at 1, get at 1. unfold hasImage at 1.
    destruct (getImage (getCand (heap w) c) _ _) as [im|] eqn:Him.
    + intros H. apply bind_Ok in H. destruct H as (row & w1 & Hrow & H).
      apply bind_Ok in H. destruct H as (rc & w2 & Hrc & H).
      unfold ret in H. injection H as <- <- <-.
      destruct (candidateResiduals_same kernel (getCand (heap w) c) im w) as [Hw _].
      rewrite Hrow in Hw. simpl in Hw. subst w1.
      destruct rc as [res' scored']. destruct (IH _ _ _ Hrc) as (-> & -> & HF).
      repeat split. constructor; [|exact HF]. exists im. now split.
    + apply IH.
Qed.

End Steps.

(** ** The claims *)

Section Claims.
Context {Image Kernel Exposure : Type}.
Variable ext : Externals Image Kernel Exposure.
Local Abbreviation World := (World Image).

Lemma zip_range_length {A} (n : Z) (l : list A) :
  0 <= n <= Z.of_nat (List.length l) ->
  Z.of_nat (List.length (Py.zip_range n l)) = n.
Proof.
  intros H. unfold Py.zip_range. rewrite length_firstn. lia.
Qed.

Lemma chi2Clip_eq (cs : SpatialCellSet) (iter : Z) (w : World) :
  chi2Clip cs iter w =
  (Ok tt, {| self := self w;
             heap := markAll BAD (chi2Marked (self w) (heap w) cs iter) (heap w);
             debug := debug w; stdin := stdin w;
             trace := trace w ++ map (fun c => EvSetStatus c BAD)
                                     (chi2Marked (self w) (heap w) cs iter) |}).
Proof.
  unfold chi2Clip, bind, get. apply forEach_setStatus.
Qed.



Lemma chi2Marked_in_pool (p : PcaPsfDeterminer) (h : @Heap Image) (cs : SpatialCellSet)
  (iter : Z) :
  incl (chi2Marked p h cs iter) (chi2Pool p h cs).
Proof.
  assert (Hf : forall (l : list CandRef) n c, In c (firstn n l) -> In c l).
  { intros l n. revert l. induction n as [|n IH]; intros [|x l] c; simpl; try tauto.
    intros [->|H]; [now left | right; now apply IH]. }
  intros c H. unfold chi2Marked, Py.zip_range in H. apply Hf in H.
  unfold chi2Sorted in H. exact (Permutation_in _ (sort_by_perm _ _) H).
Qed.


Lemma interact_reply_n (loc : Locals) (w : World) loc' rest :
  display loc <> 0 -> dbg_displayIterations (debug w) = true -> pause loc = true ->
  promptLoop (stdin w) loc = Prompted loc' rest -> reply loc' = "n"%string ->
  fst (interact loc w) = Ok (loc', true).
Proof.
  intros Hd Hi Hp Hl Hr. apply Z.eqb_neq in Hd.
  cbv [interact bind get prompt putStdin ret]. rewrite Hd, Hi, Hp. cbn [negb andb].
  rewrite Hl, Hr. reflexivity.
Qed.

(** C4 (as amended).  Every round calls [_fitPsf] first, on the candidate
    statuses as the round finds them (those that the previous round's
    rejections left); when the fit returns, the round then resets every
    candidate of the cell set to UNKNOWN, and after that only marks
    candidates BAD.  No second fit follows in the round. *)
Theorem fit_precedes_reset (exposure : Exposure) (cs : SpatialCellSet) (iter : Z)
  (loc : Locals) (w : World) :
  exists evs,
    trace (snd (psfIteration ext exposure cs iter loc w)) =
      trace w ++ EvFitPsf (statuses (heap w)) :: evs /\
    forallb (fun e => negb (isFitPsf e)) evs = true /\
    (forall fit w1, _fitPsf ext exposure cs w = (Ok fit, w1) ->
       exists evs', evs = map (fun c => EvSetStatus c UNKNOWN) (List.concat cs) ++ evs' /\
                    forallb isSetBad evs' = true).
Proof.
  destruct (fitPsf_fitted ext exposure cs w) as [Hf _].
  destruct (_fitPsf ext exposure cs w) as [[fit|e] w1] eqn:Hfit; simpl in Hf.
  - destruct Hf as (_ & _ & _ & _ & T1 & _).
    destruct (psfIteration_Ok ext exposure cs iter loc w fit w1 Hfit)
      as (_ & _ & _ & _ & (evs & T2 & F2) & _).
    exists (map (fun c => EvSetStatus c UNKNOWN) (List.concat cs) ++ evs).
    split; [rewrite T2, T1, <- app_assoc; reflexivity|]. split.
    + rewrite forallb_app, setUnknown_notFit. now apply isSetBad_notFit.
    + intros fit' w1' [= <- <-]. now exists evs.
  - rewrite (psfIteration_raise ext exposure cs iter loc w e w1 Hfit). simpl.
    destruct Hf as (_ & _ & _ & _ & T1 & _).
    exists []. split; [exact T1|]. split; [reflexivity|]. discriminate.
Qed.

Lemma Py_int_trunc (x : Q) :
  Py.int x = if Qle_bool 0 x then Qfloor x else Qceiling x.
Proof.
  destruct (Qle_bool 0 x) eqn:H.
  - apply Py_int_floor. now apply Qle_bool_iff.
  - destruct x as [n d]. unfold Qle_bool in H. simpl in H.
    apply Z.leb_gt in H. unfold Py.int, Qceiling, Qfloor, Qopp. simpl.
    replace n with (- (- n)) at 1 by lia.
    rewrite Z.quot_opp_l by lia. f_equal. apply Z.quot_div_nonneg; lia.
Qed.

Lemma fround_comp (x y : Q) : (x == y)%Q -> Py.fround x = Py.fround y.
Proof. intros H. unfold Py.fround. now rewrite (Qred_complete _ _ H). Qed.

Lemma np_median_medianOf (l : list Q) : medianOf l (Py.np_median l).
Proof.
  exists (Py.sort_by Py.ltb l). split; [apply sort_by_perm|]. split.
  - assert (H : Sorted (fun a b => Py.ltb b a = false) (Py.sort_by Py.ltb l)).
    { apply sort_by_sorted. intros x y. apply Py_gtb_asym. }
    induction H as [|a s Hs IH Hhd]; constructor; [exact IH|].
    destruct Hhd as [|b s' Hb]; constructor.
    unfold Py.ltb in Hb. apply negb_false_iff in Hb. now apply Qle_bool_iff.
  - cbv zeta. unfold Py.np_median. now rewrite sort_by_length.
Qed.

(** What lines 125-133 compute, with the truncation of [int()] written as a
    floor or a ceiling and the two [if]s as a clamp. *)
Lemma scaledKernelSize_eq (s : PcaPsfDeterminer) (sizes : list Q) :
  let x := Py.fadd (Py.fmul (Py.float_of_int (_kernelSize s))
                            (np_sqrt ext (Py.np_median sizes))) (1 # 2) in
  scaledKernelSize ext s sizes =
  if 15 <=? _kernelSize s then _kernelSize s
  else clamp (_kernelSizeMin s) (_kernelSizeMax s)
             (2 * (if Qle_bool 0 x then Qfloor x else Qceiling x) + 1).
Proof.
  intros x. unfold scaledKernelSize, clamp. rewrite Z.geb_leb.
  destruct (15 <=? _kernelSize s); [reflexivity|].
  fold x. rewrite Py_int_trunc.
  set (k := 2 * _ + 1). rewrite Z.gtb_ltb.
  destruct (Z.ltb_spec k (_kernelSizeMin s));
    match goal with
    | |- context [?a <? ?b] => destruct (Z.ltb_spec a b)
    end; lia.
Qed.

(** C5 (as amended).  For a non-empty candidate list the kernel size that the
    whole call uses (stored in [self._kernelSize] before the loop, set as
    stamp width and height, and unchanged to the end of the call) is the
    configured size itself when that is at least 15, and otherwise
    [2*int(x) + 1] clamped to [[kernelSizeMin, kernelSizeMax]], where [x] is
    the double [base * sqrt(median) + 0.5]: the product and the sum are each
    rounded to the nearest double, and [int()] truncates toward zero (a
    floor only for [x >= 0]).  The median is the middle one of the
    candidates' semi-major axes in ascending order, or the mean of the two
    middle ones.  Where the two double operations are exact and the sum is
    not negative, this is the [2*floor(base*sqrt(median) + 0.5) + 1] of the
    specification.  For axes [1, 4, 9], base 5, bounds 5 and 99 it is 21. *)
Theorem kernel_size_from_moments (exposure : Exposure) (l : list CandRef)
  (sd : option (list SdqaRating)) (w : World) :
  l <> [] ->
  let sizes := map (candidateSize ext (heap w)) l in
  let base := _kernelSize (self w) in
  let root := np_sqrt ext (Py.np_median sizes) in
  let x := Py.fadd (Py.fmul (Py.float_of_int base) root) (1 # 2) in
  let size := if 15 <=? base then base
              else clamp (_kernelSizeMin (self w)) (_kernelSizeMax (self w))
                         (2 * (if Qle_bool 0 x then Qfloor x else Qceiling x) + 1) in
  let w' := snd (determinePsf ext exposure l sd w) in
  (exists cs, prepare ext exposure l w =
              (Ok (cs, initialLocals (debug w)), preparedWorld ext l w)) /\
  _kernelSize (self (preparedWorld ext l w)) = size /\
  _kernelSize (self w') = size /\
  stampWidth (heap w') = size /\ stampHeight (heap w') = size /\
  medianOf sizes (Py.np_median sizes) /\
  (15 <= base -> size = base) /\
  ((x == inject_Z base * root + (1 # 2))%Q ->
   (0 <= inject_Z base * root + (1 # 2))%Q ->
   size = spec_kernelSize base (_kernelSizeMin (self w)) (_kernelSizeMax (self w)) root) /\
  (sizes = [1; 4; 9]%Q -> (np_sqrt ext 4 == 2)%Q ->
   base = 5 -> _kernelSizeMin (self w) = 5 -> _kernelSizeMax (self w) = 99 ->
   size = 21).
Proof.
  intros Hl sizes base root x size w'.
  assert (Hp : _kernelSize (self (preparedWorld ext l w)) = size).
  { unfold preparedWorld. simpl. apply scaledKernelSize_eq. }
  destruct (determinePsf ext exposure l sd w) as [r w1] eqn:Hrun.
  destruct (determinePsf_run ext exposure l sd w r w1 Hl Hrun)
    as [(S1 & _ & W1 & H1 & _) _].
  subst w'. cbn [snd].
  split; [now apply prepare_nonempty|]. split; [exact Hp|].
  split; [now rewrite S1|]. split; [rewrite W1, <- Hp; reflexivity|].
  split; [rewrite H1, <- Hp; reflexivity|].
  split; [apply np_median_medianOf|]. split; [|split].
  - intros H15. unfold size.
    destruct (Z.leb_spec 15 base); [reflexivity | lia].
  - intros Hx H0. unfold size, spec_kernelSize.
    destruct (15 <=? base); [reflexivity|].
    assert (H0x : Qle_bool 0 x = true) by (apply Qle_bool_iff; now rewrite Hx).
    rewrite H0x. now rewrite (Qfloor_comp _ _ Hx).
  - intros Hs Hsq H5 Hmin Hmax. unfold size. rewrite H5, Hmin, Hmax.
    assert (Hx : x = (21 # 2)%Q).
    { unfold x, root. rewrite H5. fold sizes. rewrite Hs.
      change (Py.np_median [1; 4; 9]%Q) with 4%Q. unfold Py.fadd, Py.fmul.
      assert (E : (Py.float_of_int 5 * np_sqrt ext 4 == Py.float_of_int 5 * 2)%Q)
        by (rewrite Hsq; reflexivity).
      rewrite (fround_comp _ _ E). reflexivity. }
    rewrite Hx. reflexivity.
Qed.

(** C6.  With an empty candidate list [determinePsf] raises at once the
    error "No PSF candidates supplied." (a [RuntimeError] in the code) and
    leaves the world as it was: no cell set, no event, no change to the
    determiner or to a candidate.  With a non-empty list this error is never
    raised. *)
Theorem empty_candidate_list_raises (exposure : Exposure)
  (sd : option (list SdqaRating)) (w : World) :
  determinePsf ext exposure [] sd w =
    (Raise (RuntimeError "No PSF candidates supplied."), w) /\
  (forall l, l <> [] ->
     forall msg, fst (determinePsf ext exposure l sd w) <> Raise (RuntimeError msg)).
Proof.
  split; [reflexivity|]. intros l Hl msg Hr.
  destruct (determinePsf ext exposure l sd w) as [r w1] eqn:Hrun.
  destruct (determinePsf_run ext exposure l sd w r w1 Hl Hrun) as [_ Hb].
  simpl in Hr. destruct (Hb _ Hr); discriminate.
Qed.

(** C7.  A call that returns has run the loop to its end, then called
    [_fitPsf] exactly once more, and returns the PSF of that call; after the
    loop the trace grows by this one fit and by nothing else, and the
    candidate statuses at the return are those the loop left, which are the
    ones this last fit saw. *)
Theorem final_fit_after_last_rejection (exposure : Exposure) (l : list CandRef)
  (sd : option (list SdqaRating)) (w : World) psf cs ratings w' :
  determinePsf ext exposure l sd w = (Ok (psf, cs, ratings), w') ->
  exists w1 eigenValues fitChi2 w2,
    fitLoop ext exposure l w = (Ok cs, w1) /\
    _fitPsf ext exposure cs w1 = (Ok (psf, eigenValues, fitChi2), w2) /\
    trace w' = trace w1 ++ [EvFitPsf (statuses (heap w1))] /\
    statuses (heap w') = statuses (heap w1).
Proof.
  intros H. unfold determinePsf in H.
  apply bind_Ok in H. destruct H as (cs' & w1 & Hloop & H).
  apply bind_Ok in H. destruct H as ([[psf' ev] chi2] & w2 & Hfit & H).
  apply bind_Ok in H. destruct H as (ratings' & w3 & Hfin & H).
  unfold ret in H. cbn [fst snd] in H. injection H as <- <- <- <-.
  destruct (fitPsf_fitted ext exposure cs' w1) as [Hf _]. rewrite Hfit in Hf.
  destruct (finalize_quiet ext cs' chi2 sd w2) as [Hq _].
  cbn [fst snd] in Hfin. rewrite Hfin in Hq. cbn [snd] in *.
  destruct Hf as (_ & _ & _ & _ & T1 & St1).
  destruct Hq as (_ & _ & _ & _ & T2 & St2).
  exists w1, ev, chi2, w2. repeat split; try assumption; congruence.
Qed.

Lemma amplitude_from (l : list (Q * Q)) (a : Q) :
  (fold_left (fun amp pk => amp + fst pk * snd pk) l a ==
   a + fold_right Qplus 0 (map (fun pk => fst pk * snd pk) l))%Q.
Proof.
  revert a. induction l as [|pk l IH]; intros a; simpl.
  - ring.
  - rewrite IH. ring.
Qed.

Lemma amplitude_dot (params sums : list Q) : (amplitude params sums == dot params sums)%Q.
Proof. unfold amplitude, dot. rewrite amplitude_from. ring. Qed.

Lemma nth_map_combine {A B C} (f : A * B -> C) (l1 : list A) (l2 : list B)
  (k : nat) (d : C) (d1 : A) (d2 : B) :
  (k < List.length (combine l1 l2))%nat ->
  nth k (map f (combine l1 l2)) d = f (nth k l1 d1, nth k l2 d2).
Proof.
  revert l2 k. induction l1 as [|a l1 IH]; intros [|b l2] [|k]; simpl;
    try lia; intros H.
  - reflexivity.
  - apply IH. lia.
Qed.

Lemma nth_map_seq {A} (g : nat -> A) (n k : nat) (d : A) :
  (k < n)%nat -> nth k (map g (seq 0 n)) d = g k.
Proof.
  intros H. rewrite (nth_indep _ d (g O)) by now rewrite length_map, length_seq.
  rewrite map_nth, seq_nth by exact H. reflexivity.
Qed.

(** C8 (as amended).  For a scored candidate the fitted parameters are
    divided by the amplitude [amp], the sum over the basis kernels of
    parameter times the kernel's own sum [getSum()] (not the sum of the
    parameters); the residual for component [k] is that quotient minus the
    spatial function of component [k] at the candidate's centre.  The row has
    one residual per fitted parameter, up to the number of kernel
    parameters. *)
Theorem residual_normalised_by_amplitude (kernel : Kernel) (cand : PsfCandidate)
  (im : Image) (w : World) (row : list Q) (w' : World) :
  candidateResiduals ext kernel cand im w = (Ok row, w') ->
  let x := getXCenter cand in
  let y := getYCenter cand in
  let params := fst (fitKernelParamsToImage ext kernel im x y) in
  let sums := snd (fitKernelParamsToImage ext kernel im x y) in
  let amp := amplitude params sums in
  w' = w /\
  (amp == dot params sums)%Q /\
  List.length row = Nat.min (List.length params) (getNKernelParameters ext kernel) /\
  forall k, (k < List.length row)%nat ->
    ~ (amp == 0)%Q /\
    nth k row 0%Q = (nth k params 0 / amp - getSpatialFunction ext kernel k x y)%Q.
Proof.
  intros H x y params sums amp. unfold candidateResiduals in H.
  fold x y in H. subst amp params sums.
  destruct (fitKernelParamsToImage ext kernel im x y) as [params sums].
  cbn [fst snd]. apply residualRow_Ok in H. destruct H as (Hw & Hrow & Hamp).
  set (predict := map (fun k => getSpatialFunction ext kernel k x y)
                      (seq 0 (getNKernelParameters ext kernel))) in *.
  assert (Hlen : List.length row =
                 Nat.min (List.length params) (getNKernelParameters ext kernel)).
  { rewrite Hrow, length_map, length_combine. unfold predict.
    now rewrite length_map, length_seq. }
  split; [exact Hw|]. split; [apply amplitude_dot|]. split; [exact Hlen|].
  intros k Hk. split.
  - intros Hz. apply Qeq_bool_iff in Hz. rewrite Hamp in Hz; [discriminate|].
    intros ->. simpl in Hk. lia.
  - rewrite Hrow. rewrite (nth_map_combine _ _ _ _ _ 0%Q 0%Q).
    + cbn [fst snd]. unfold predict. rewrite nth_map_seq by lia. reflexivity.
    + rewrite Hrow, length_map in Hk. exact Hk.
Qed.

(** C9.  For a non-empty candidate list, [setHeight] and [setWidth] are each
    called once with the computed kernel size, after the candidates are
    inserted and before the first call of [_fitPsf]; whatever follows in the
    call only fits and sets statuses, so the stamp size is not set again, and
    at the end every candidate's stamp width and height are the computed
    size.  (The two setters store into the candidate class, so the one call
    through [psfCandidateList[0]] holds for every candidate.) *)
Theorem stamp_size_set_once (exposure : Exposure) (l : list CandRef)
  (sd : option (list SdqaRating)) (w : World) :
  l <> [] ->
  let w' := snd (determinePsf ext exposure l sd w) in
  let k := _kernelSize (self w') in
  exists rest,
    trace w' = trace w ++ map EvInsertCandidate l
                       ++ [EvSetHeight k; EvSetWidth k] ++ rest /\
    forallb inLoop rest = true /\
    forallb (fun e => negb (isSetStamp e)) rest = true /\
    (forall c, getWidth (heap w') c = k /\ getHeight (heap w') c = k).
Proof.
  intros Hl w' k. subst k w'.
  destruct (determinePsf ext exposure l sd w) as [r w1] eqn:Hrun.
  destruct (determinePsf_run ext exposure l sd w r w1 Hl Hrun)
    as [(S1 & _ & W1 & H1 & rest & T1 & F1) _].
  cbn [snd]. exists rest. rewrite S1. split.
  - rewrite T1. unfold preparedWorld. simpl. now rewrite <- !app_assoc.
  - split; [exact F1|]. split.
    + rewrite forallb_forall in *. intros e He. specialize (F1 e He).
      now destruct e.
    + intros c. unfold getWidth, getHeight. now rewrite W1, H1.
Qed.

(** C10, first part.  A call on a non-empty list overwrites
    [self._kernelSize] with the computed size, also when the call ends by an
    exception; a later call on the same determiner starts from that value,
    and if it is at least 15 keeps it whatever the new candidates are. *)
Lemma kernelSize_overwritten (exposure : Exposure) (l : list CandRef)
  (sd : option (list SdqaRating)) (w : World) :
  l <> [] ->
  let w' := snd (determinePsf ext exposure l sd w) in
  _kernelSize (self w') =
    scaledKernelSize ext (self w) (map (candidateSize ext (heap w)) l) /\
  (15 <= _kernelSize (self w') ->
   forall exposure2 l2 sd2, l2 <> [] ->
     _kernelSize (self (snd (determinePsf ext exposure2 l2 sd2 w'))) =
     _kernelSize (self w')).
Proof.
  intros Hl w'. subst w'.
  destruct (determinePsf ext exposure l sd w) as [r w1] eqn:Hrun.
  destruct (determinePsf_run ext exposure l sd w r w1 Hl Hrun) as [(S1 & _) _].
  cbn [snd]. split; [now rewrite S1|].
  intros H15 exposure2 l2 sd2 Hl2.
  destruct (determinePsf ext exposure2 l2 sd2 w1) as [r2 w2] eqn:Hrun2.
  destruct (determinePsf_run ext exposure2 l2 sd2 w1 r2 w2 Hl2 Hrun2) as [(S2 & _) _].
  cbn [snd]. rewrite S2. unfold preparedWorld. simpl. unfold scaledKernelSize.
  destruct (Z.geb_spec (_kernelSize (self w1)) 15); [reflexivity | lia].
Qed.

End Claims.

(** C10.  [determinePsf] overwrites [self._kernelSize] and the next call on
    the same determiner starts from the overwritten value; from 15 on that
    call does no scaling.  So two calls on one determiner are not
    independent: after a first call that computed 21 from base 5, a second
    call on a star of semi-major axis 1 keeps 21, where a determiner with the
    original configuration computes 11 for the same star. *)
Theorem repeated_calls_share_kernelSize :
  (forall (Image Kernel Exposure : Type) (ext : Externals Image Kernel Exposure)
          (exposure : Exposure) (l : list CandRef) (sd : option (list SdqaRating))
          (w : World Image),
     l <> [] ->
     let w' := snd (determinePsf ext exposure l sd w) in
     _kernelSize (self w') =
       scaledKernelSize ext (self w) (map (candidateSize ext (heap w)) l) /\
     (15 <= _kernelSize (self w') ->
      forall exposure2 l2 sd2, l2 <> [] ->
        _kernelSize (self (snd (determinePsf ext exposure2 l2 sd2 w'))) =
        _kernelSize (self w'))) /\
  (let first := snd (determinePsf Toy.plain tt [0; 1; 2]%nat None Toy.sizingWorld) in
   _kernelSize (self Toy.sizingWorld) = 5 /\
   _kernelSize (self first) = 21 /\
   _kernelSize (self (snd (determinePsf Toy.plain tt [0%nat] None first))) = 21 /\
   _kernelSize (self (snd (determinePsf Toy.plain tt [0%nat] None
                             (withSelf (self Toy.sizingWorld) first)))) = 11).
Proof.
  split.
  - intros. now apply kernelSize_overwritten.
  - vm_compute. repeat split.
Qed.

(** ** Concrete runs *)



Example rejection_counts_ten :
  map (fun i => List.length
                  (chi2Marked (self Toy.tenWorld) (heap Toy.tenWorld) Toy.cells10 i))
      (Py.range 5)
  = [2; 4; 6; 8; 10]%nat.
Proof. reflexivity. Qed.

(** The formula of the specification, read with a real quotient and rounding
    to nearest, gives neither the code's counts nor the counts the
    specification lists. *)
Example spec_numBad_10_5 :
  map (fun i => spec_numBad 10 i 5) (Py.range 5) = [3; 5; 7; 9; 10].
Proof. reflexivity. Qed.

(** C2 as stated fails: with the display and the prompt on, the reply "n"
    ends the loop after one of three rounds. *)
Lemma loop_left_early_by_reply_n :
  ~ (roundsRun Toy.plain tt [0; 1; 2]%nat Toy.promptWorld
     = Z.to_nat (_nIterForPsf (self Toy.promptWorld))).
Proof. vm_compute. discriminate. Qed.

Example prompt_run_returns :
  exists psf w', determinePsf Toy.plain tt [0; 1; 2]%nat None Toy.promptWorld
                 = (Ok (psf, Toy.cells3, None), w') /\
                 fitCount (trace w') = 2%nat /\ stdin w' = [].
Proof. eexists. eexists. vm_compute. repeat split. Qed.

Example clipped_statuses : statuses (heap Toy.clippedWorld) = [BAD; UNKNOWN; BAD].
Proof. reflexivity. Qed.

Lemma fit_precedes_reset_witness :
  exists evs,
    trace (snd (psfIteration Toy.plain tt Toy.cells3 0
                  (initialLocals Toy.quiet) Toy.quietWorld)) =
      trace Toy.quietWorld ++ EvFitPsf [UNKNOWN; UNKNOWN; UNKNOWN] :: evs /\
    forallb (fun e => negb (isFitPsf e)) evs = true.
Proof.
  destruct (fit_precedes_reset Toy.plain tt Toy.cells3 0 (initialLocals Toy.quiet)
              Toy.quietWorld) as (evs & Ht & Hf & _).
  exists evs. split; [exact Ht | exact Hf].
Defined.

(** C4 as stated fails: the fit of the second round sees candidate 0 still
    BAD from the first round; the reset comes after it. *)
Lemma second_fit_sees_bad_candidate :
  ~ (forall sts,
       In (EvFitPsf sts) (trace (snd (fitLoop Toy.plain tt [0; 1; 2]%nat Toy.quietWorld))) ->
       ~ In BAD sts).
Proof.
  intros H. apply (H [BAD; UNKNOWN; UNKNOWN]); vm_compute; intuition.
Qed.

Example two_rounds_trace :
  trace (snd (fitLoop Toy.plain tt [0; 1; 2]%nat Toy.quietWorld)) =
  [ EvInsertCandidate 0; EvInsertCandidate 1; EvInsertCandidate 2;
    EvSetHeight 21; EvSetWidth 21;
    EvFitPsf [UNKNOWN; UNKNOWN; UNKNOWN];
    EvSetStatus 0 UNKNOWN; EvSetStatus 1 UNKNOWN; EvSetStatus 2 UNKNOWN;
    EvSetStatus 0 BAD;
    EvFitPsf [BAD; UNKNOWN; UNKNOWN];
    EvSetStatus 0 UNKNOWN; EvSetStatus 1 UNKNOWN; EvSetStatus 2 UNKNOWN;
    EvSetStatus 0 BAD; EvSetStatus 2 BAD ]%nat.
Proof. reflexivity. Qed.

Lemma kernel_size_from_moments_witness :
  [0; 1; 2]%nat <> [] /\
  map (candidateSize Toy.plain (heap Toy.sizingWorld)) [0; 1; 2]%nat = [1; 4; 9]%Q /\
  _kernelSize (self (snd (determinePsf Toy.plain tt [0; 1; 2]%nat None Toy.sizingWorld)))
  = 21.
Proof.
  assert (H1 : [0; 1; 2]%nat <> []) by discriminate.
  destruct (kernel_size_from_moments Toy.plain tt [0; 1; 2]%nat None Toy.sizingWorld H1)
    as (_ & _ & Hk & _ & _ & _ & _ & _ & H21).
  split; [exact H1|]. split; [reflexivity|].
  rewrite Hk. apply H21; reflexivity.
Defined.

(** C5 as stated fails: for one star of semi-major axis 3.61 (the double
    nearest to it) and base 5, [numpy.sqrt] returns the double nearest to 1.9,
    the product rounds to 9.5 and the size is 21, where
    [2*floor(5*sqrt(median) + 0.5) + 1] is 19. *)
Lemma kernel_size_rounds_in_doubles :
  ~ (_kernelSize (self (snd (determinePsf Runs.rounding tt [0%nat] None
                               Runs.roundingWorld)))
     = spec_kernelSize 5 5 99 (np_sqrt Runs.rounding (Py.np_median [Runs.d361]))).
Proof. vm_compute. discriminate. Qed.

Example kernel_size_rounding_run :
  map (candidateSize Runs.rounding (heap Runs.roundingWorld)) [0%nat] = [Runs.d361] /\
  _kernelSize (self (snd (determinePsf Runs.rounding tt [0%nat] None Runs.roundingWorld)))
  = 21 /\
  spec_kernelSize 5 5 99 (np_sqrt Runs.rounding (Py.np_median [Runs.d361])) = 19.
Proof. vm_compute. repeat split. Qed.

(** [int()] truncates toward zero: for a negative base inside the bounds the
    size is not the one a floor gives. *)
Example kernel_size_truncates :
  _kernelSize (self (snd (determinePsf Toy.plain tt [0%nat] None Runs.negativeWorld)))
  = -3 /\
  spec_kernelSize (-3) (-9) 99 (np_sqrt Toy.plain (Py.np_median [1%Q])) = -5.
Proof. vm_compute. split; reflexivity. Qed.

Lemma empty_candidate_list_raises_witness :
  determinePsf Toy.plain tt [] None Toy.quietWorld =
    (Raise (RuntimeError "No PSF candidates supplied."), Toy.quietWorld) /\
  fst (determinePsf Toy.plain tt [0; 1; 2]%nat None Toy.quietWorld)
    <> Raise (RuntimeError "No PSF candidates supplied.").
Proof.
  destruct (empty_candidate_list_raises Toy.plain tt None Toy.quietWorld) as [He Hn].
  split; [exact He|]. apply Hn. discriminate.
Defined.

Lemma final_fit_after_last_rejection_witness :
  exists w1 eigenValues fitChi2 w2,
    fitLoop Toy.plain tt [0; 1; 2]%nat Toy.quietWorld = (Ok Toy.cells3, w1) /\
    _fitPsf Toy.plain tt Toy.cells3 w1 = (Ok (createPsf_PCA [], eigenValues, fitChi2), w2) /\
    trace (snd (determinePsf Toy.plain tt [0; 1; 2]%nat None Toy.quietWorld)) =
      trace w1 ++ [EvFitPsf (statuses (heap w1))] /\
    statuses (heap (snd (determinePsf Toy.plain tt [0; 1; 2]%nat None Toy.quietWorld))) =
      statuses (heap w1).
Proof.
  apply (final_fit_after_last_rejection Toy.plain tt [0; 1; 2]%nat None Toy.quietWorld
           (createPsf_PCA []) Toy.cells3 None).
  vm_compute. reflexivity.
Defined.

Example final_fit_statuses :
  statuses (heap (snd (determinePsf Toy.plain tt [0; 1; 2]%nat None Toy.quietWorld)))
  = [BAD; UNKNOWN; BAD] /\
  last (trace (snd (determinePsf Toy.plain tt [0; 1; 2]%nat None Toy.quietWorld)))
       (EvSetWidth 0)
  = EvFitPsf [BAD; UNKNOWN; BAD].
Proof. split; reflexivity. Qed.

Lemma residual_normalised_by_amplitude_witness :
  residualsOf Toy.mixture [1; 0]%Q (Toy.star 1 4 (Py.Fin 1)) tt Toy.quietWorld
    = [2 / 2 - 1; 3 / 2 - 0]%Q.
Proof.
  assert (Hrun : candidateResiduals Toy.mixture [1; 0]%Q (Toy.star 1 4 (Py.Fin 1)) tt
                   Toy.quietWorld = (Ok [2 / 2 - 1; 3 / 2 - 0]%Q, Toy.quietWorld))
    by (vm_compute; reflexivity).
  destruct (residual_normalised_by_amplitude Toy.mixture [1; 0]%Q
              (Toy.star 1 4 (Py.Fin 1)) tt Toy.quietWorld _ _ Hrun)
    as (_ & _ & _ & Hk).
  unfold residualsOf. rewrite Hrun. cbn [fst].
  destruct (Hk 0%nat) as [_ H0]; [simpl; lia|].
  destruct (Hk 1%nat) as [_ H1]; [simpl; lia|].
  reflexivity.
Defined.

(** C8 as stated fails: the fitted parameters 2 and 3 are divided by the
    amplitude 2*1 + 3*0 = 2, not by their sum 5. *)
Lemma residual_not_normalised_by_parameter_sum :
  ~ (forall k, (k < 2)%nat ->
       (nth k (residualsOf Toy.mixture [1; 0]%Q (Toy.star 1 4 (Py.Fin 1)) tt
                 Toy.quietWorld) 0
        == spec_residual [2; 3] [1; 0] k)%Q).
Proof.
  intros H. specialize (H 0%nat (Nat.lt_0_succ 1)). vm_compute in H. discriminate.
Qed.

Lemma stamp_size_set_once_witness :
  exists rest,
    trace (snd (determinePsf Toy.plain tt [0; 1; 2]%nat None Toy.sizingWorld)) =
      [EvInsertCandidate 0; EvInsertCandidate 1; EvInsertCandidate 2;
       EvSetHeight 21; EvSetWidth 21]%nat ++ rest /\
    forallb (fun e => negb (isSetStamp e)) rest = true.
Proof.
  assert (H : [0; 1; 2]%nat <> []) by discriminate.
  destruct (stamp_size_set_once Toy.plain tt [0; 1; 2]%nat None Toy.sizingWorld H)
    as (rest & Ht & _ & Hs & _).
  exists rest. split; [exact Ht | exact Hs].
Defined.

Lemma repeated_calls_share_kernelSize_witness :
  [0%nat] <> [] /\
  15 <= _kernelSize (self (snd (determinePsf Toy.plain tt [0; 1; 2]%nat None
                                  Toy.sizingWorld))) /\
  _kernelSize (self (snd (determinePsf Toy.plain tt [0%nat] None
     (snd (determinePsf Toy.plain tt [0; 1; 2]%nat None Toy.sizingWorld))))) = 21.
Proof.
  assert (H1 : [0; 1; 2]%nat <> []) by discriminate.
  assert (H2 : [0%nat] <> []) by discriminate.
  destruct repeated_calls_share_kernelSize as [Hg _].
  destruct (Hg unit (list Q) unit Toy.plain tt [0; 1; 2]%nat None Toy.sizingWorld H1)
    as [_ Hkeep].
  assert (H15 : 15 <= _kernelSize (self (snd (determinePsf Toy.plain tt [0; 1; 2]%nat
                                               None Toy.sizingWorld))))
    by (vm_compute; discriminate).
  split; [exact H2|]. split; [exact H15|].
  rewrite (Hkeep H15 tt [0%nat] None H2). reflexivity.
Defined.

(** * Beyond the claims *)

(** ** The rejection schedule over the rounds *)

Lemma Py_ltb_lt (a b : Q) : Py.ltb a b = true <-> (a < b)%Q.
Proof.
  unfold Py.ltb. rewrite negb_true_iff. split.
  - intros H. apply Qnot_le_lt. intros Hle. apply Qle_bool_iff in Hle. congruence.
  - intros H. destruct (Qle_bool b a) eqn:E; [|reflexivity].
    apply Qle_bool_iff in E. exfalso. now apply (Qlt_not_le a b).
Qed.

Lemma firstn_prefix {A} (l : list A) (m n : nat) :
  (m <= n)%nat -> firstn n l = firstn m l ++ firstn (n - m) (skipn m l).
Proof.
  revert m n. induction l as [|x l IH]; intros m n H.
  - now rewrite !firstn_nil, skipn_nil, firstn_nil.
  - destruct m as [|m].
    + simpl. now rewrite Nat.sub_0_r.
    + destruct n as [|n]; [lia|]. simpl. f_equal. apply IH. lia.
Qed.

Lemma numBad_mono (P i j K : Z) :
  0 <= P -> 0 <= i <= j -> 0 < K -> numBad P i K <= numBad P j K.
Proof.
  intros HP Hij HK. rewrite !numBad_floor by lia.
  apply Z.div_le_mono; nia.
Qed.

Section Schedule.
Context {Image Kernel Exposure : Type}.
Variable ext : Externals Image Kernel Exposure.
Local Abbreviation World := (World Image).


(** X2.  On the same chi-squares, a later round marks everything an earlier round
    marks, in the same order, and possibly more: the rejections of round [i]
    are a prefix of those of round [j >= i]. *)
Theorem rejections_grow_with_round (s : PcaPsfDeterminer) (h : @Heap Image)
  (cs : SpatialCellSet) (i j : Z) :
  0 <= i <= j -> j < _nIterForPsf s ->
  (exists more, chi2Marked s h cs j = chi2Marked s h cs i ++ more) /\
  (forall col candidates,
     exists more, spatialMarked ext s col candidates j =
                  spatialMarked ext s col candidates i ++ more).
Proof.
  intros Hij HK. split.
  - unfold chi2Marked, Py.zip_range.
    set (l := chi2Sorted h (chi2Pool s h cs)).
    eexists. apply firstn_prefix. apply Z2Nat.inj_le.
    + rewrite numBad_floor by lia. apply Z.div_pos; nia.
    + rewrite numBad_floor by lia. apply Z.div_pos; nia.
    + apply numBad_mono; lia.
  - intros col candidates. unfold spatialMarked.
    destruct (makeStatistics ext col) as [mean rms].
    set (l := spatialSorted col mean _). unfold Py.zip_range.
    assert (Hi : 0 <= numBad (Z.of_nat (List.length l)) i (_nIterForPsf s))
      by (rewrite numBad_floor by lia; apply Z.div_pos; nia).
    assert (Hm := numBad_mono (Z.of_nat (List.length l)) i j (_nIterForPsf s)
                    ltac:(lia) Hij ltac:(lia)).
    eexists. rewrite <- map_app. f_equal. apply firstn_prefix. lia.
Qed.

(** X3.  A candidate enters the chi-square pool exactly if it is in the cell set
    and its chi-square is NaN, negative, or strictly above the threshold; a
    chi-square equal to the threshold, or zero, stays out. *)
Theorem chi2_pool_membership (s : PcaPsfDeterminer) (h : @Heap Image)
  (cs : SpatialCellSet) (c : CandRef) :
  In c (chi2Pool s h cs) <->
  In c (List.concat cs) /\
  match getChi2 (getCand h c) with
  | Py.NaN => True
  | Py.Fin q => (q < 0)%Q \/ (_reducedChi2ForPsfCandidates s < q)%Q
  end.
Proof.
  unfold chi2Pool. rewrite filter_In, cellCandidates_all.
  unfold chi2IsBad. destruct (getChi2 (getCand h c)) as [|q].
  - tauto.
  - rewrite orb_true_iff. unfold Py.gtb. rewrite !Py_ltb_lt. tauto.
Qed.

End Schedule.

(** ** Statuses and flags on the heap *)

Lemma nth_updNth {A} (f : A -> A) (l : list A) (n c : nat) (d : A) :
  nth c (updNth n f l) d =
  if Nat.eqb n c && Nat.ltb c (List.length l) then f (nth c l d) else nth c l d.
Proof.
  revert n c. induction l as [|x l IH]; intros [|n] [|c]; simpl; try reflexivity.
  - now rewrite andb_false_r.
  - rewrite IH. reflexivity.
Qed.

Lemma length_updNth {A} (f : A -> A) (l : list A) (n : nat) :
  List.length (updNth n f l) = List.length l.
Proof.
  revert n. induction l as [|x l IH]; intros [|n]; simpl; try reflexivity.
  now rewrite IH.
Qed.

Lemma memb_In (c : nat) (l : list nat) : memb c l = true <-> In c l.
Proof.
  unfold memb. rewrite existsb_exists. split.
  - intros (x & Hx & He). apply Nat.eqb_eq in He. now subst.
  - intros H. exists c. split; [exact H | apply Nat.eqb_refl].
Qed.

Lemma memb_false (c : nat) (l : list nat) : memb c l = false <-> ~ In c l.
Proof.
  rewrite <- memb_In. destruct (memb c l); split; congruence.
Qed.

Lemma In_firstn {A} (x : A) (n : nat) (l : list A) : In x (firstn n l) -> In x l.
Proof.
  intros H. rewrite <- (firstn_skipn n l). apply in_or_app. now left.
Qed.

Lemma sort_by_ext {A} (f g : A -> A -> bool) (l : list A) :
  (forall x y, f x y = g x y) -> Py.sort_by f l = Py.sort_by g l.
Proof.
  intros H. induction l as [|x l IH]; simpl; [reflexivity|]. rewrite IH.
  generalize (Py.sort_by g l). intros m. induction m as [|y m IHm]; simpl.
  - reflexivity.
  - rewrite H, IHm. reflexivity.
Qed.

Section HeapFacts.
Context {Image : Type}.
Local Abbreviation World := (World Image).
Local Abbreviation Heap := (@Heap Image).

(** The heap after [f] has been applied to each candidate of [l] in turn. *)
Lemma fold_updCand_get (f : PsfCandidate -> PsfCandidate) (l : list CandRef)
  (h : Heap) (c : CandRef) :
  (forall x, f (f x) = f x) ->
  getCand (fold_left (fun h c => updCand c f h) l h) c =
  if memb c l && Nat.ltb c (List.length (candidates h))
  then f (getCand h c) else getCand h c.
Proof.
  intros Hf. revert h. induction l as [|a l IH]; intros h.
  - reflexivity.
  - cbn [fold_left]. rewrite IH.
    assert (Hg : getCand (updCand a f h) c =
                 if Nat.eqb a c && Nat.ltb c (List.length (candidates h))
                 then f (getCand h c) else getCand h c).
    { unfold getCand, updCand. simpl. apply nth_updNth. }
    assert (Hl : List.length (candidates (updCand a f h)) = List.length (candidates h)).
    { unfold updCand. simpl. apply length_updNth. }
    rewrite Hg, Hl. unfold memb. cbn [existsb]. fold (memb c l).
    rewrite (Nat.eqb_sym c a).
    destruct (Nat.eqb a c); destruct (memb c l);
      destruct (Nat.ltb c (List.length (candidates h))); simpl;
      try reflexivity. apply Hf.
Qed.

Lemma fold_updCand_length (f : PsfCandidate -> PsfCandidate) (l : list CandRef)
  (h : Heap) :
  List.length (candidates (fold_left (fun h c => updCand c f h) l h)) =
  List.length (candidates h).
Proof.
  revert h. induction l as [|a l IH]; intros h; simpl; [reflexivity|].
  rewrite IH. unfold updCand. simpl. apply length_updNth.
Qed.

Lemma statusOf_markAll (s : Status) (l : list CandRef) (h : Heap) (c : CandRef) :
  statusOf (markAll s l h) c =
  if memb c l && Nat.ltb c (List.length (candidates h)) then s else statusOf h c.
Proof.
  unfold statusOf, markAll. rewrite fold_updCand_get by reflexivity.
  now destruct (_ && _).
Qed.

Lemma getChi2_markAll (s : Status) (l : list CandRef) (h : Heap) (c : CandRef) :
  getChi2 (getCand (markAll s l h) c) = getChi2 (getCand h c).
Proof.
  unfold markAll. rewrite fold_updCand_get by reflexivity.
  now destruct (_ && _).
Qed.

Lemma statusOf_invalid (h : Heap) (c : CandRef) :
  ~ validRef h c -> statusOf h c = UNKNOWN.
Proof.
  unfold validRef, statusOf, getCand. intros H.
  rewrite nth_overflow by lia. reflexivity.
Qed.

Lemma chi2Marked_markAll (p : PcaPsfDeterminer) (s : Status) (l : list CandRef)
  (h : Heap) (cs : SpatialCellSet) (iter : Z) :
  chi2Marked p (markAll s l h) cs iter = chi2Marked p h cs iter.
Proof.
  unfold chi2Marked.
  assert (Hp : chi2Pool p (markAll s l h) cs = chi2Pool p h cs).
  { unfold chi2Pool. rewrite !cellCandidates_all. apply filter_ext.
    intros c. now rewrite getChi2_markAll. }
  assert (Hs : chi2Sorted (markAll s l h) (chi2Pool p (markAll s l h) cs) =
               chi2Sorted h (chi2Pool p h cs)).
  { rewrite Hp. unfold chi2Sorted. apply sort_by_ext.
    intros x y. now rewrite !getChi2_markAll. }
  now rewrite Hs.
Qed.

Lemma chi2Marked_in_cells (p : PcaPsfDeterminer) (h : Heap) (cs : SpatialCellSet)
  (iter : Z) (c : CandRef) :
  In c (chi2Marked p h cs iter) -> In c (List.concat cs).
Proof.
  unfold chi2Marked, Py.zip_range. intros H. apply In_firstn in H.
  unfold chi2Sorted in H.
  apply (Permutation_in _ (sort_by_perm _ _)) in H.
  unfold chi2Pool in H. apply filter_In in H. destruct H as [H _].
  now rewrite cellCandidates_all in H.
Qed.

(** X4.  After the reset of a round every candidate of the cell set is
    UNKNOWN, whatever its status was when the round began (BAD from an
    earlier round is forgotten), and after the chi-square clipping those
    outside the pool still are; candidates outside the cell set keep their
    status.  When no chi-square in the pool is NaN, a candidate of the cell
    set is BAD after the clipping exactly if it is among the first
    [floor(P*(iter+1)/K)] of the pool sorted by descending chi-square, and
    UNKNOWN otherwise; the reset does not change which ones these are. *)
Theorem statuses_after_chi2_clipping (cs : SpatialCellSet) (iter : Z) (w : World) :
  let w1 := snd (resetStatus cs w) in
  let w2 := snd (chi2Clip cs iter w1) in
  let pool := chi2Pool (self w) (heap w) cs in
  let marked := chi2Marked (self w) (heap w) cs iter in
  (forall c, In c (List.concat cs) -> statusOf (heap w1) c = UNKNOWN) /\
  (forall c, ~ In c (List.concat cs) ->
     statusOf (heap w1) c = statusOf (heap w) c /\
     statusOf (heap w2) c = statusOf (heap w) c) /\
  (forall c, In c (List.concat cs) -> ~ In c pool -> statusOf (heap w2) c = UNKNOWN) /\
  (noNaN (heap w) pool ->
   chi2Marked (self w1) (heap w1) cs iter = marked /\
   (forall c, In c (List.concat cs) -> validRef (heap w) c ->
      statusOf (heap w2) c = if memb c marked then BAD else UNKNOWN)).
Proof.
  intros w1 w2 pool marked.
  assert (E1 : heap w1 = markAll UNKNOWN (List.concat cs) (heap w) /\ self w1 = self w).
  { unfold w1, resetStatus, bind, get. rewrite forEach_setStatus.
    rewrite cellCandidates_all. now split. }
  destruct E1 as [E1 S1].
  assert (Hm : chi2Marked (self w1) (heap w1) cs iter = marked).
  { rewrite E1, S1. apply chi2Marked_markAll. }
  assert (E2 : heap w2 = markAll BAD marked (heap w1)).
  { unfold w2. rewrite chi2Clip_eq. simpl. now rewrite Hm. }
  assert (Hlen : List.length (candidates (heap w1)) = List.length (candidates (heap w))).
  { rewrite E1. apply fold_updCand_length. }
  assert (H1 : forall c, In c (List.concat cs) -> statusOf (heap w1) c = UNKNOWN).
  { intros c Hc. rewrite E1, statusOf_markAll.
    destruct (Nat.ltb_spec c (List.length (candidates (heap w)))) as [Hv|Hv].
    - apply memb_In in Hc. now rewrite Hc.
    - rewrite andb_false_r. apply statusOf_invalid. unfold validRef. lia. }
  split; [exact H1|]. split; [|split; [|intros _; split; [exact Hm|]]].
  - intros c Hc.
    assert (Hs1 : statusOf (heap w1) c = statusOf (heap w) c).
    { rewrite E1, statusOf_markAll.
      apply memb_false in Hc. now rewrite Hc. }
    split; [exact Hs1|]. rewrite E2, statusOf_markAll.
    assert (Hn : memb c marked = false).
    { apply memb_false. intros Hin. apply Hc.
      now apply (chi2Marked_in_cells (self w) (heap w) cs iter). }
    now rewrite Hn.
  - intros c Hc Hp. rewrite E2, statusOf_markAll.
    assert (Hn : memb c marked = false).
    { apply memb_false. intros Hin. apply Hp.
      now apply (chi2Marked_in_pool (self w) (heap w) cs iter). }
    rewrite Hn. now apply H1.
  - intros c Hc Hv. rewrite E2, statusOf_markAll, Hlen.
    unfold validRef in Hv. apply Nat.ltb_lt in Hv. rewrite Hv, andb_true_r.
    destruct (memb c marked); [reflexivity | now apply H1].
Qed.

End HeapFacts.

(** ** The star counts *)

Lemma land_lor_same (a b : Z) : Z.land (Z.lor a b) b = b.
Proof.
  apply Z.bits_inj'. intros n Hn. rewrite Z.land_spec, Z.lor_spec.
  destruct (Z.testbit a n), (Z.testbit b n); reflexivity.
Qed.

Section Finalizer.
Context {Image Kernel Exposure : Type}.
Variable ext : Externals Image Kernel Exposure.
Local Abbreviation World := (World Image).

Lemma mapM_guard {A B} (b : bool) (e : Exn) (g : A -> B) (l : list A) (w : World) :
  mapM (fun x => if b then raise e else ret (g x)) l w =
  if b then match l with [] => (Ok [], w) | _ :: _ => (Raise e, w) end
  else (Ok (map g l), w).
Proof.
  destruct b.
  - destruct l; reflexivity.
  - induction l as [|x l IH]; simpl; [reflexivity|].
    unfold bind at 1. unfold ret at 1. unfold bind at 1. rewrite IH. reflexivity.
Qed.

Lemma forEach_markPsfStar (l : list CandRef) (w : World) :
  forEach l (markPsfStar ext) w =
  (Ok tt, {| self := self w;
             heap := fold_left (fun h c => updCand c (withPsfStar ext) h) l (heap w);
             debug := debug w; stdin := stdin w; trace := trace w |}).
Proof.
  revert w. induction l as [|c l IH]; intros w.
  - destruct w. reflexivity.
  - simpl. unfold bind at 1. unfold markPsfStar at 1, modifyHeap.
    rewrite IH. reflexivity.
Qed.

Lemma cellCandidates_good (h : @Heap Image) (cs : SpatialCellSet) :
  cellCandidates h cs true =
  filter (fun c => negb (isBad (statusOf h c))) (List.concat cs).
Proof.
  unfold cellCandidates, begin. rewrite flat_map_concat_map.
  apply concat_filter_map.
Qed.

Lemma finalize_eq (cs : SpatialCellSet) (fitChi2 : Q)
  (sd : option (list SdqaRating)) (w : World) :
  let good := filter (fun c => negb (isBad (statusOf (heap w) c))) (List.concat cs) in
  finalize ext cs fitChi2 sd w =
  (Ok (option_map (fun l => l ++ sdqaRatings fitChi2 (Z.of_nat (List.length good))
                                   (Z.of_nat (List.length (List.concat cs)))) sd),
   {| self := self w;
      heap := fold_left (fun h c => updCand c (withPsfStar ext) h) good (heap w);
      debug := debug w; stdin := stdin w; trace := trace w |}).
Proof.
  intros good. unfold finalize, bind at 1, get at 1. unfold bind.
  rewrite forEach_markPsfStar, cellCandidates_good, cellCandidates_all.
  reflexivity.
Qed.

(** X5.  The star counts: the number of candidates that are not BAD plus the
    number of BAD ones is the number of candidates in the cell set; these
    counts and the fit chi-square are appended, as four ratings, to a rating
    set that was passed, and no rating set is made up when none was.  The
    count never raises. *)
Theorem star_counts_add_up (cs : SpatialCellSet) (fitChi2 : Q)
  (sd : option (list SdqaRating)) (w : World) :
  let good := filter (fun c => negb (isBad (statusOf (heap w) c))) (List.concat cs) in
  let bad := filter (fun c => isBad (statusOf (heap w) c)) (List.concat cs) in
  (List.length good + List.length bad = List.length (List.concat cs))%nat /\
  (sd = None -> fst (finalize ext cs fitChi2 sd w) = Ok None) /\
  (forall ratings, sd = Some ratings ->
     fst (finalize ext cs fitChi2 sd w) =
     Ok (Some (ratings ++
       [ {| ratingName := "phot.psf.spatialFitChi2"; ratingValue := fitChi2;
            ratingErr := -1 |};
         {| ratingName := "phot.psf.numGoodStars";
            ratingValue := inject_Z (Z.of_nat (List.length good)); ratingErr := 0 |};
         {| ratingName := "phot.psf.numAvailStars";
            ratingValue := inject_Z (Z.of_nat (List.length good + List.length bad));
            ratingErr := 0 |};
         {| ratingName := "phot.psf.spatialLowOrdFlag"; ratingValue := 0;
            ratingErr := 0 |} ]))).
Proof.
  intros good bad.
  assert (Hsum : (List.length good + List.length bad = List.length (List.concat cs))%nat).
  { unfold good, bad. rewrite Nat.add_comm.
    apply (filter_length (fun c => isBad (statusOf (heap w) c))). }
  split; [exact Hsum|]. rewrite finalize_eq. cbn [fst]. split.
  - intros ->. reflexivity.
  - intros ratings ->. fold good. rewrite Hsum. reflexivity.
Qed.

(** X6.  The PSFSTAR flag: the count sets the bit on the source of every candidate
    of the cell set that is not BAD, keeping the source's other bits, and
    touches the flags of no other candidate (BAD ones included) and the status
    of none. *)
Theorem psf_star_flag_on_good_only (cs : SpatialCellSet) (fitChi2 : Q)
  (sd : option (list SdqaRating)) (w : World) (c : CandRef) :
  let w' := snd (finalize ext cs fitChi2 sd w) in
  (validRef (heap w) c -> In c (List.concat cs) -> statusOf (heap w) c <> BAD ->
   flagsOf (heap w') c = Z.lor (flagsOf (heap w) c) (PSFSTAR ext) /\
   Z.land (flagsOf (heap w') c) (PSFSTAR ext) = PSFSTAR ext) /\
  (~ In c (List.concat cs) \/ statusOf (heap w) c = BAD ->
   flagsOf (heap w') c = flagsOf (heap w) c) /\
  statusOf (heap w') c = statusOf (heap w) c.
Proof.
  intros w'. subst w'. rewrite finalize_eq. cbn [snd heap].
  set (good := filter _ (List.concat cs)).
  assert (Hidem : forall x : @PsfCandidate Image,
             withPsfStar ext (withPsfStar ext x) = withPsfStar ext x).
  { intros x. unfold withPsfStar, setSource_, setFlagForDetection. simpl.
    now rewrite <- Z.lor_assoc, Z.lor_diag. }
  assert (Hgood : In c good <-> In c (List.concat cs) /\ statusOf (heap w) c <> BAD).
  { unfold good. rewrite filter_In.
    destruct (statusOf (heap w) c); simpl; intuition congruence. }
  unfold flagsOf, statusOf. rewrite (fold_updCand_get _ _ _ _ Hidem).
  split; [|split].
  - intros Hv Hc Hs. assert (Hin : In c good) by (apply Hgood; now split).
    apply memb_In in Hin. rewrite Hin. unfold validRef in Hv.
    apply Nat.ltb_lt in Hv. rewrite Hv. cbn [andb]. unfold withPsfStar. simpl.
    split; [reflexivity | apply land_lor_same].
  - intros Hout. assert (Hn : memb c good = false).
    { apply memb_false. rewrite Hgood. unfold statusOf. tauto. }
    now rewrite Hn.
  - now destruct (_ && _).
Qed.

End Finalizer.

(** ** The fit, the kernel size and the spatial clipping at the edges *)

Section Edges.
Context {Image Kernel Exposure : Type}.
Variable ext : Externals Image Kernel Exposure.
Local Abbreviation World := (World Image).

(** X7.  [_fitPsf] divides every eigenvalue by [count * nu], with
    [nu = size*size - 1] and [size = kernelSize + 2*borderWidth]: it raises
    ZeroDivisionError exactly when there is an eigenvalue and either no
    candidate is counted or [size] is 1 or -1; otherwise it returns the PSF of
    the kernel with the eigenvalues so divided. *)
Theorem fitPsf_zero_division (exposure : Exposure) (cs : SpatialCellSet) (w : World) :
  let s := self w in
  let r := createKernelFromPsfCandidates ext (heap w) cs exposure
             (_nEigenComponents s) (_spatialOrder s) (_kernelSize s)
             (_nStarPerCell s) (_constantWeight s) in
  let kernel := fst (fst r) in
  let eigenValues := snd (fst r) in
  let size := _kernelSize s + 2 * _borderWidth s in
  let count := countPsfCandidates ext (applyChi2 (snd r) (heap w)) cs (_nStarPerCell s) in
  (eigenValues <> [] -> count = 0 \/ size = 1 \/ size = -1 ->
   fst (_fitPsf ext exposure cs w) = Raise ZeroDivisionError) /\
  (eigenValues = [] \/ (count <> 0 /\ size <> 1 /\ size <> -1) ->
   exists chi2,
     fst (_fitPsf ext exposure cs w) =
     Ok (createPsf_PCA kernel,
         map (fun l => (l / inject_Z (count * (size * size - 1)))%Q) eigenValues,
         chi2)).
Proof.
  intros s r kernel eigenValues size count.
  assert (Hd : count * (size * size - 1) = 0 <-> count = 0 \/ size = 1 \/ size = -1).
  { rewrite Z.mul_eq_0. replace (size * size - 1) with ((size - 1) * (size + 1)) by ring.
    rewrite Z.mul_eq_0. lia. }
  remember (_fitPsf ext exposure cs w) as run eqn:Hrun.
  unfold _fitPsf, bind at 1, get at 1 in Hrun. unfold bind at 1, emit at 1 in Hrun.
  cbn [self heap] in Hrun. fold s in Hrun. fold r in Hrun.
  subst kernel eigenValues count. destruct r as [[kernel ev] c1]. cbn [fst snd] in *.
  unfold bind at 1, modifyHeap at 1 in Hrun. unfold bind at 1, get at 1 in Hrun.
  cbn [self heap] in Hrun. fold size in Hrun. unfold bind at 1 in Hrun.
  rewrite (mapM_guard
             (countPsfCandidates ext (applyChi2 c1 (heap w)) cs (_nStarPerCell s)
              * (size * size - 1) =? 0) ZeroDivisionError
             (fun l => (l / inject_Z (countPsfCandidates ext (applyChi2 c1 (heap w)) cs
                                        (_nStarPerCell s) * (size * size - 1)))%Q))
    in Hrun.
  split.
  - intros Hev H0. apply Hd in H0. apply Z.eqb_eq in H0. rewrite H0 in Hrun.
    subst run. destruct ev; [congruence | reflexivity].
  - intros [Hev | H0].
    + subst ev run.
      match goal with |- context [if ?b then _ else _] => destruct b end;
        destruct (fitSpatialKernelFromPsfCandidates ext _ _ _ _ _ _ _) as [[st chi2] c2];
        eexists; reflexivity.
    + assert (Hne : countPsfCandidates ext (applyChi2 c1 (heap w)) cs (_nStarPerCell s)
                    * (size * size - 1) <> 0) by (rewrite Hd; lia).
      apply Z.eqb_neq in Hne. rewrite Hne in Hrun. subst run.
      destruct (fitSpatialKernelFromPsfCandidates ext _ _ _ _ _ _ _) as [[st chi2] c2].
      eexists. reflexivity.
Qed.

(** X8.  The kernel size: a configured size of 15 or more is taken as it is, also
    when it lies outside [[kernelSizeMin, kernelSizeMax]]; a smaller one gives
    a size within the bounds when they are ordered, and [kernelSizeMax] when
    they are not; and the size is odd unless a bound replaced it. *)
Theorem kernel_size_bounds (s : PcaPsfDeterminer) (sizes : list Q) :
  let k := scaledKernelSize ext s sizes in
  (15 <= _kernelSize s -> k = _kernelSize s) /\
  (_kernelSize s < 15 -> _kernelSizeMin s <= _kernelSizeMax s ->
   _kernelSizeMin s <= k <= _kernelSizeMax s) /\
  (_kernelSize s < 15 -> _kernelSizeMax s < _kernelSizeMin s -> k = _kernelSizeMax s) /\
  (_kernelSize s < 15 ->
   Z.odd k = true \/ k = _kernelSizeMin s \/ k = _kernelSizeMax s).
Proof.
  intros k. subst k. unfold scaledKernelSize. rewrite Z.geb_leb.
  destruct (Z.leb_spec 15 (_kernelSize s)) as [H15|H15].
  - split; [reflexivity|]. repeat split; lia.
  - set (n := Py.int _). rewrite Z.gtb_ltb.
    assert (Hodd : Z.odd (2 * n + 1) = true).
    { rewrite Z.add_comm, Z.odd_add_mul_2. reflexivity. }
    destruct (Z.ltb_spec (2 * n + 1) (_kernelSizeMin s));
      match goal with
      | |- context [?a <? ?b] => destruct (Z.ltb_spec a b)
      end; (split; [lia|]); (split; [lia|]); (split; [lia|]); intros _; auto.
Qed.

Lemma candidateResiduals_eq (kernel : Kernel) (cand : PsfCandidate) (im : Image)
  (w : World) :
  let x := getXCenter cand in
  let y := getYCenter cand in
  let params := fst (fitKernelParamsToImage ext kernel im x y) in
  let sums := snd (fitKernelParamsToImage ext kernel im x y) in
  let amp := amplitude params sums in
  let predict := map (fun k => getSpatialFunction ext kernel k x y)
                     (seq 0 (getNKernelParameters ext kernel)) in
  candidateResiduals ext kernel cand im w =
  if Qeq_bool amp 0
  then match combine params predict with
       | [] => (Ok [], w)
       | _ :: _ => (Raise ZeroDivisionError, w)
       end
  else (Ok (map (fun ap => (fst ap / amp - snd ap)%Q) (combine params predict)), w).
Proof.
  intros x y params sums amp predict. unfold candidateResiduals.
  fold x y. subst amp params sums.
  destruct (fitKernelParamsToImage ext kernel im x y) as [params sums].
  cbn [fst snd]. fold predict. unfold residualRow. apply mapM_guard.
Qed.

(** X9.  When the doubles accumulate the amplitude exactly (every product
    and every partial sum is a double), the residuals of a candidate raise
    ZeroDivisionError exactly when the amplitude is zero while there is at
    least one fitted parameter and at least one kernel parameter; in every
    other case they are returned. *)
Theorem residuals_zero_amplitude (kernel : Kernel) (cand : PsfCandidate) (im : Image)
  (w : World) :
  let x := getXCenter cand in
  let y := getYCenter cand in
  let params := fst (fitKernelParamsToImage ext kernel im x y) in
  let sums := snd (fitKernelParamsToImage ext kernel im x y) in
  exactAmplitude params sums ->
  (fst (candidateResiduals ext kernel cand im w) = Raise ZeroDivisionError <->
   (dot params sums == 0)%Q /\ params <> [] /\
   getNKernelParameters ext kernel <> O) /\
  (fst (candidateResiduals ext kernel cand im w) <> Raise ZeroDivisionError ->
   exists row, candidateResiduals ext kernel cand im w = (Ok row, w)).
Proof.
  intros x y params sums _. rewrite candidateResiduals_eq. fold x y params sums.
  set (predict := map _ (seq 0 (getNKernelParameters ext kernel))).
  assert (Hc : combine params predict = [] <->
               params = [] \/ getNKernelParameters ext kernel = O).
  { unfold predict. destruct params as [|p ps];
      destruct (getNKernelParameters ext kernel); simpl; intuition congruence. }
  destruct (Qeq_bool (amplitude params sums) 0) eqn:Ha.
  - apply Qeq_bool_iff in Ha. rewrite amplitude_dot in Ha.
    destruct (combine params predict) as [|ap l] eqn:Hl; cbn [fst].
    + split; [|intros _; eexists; reflexivity].
      split; [discriminate|]. intros (_ & Hp & Hn).
      destruct Hc as [Hc _]. destruct (Hc eq_refl); contradiction.
    + split; [|congruence]. split; [|reflexivity]. intros _.
      split; [exact Ha|]. destruct Hc as [_ Hc].
      split; intros H0; (assert (E : ap :: l = []) by (apply Hc; auto));
        discriminate.
  - cbn [fst]. split; [|intros _; eexists; reflexivity].
    split; [discriminate|]. intros (Hz & _).
    rewrite <- amplitude_dot in Hz. apply Qeq_bool_iff in Hz. congruence.
Qed.

Lemma spatialResiduals_no_stamp (kernel : Kernel) (cands : list CandRef) (w : World) :
  (forall c, In c cands -> hasImage (heap w) c = false) ->
  spatialResiduals ext kernel cands w = (Ok ([], []), w).
Proof.
  induction cands as [|c cands IH]; intros H; [reflexivity|].
  cbn [spatialResiduals]. unfold bind at 1, get at 1.
  assert (Hc := H c (or_introl eq_refl)). unfold hasImage in Hc.
  destruct (getImage _ _ _); [discriminate|]. apply IH.
  intros c' Hc'. apply H. now right.
Qed.

Lemma spatialResiduals_no_params (kernel : Kernel) (cands : list CandRef) (w : World) :
  getNKernelParameters ext kernel = O ->
  exists rc, spatialResiduals ext kernel cands w = (Ok rc, w).
Proof.
  intros H0. induction cands as [|c cands IH]; [eexists; reflexivity|].
  cbn [spatialResiduals]. unfold bind at 1, get at 1.
  destruct (getImage _ _ _) as [im|]; [|exact IH].
  unfold bind at 1. rewrite candidateResiduals_eq, H0. cbn [seq map].
  rewrite combine_nil. destruct IH as [rc IH].
  destruct (Qeq_bool _ 0); unfold bind; rewrite IH; eexists; reflexivity.
Qed.

(** X10.  The spatial clipping at its edges: for a kernel without parameters it
    does nothing at all; for a kernel with parameters it raises IndexError,
    before marking anything, when no candidate of the cell set yields a stamp
    (in particular when the cell set is empty). *)
Theorem spatial_clip_edges (psf : Psf) (cs : SpatialCellSet) (iter : Z) (w : World) :
  (getNKernelParameters ext (getKernel psf) = O ->
   spatialClip ext psf cs iter w = (Ok tt, w)) /\
  (getNKernelParameters ext (getKernel psf) <> O ->
   (forall c, In c (List.concat cs) -> hasImage (heap w) c = false) ->
   spatialClip ext psf cs iter w = (Raise IndexError, w)).
Proof.
  split.
  - intros H0. unfold spatialClip, bind at 1, get at 1. unfold bind.
    destruct (spatialResiduals_no_params (getKernel psf)
                (cellCandidates (heap w) cs false) w H0) as [rc ->].
    rewrite H0. reflexivity.
  - intros Hn Hs. unfold spatialClip, bind at 1, get at 1. unfold bind.
    rewrite spatialResiduals_no_stamp
      by (intros c Hc; apply Hs; now rewrite cellCandidates_all in Hc).
    destruct (getNKernelParameters ext (getKernel psf)) as [|n]; [congruence|].
    reflexivity.
Qed.

End Edges.

(** ** The prompt *)

(** The reply that the prompt returns with is the first word of a line of the
    input, or the "n" of the end of input; the other outcomes are as in the
    source, the debugger of "p" apart. *)
Lemma promptLoop_cases (input : list (list string)) (loc : Locals) :
  match promptLoop input loc with
  | Prompted loc' rest =>
      In (reply loc') [""; "c"; "n"; "p"; "q"; "y"]%string /\
      (exists used, input = used ++ rest) /\
      pause loc' = (if String.eqb (reply loc') "c" then false else pause loc) /\
      display loc' = (if String.eqb (reply loc') "q" then 0 else display loc) /\
      (reply loc' = "n"%string \/
       exists line, In line input /\ hd ""%string line = reply loc')
  | PromptRaised e rest =>
      e = IndexError /\ exists used, input = used ++ ["s"%string] :: rest
  end.
Proof.
  revert loc. induction input as [|line input IH]; intros loc.
  - simpl. repeat split; auto. now exists [].
  - assert (Hskip : forall r,
              match promptLoop input (withReply r loc) with
              | Prompted loc' rest =>
                  In (reply loc') [""; "c"; "n"; "p"; "q"; "y"]%string /\
                  (exists used, line :: input = used ++ rest) /\
                  pause loc' = (if String.eqb (reply loc') "c" then false else pause loc) /\
                  display loc' = (if String.eqb (reply loc') "q" then 0 else display loc) /\
                  (reply loc' = "n"%string \/
                   exists l0, In l0 (line :: input) /\ hd ""%string l0 = reply loc')
              | PromptRaised e rest =>
                  e = IndexError /\ exists used, line :: input = used ++ ["s"%string] :: rest
              end).
    { intros r. specialize (IH (withReply r loc)).
      destruct (promptLoop input (withReply r loc)) as [loc' rest|e rest].
      - destruct IH as (H1 & (used & H2) & H3 & H4 & H5). split; [exact H1|].
        split; [exists (line :: used); now rewrite H2|]. split; [exact H3|].
        split; [exact H4|]. destruct H5 as [H5|(l0 & Hl0 & H5)]; [now left|].
        right. exists l0. split; [now right | exact H5].
      - destruct IH as (H1 & used & H2). split; [exact H1|].
        exists (line :: used). now rewrite H2. }
    cbn [promptLoop].
    assert (Hhd : hd ""%string line = match line with [] => ""%string | r :: _ => r end)
      by now destruct line.
    set (r := match line with [] => ""%string | r :: _ => r end) in *.
    set (args := match line with [] => [] | _ :: args => args end) in *.
    assert (Hfrom : forall x : string, x = r ->
              x = "n"%string \/
              exists l0, In l0 (line :: input) /\ hd ""%string l0 = x).
    { intros x ->. right. exists line. split; [now left | exact Hhd]. }
    destruct (recognised r) eqn:Hrec; [|apply Hskip].
    unfold promptStep.
    destruct (String.eqb r "c") eqn:Ec.
    { cbn [reply pause display]. rewrite Ec.
      apply String.eqb_eq in Ec.
      split; [rewrite Ec; simpl; auto|]. split; [now exists [line]|].
      split; [reflexivity|]. split; [now rewrite Ec | now apply Hfrom]. }
    destruct (String.eqb r "h") eqn:Eh; [apply Hskip|].
    destruct (String.eqb r "p") eqn:Ep.
    { cbn [withReply reply pause display]. rewrite Ec.
      pose proof Ep as Ep'. apply String.eqb_eq in Ep'.
      split; [rewrite Ep'; simpl; auto 10|]. split; [now exists [line]|].
      split; [reflexivity|]. split; [now rewrite Ep' | now apply Hfrom]. }
    destruct (String.eqb r "q") eqn:Eq.
    { cbn [reply pause display]. rewrite Ec, Eq.
      pose proof Eq as Eq'. apply String.eqb_eq in Eq'.
      split; [rewrite Eq'; simpl; auto 10|]. split; [now exists [line]|].
      split; [reflexivity|]. split; [reflexivity | now apply Hfrom]. }
    destruct (String.eqb r "s") eqn:Es.
    { destruct args as [|a args'] eqn:Ha; [|apply Hskip].
      split; [reflexivity|]. exists []. simpl. f_equal.
      apply String.eqb_eq in Es. subst r args.
      destruct line as [|r0 [|a0 l0]]; [discriminate | now subst | discriminate]. }
    cbn [withReply reply pause display]. rewrite Ec, Eq.
    split; [|split; [now exists [line] | split; [reflexivity|split;
                       [reflexivity | now apply Hfrom]]]].
    unfold recognised in Hrec. cbn [existsb] in Hrec.
    rewrite Ec, Eh, Ep, Eq, Es in Hrec. simpl in Hrec.
    rewrite !orb_false_r in Hrec.
    destruct (String.eqb r "") eqn:E0.
    { apply String.eqb_eq in E0. rewrite E0. simpl. auto. }
    destruct (String.eqb r "n") eqn:En.
    { apply String.eqb_eq in En. rewrite En. simpl. auto. }
    simpl in Hrec. apply String.eqb_eq in Hrec. rewrite Hrec. simpl. auto 10.
Qed.

(** X11.  On input without a "p" reply (which would enter the debugger), the
    prompt reads past "h", "s <file>" and unrecognised replies and returns
    only with one of the replies "", "c", "n", "q", "y" ("n" at end of
    input); "c" switches [pause] off, "q" switches [display] off, and no
    other reply changes either; what is left of the input is a suffix of what
    there was.  The one exception it raises is IndexError, on "s" without a
    file name. *)
Theorem prompt_outcomes (input : list (list string)) (loc : Locals) :
  (forall line, In line input -> hd ""%string line <> "p"%string) ->
  match promptLoop input loc with
  | Prompted loc' rest =>
      In (reply loc') [""; "c"; "n"; "q"; "y"]%string /\
      (exists used, input = used ++ rest) /\
      pause loc' = (if String.eqb (reply loc') "c" then false else pause loc) /\
      display loc' = (if String.eqb (reply loc') "q" then 0 else display loc)
  | PromptRaised e rest =>
      e = IndexError /\ exists used, input = used ++ ["s"%string] :: rest
  end.
Proof.
  intros Hp. pose proof (promptLoop_cases input loc) as H.
  destruct (promptLoop input loc) as [loc' rest|e rest]; [|exact H].
  destruct H as (H1 & H2 & H3 & H4 & H5).
  split; [|split; [exact H2 | split; [exact H3 | exact H4]]].
  assert (Hnp : reply loc' <> "p"%string).
  { intros E. destruct H5 as [H5|(l0 & Hl0 & H5)]; [congruence|].
    apply (Hp l0 Hl0). congruence. }
  simpl in H1. simpl. intuition congruence.
Qed.

(** ** What a whole call does to the input and to the statuses *)

Section WholeCall.
Context {Image Kernel Exposure : Type}.
Variable ext : Externals Image Kernel Exposure.
Local Abbreviation World := (World Image).

Lemma HeapOnly_refl (w : World) : HeapOnly w w.
Proof. unfold HeapOnly. tauto. Qed.

Lemma HeapOnly_trans (w1 w2 w3 : World) :
  HeapOnly w1 w2 -> HeapOnly w2 w3 -> HeapOnly w1 w3.
Proof. unfold HeapOnly. intuition congruence. Qed.

Lemma forEach_setStatus_heapOnly (s : Status) (l : list CandRef) :
  sat (Image:=Image) HeapOnly (forEach l (setStatus s)).
Proof.
  intros w. rewrite forEach_setStatus. simpl. split; [|discriminate].
  unfold HeapOnly. simpl. tauto.
Qed.

Lemma fitPsf_heapOnly (exposure : Exposure) (cs : SpatialCellSet) :
  sat HeapOnly (_fitPsf ext exposure cs).
Proof.
  assert (Hheap : forall f, sat (Image:=Image) HeapOnly (modifyHeap f)).
  { intros f w. unfold modifyHeap, HeapOnly. simpl. split; [tauto | discriminate]. }
  unfold _fitPsf.
  apply (sat_bind _ HeapOnly_trans); [apply sat_get, HeapOnly_refl | intros w].
  apply (sat_bind _ HeapOnly_trans).
  { intros w0. unfold emit, HeapOnly. simpl. split; [tauto | discriminate]. }
  intros _.
  destruct (createKernelFromPsfCandidates ext _ _ _ _ _ _ _ _) as [[kernel ev] c1].
  apply (sat_bind _ HeapOnly_trans); [apply Hheap | intros _].
  apply (sat_bind _ HeapOnly_trans); [apply sat_get, HeapOnly_refl | intros w1].
  apply (sat_bind _ HeapOnly_trans).
  - apply sat_mapM; [apply HeapOnly_refl | apply HeapOnly_trans |].
    intros l. destruct (_ =? 0).
    + apply sat_raise; [apply HeapOnly_refl | now left].
    + apply sat_ret, HeapOnly_refl.
  - intros ev'.
    destruct (fitSpatialKernelFromPsfCandidates ext _ _ _ _ _ _ _) as [[st chi2] c2].
    apply (sat_bind _ HeapOnly_trans); [apply Hheap | intros _].
    apply sat_ret, HeapOnly_refl.
Qed.

Lemma spatialClip_heapOnly (psf : Psf) (cs : SpatialCellSet) (iter : Z) :
  sat (Image:=Image) HeapOnly (spatialClip ext psf cs iter).
Proof.
  unfold spatialClip.
  apply (sat_bind _ HeapOnly_trans); [apply sat_get, HeapOnly_refl | intros w].
  apply (sat_bind _ HeapOnly_trans).
  - eapply sat_weaken; [|apply spatialResiduals_same].
    intros w1 w2 ->. apply HeapOnly_refl.
  - intros rc. apply sat_forEach; [apply HeapOnly_refl | apply HeapOnly_trans |].
    intros k. unfold spatialClipComponent. destruct (column _ _).
    + apply (sat_bind _ HeapOnly_trans); [apply sat_get, HeapOnly_refl | intros w0].
      apply forEach_setStatus_heapOnly.
    + apply sat_raise; [apply HeapOnly_refl | now right].
Qed.

(** A round that returns has reached its prompt with the determiner, the
    debug switches and the input as the round found them. *)
Lemma psfIteration_to_interact exposure cs iter loc (w : World) res w' :
  psfIteration ext exposure cs iter loc w = (Ok res, w') ->
  exists w4, HeapOnly w w4 /\ interact loc w4 = (Ok res, w').
Proof.
  intros H. unfold psfIteration in H.
  apply bind_Ok in H. destruct H as (fit & w1 & H1 & H).
  apply bind_Ok in H. destruct H as (u2 & w2 & H2 & H).
  apply bind_Ok in H. destruct H as (u3 & w3 & H3 & H).
  apply bind_Ok in H. destruct H as (u4 & w4 & H4 & H).
  exists w4. split; [|exact H].
  destruct (fitPsf_heapOnly exposure cs w) as [R1 _]. rewrite H1 in R1.
  assert (R2 : HeapOnly w1 w2).
  { unfold resetStatus, bind, get in H2. rewrite forEach_setStatus in H2.
    injection H2 as _ <-. unfold HeapOnly. simpl. tauto. }
  assert (R3 : HeapOnly w2 w3).
  { rewrite chi2Clip_eq in H3. injection H3 as _ <-. unfold HeapOnly. simpl. tauto. }
  destruct (spatialClip_heapOnly (fst (fst fit)) cs iter w3) as [R4 _].
  rewrite H4 in R4.
  eapply HeapOnly_trans; [exact R1|]. eapply HeapOnly_trans; [exact R2|].
  eapply HeapOnly_trans; [exact R3 | exact R4].
Qed.

Lemma fitCount_prepared (l : list CandRef) (w : World) :
  fitCount (trace (preparedWorld ext l w)) = fitCount (trace w).
Proof.
  unfold preparedWorld. simpl. rewrite !fitCount_app.
  assert (H0 : fitCount (map EvInsertCandidate l) = O).
  { apply fitCount_none. clear. induction l; simpl; auto. }
  rewrite H0. unfold fitCount. simpl. lia.
Qed.

(** The prompt of a round breaks out of the loop only with the reply "n",
    read with the display, [displayIterations] and the pause on; the pause
    and the display are only ever switched off. *)
Lemma interact_cases (loc : Locals) (w : World) loc' brk w' :
  interact loc w = (Ok (loc', brk), w') ->
  debug w' = debug w /\
  (pause loc' = true -> pause loc = true) /\
  (display loc' <> 0 -> display loc <> 0) /\
  (brk = true ->
   reply loc' = "n"%string /\ display loc <> 0 /\
   dbg_displayIterations (debug w) = true /\ pause loc = true).
Proof.
  unfold interact, bind at 1, get at 1.
  destruct (negb (display loc =? 0)) eqn:Hd;
    [destruct (dbg_displayIterations (debug w)) eqn:Hi;
     [destruct (pause loc) eqn:Hp|]|]; cbn [andb].
  - assert (Hd' : display loc <> 0)
      by (apply negb_true_iff in Hd; now apply Z.eqb_neq in Hd).
    unfold bind at 1, prompt, bind at 1, get at 1.
    pose proof (promptLoop_cases (stdin w) loc) as Hc.
    destruct (promptLoop (stdin w) loc) as [loc1 rest|e rest]; cbn [bind putStdin].
    + destruct Hc as (_ & _ & Hpa & Hdi & _).
      unfold bind, putStdin, ret.
      destruct (String.eqb (reply loc1) "n") eqn:Hn; cbv beta;
        intros [= <- <- <-]; cbn [debug].
      * apply String.eqb_eq in Hn. repeat split; auto.
      * repeat split; auto; discriminate.
    + unfold bind, putStdin, raise. discriminate.
  - cbv [ret]. intros H. injection H as <- <- <-.
    repeat split; auto; try discriminate; congruence.
  - cbv [ret]. intros H. injection H as <- <- <-.
    repeat split; auto; try discriminate; congruence.
  - cbv [ret]. intros H. injection H as <- <- <-.
    repeat split; auto; try discriminate; congruence.
Qed.

Lemma psfIteration_cases exposure cs iter loc (w : World) loc' brk w' :
  psfIteration ext exposure cs iter loc w = (Ok (loc', brk), w') ->
  debug w' = debug w /\
  (pause loc' = true -> pause loc = true) /\
  (display loc' <> 0 -> display loc <> 0) /\
  (brk = true ->
   reply loc' = "n"%string /\ display loc <> 0 /\
   dbg_displayIterations (debug w) = true /\ pause loc = true) /\
  fitCount (trace w') = S (fitCount (trace w)).
Proof.
  intros H.
  destruct (psfIteration_round ext exposure cs iter loc w)
    as (_ & _ & _ & _ & (evs & T1 & F1) & _).
  rewrite H in T1. cbn [snd] in T1.
  apply psfIteration_to_interact in H. destruct H as (w4 & (_ & D4 & _) & Hint).
  apply interact_cases in Hint. destruct Hint as (Hdb & Hpa & Hdi & Hbrk).
  rewrite D4 in Hdb, Hbrk.
  split; [exact Hdb|]. split; [exact Hpa|]. split; [exact Hdi|]. split; [exact Hbrk|].
  rewrite T1. now apply fitCount_round.
Qed.

(** A loop that returns has run every round, or was left by the reply "n". *)
Lemma forIter_exit exposure cs (iters : list Z) : forall loc (w : World) loc' w',
  forIter iters (psfIteration ext exposure cs) loc w = (Ok loc', w') ->
  fitCount (trace w') = (fitCount (trace w) + List.length iters)%nat \/
  (reply loc' = "n"%string /\ display loc <> 0 /\
   dbg_displayIterations (debug w) = true /\ pause loc = true).
Proof.
  induction iters as [|iter iters IH]; intros loc w loc' w' H.
  - cbn [forIter] in H. unfold ret in H. injection H as <- <-. left. simpl. lia.
  - cbn [forIter] in H. apply bind_Ok in H.
    destruct H as ([loc1 brk] & w1 & Hround & Hrest). cbn [fst snd] in Hrest.
    apply psfIteration_cases in Hround.
    destruct Hround as (Hdb & Hpa & Hdi & Hbrk & Hcount).
    destruct brk.
    + unfold ret in Hrest. injection Hrest as <- <-. right. now apply Hbrk.
    + apply IH in Hrest. destruct Hrest as [Heq|(Hn & Hd1 & Hi1 & Hp1)].
      * left. rewrite Heq, Hcount. simpl. lia.
      * right. rewrite Hdb in Hi1. auto.
Qed.

(** C2 (as amended).  For a non-empty candidate list the loop starts at most
    [K = nIterForPsf] rounds and tests no convergence.  A loop that returns
    has run exactly [K] rounds, unless a prompt was answered "n" (with the
    display, [displayIterations] and the pause on): that reply, which is also
    what the end of the input gives, is the one way to leave the loop early
    and still return (on input without a "p" reply, which would enter the
    debugger).  So when the prompt cannot be reached a loop that
    returns has run exactly [K] rounds, and when the first prompt gets the
    reply "n" it has run one round.  The loop never looks at the number of
    BAD candidates; an exception raised in a round (as [_fitPsf] does when no
    candidate is left to count) ends the whole call. *)
Theorem loop_runs_K_rounds (exposure : Exposure) (l : list CandRef) (w : World) :
  l <> [] ->
  let K := Z.to_nat (_nIterForPsf (self w)) in
  (roundsRun ext exposure l w <= K)%nat /\
  ((forall line, In line (stdin w) -> hd ""%string line <> "p"%string) ->
   forall cs w', fitLoop ext exposure l w = (Ok cs, w') ->
     exists loc',
       forIter (Py.range (_nIterForPsf (self w))) (psfIteration ext exposure cs)
               (initialLocals (debug w)) (preparedWorld ext l w) = (Ok loc', w') /\
       (roundsRun ext exposure l w = K \/
        reply loc' = "n"%string /\ dbg_display (debug w) <> 0 /\
        dbg_displayIterations (debug w) = true /\
        pause (initialLocals (debug w)) = true)) /\
  (promptOff (initialLocals (debug w)) w ->
   forall cs w', fitLoop ext exposure l w = (Ok cs, w') ->
   roundsRun ext exposure l w = K) /\
  (dbg_display (debug w) <> 0 -> dbg_displayIterations (debug w) = true ->
   pause (initialLocals (debug w)) = true -> 0 < _nIterForPsf (self w) ->
   forall loc' rest,
     promptLoop (stdin w) (initialLocals (debug w)) = Prompted loc' rest ->
     reply loc' = "n"%string ->
     forall cs w', fitLoop ext exposure l w = (Ok cs, w') ->
     roundsRun ext exposure l w = 1%nat /\ stdin w' = rest) /\
  (forall e w', fitLoop ext exposure l w = (Raise e, w') ->
     forall sd, determinePsf ext exposure l sd w = (Raise e, w')).
Proof.
  intros Hl K.
  destruct (fitLoop_spec ext exposure l w Hl) as (_ & _ & Hle & Hge & Heq).
  fold K in Hle, Heq.
  split; [unfold roundsRun; lia|]. split; [|split; [|split]].
  - intros _ cs w' Hrun. unfold roundsRun. rewrite Hrun. cbn [snd].
    destruct (fitLoop_eq ext exposure l w Hl) as [cs0 Hfl]. rewrite Hfl in Hrun.
    apply bind_Ok in Hrun. destruct Hrun as (loc' & w1 & Hloop & Hret).
    unfold ret in Hret. injection Hret as <- <-.
    exists loc'. split; [exact Hloop|].
    apply forIter_exit in Hloop. rewrite range_length, fitCount_prepared in Hloop.
    fold K in Hloop. destruct Hloop as [Hc|Hn]; [left; lia | right; exact Hn].
  - intros Ho cs w' Hrun. unfold roundsRun.
    rewrite (Heq Ho cs); [lia|]. now rewrite Hrun.
  - intros Hd Hi Hp HK loc' rest Hpl Hn cs w' Hrun. unfold roundsRun.
    rewrite Hrun. cbn [snd].
    destruct (fitLoop_eq ext exposure l w Hl) as [cs0 Hfl]. rewrite Hfl in Hrun.
    apply bind_Ok in Hrun. destruct Hrun as (loc2 & w1 & Hloop & Hret).
    unfold ret in Hret. injection Hret as <- <-.
    unfold Py.range in Hloop.
    destruct (Z.to_nat (_nIterForPsf (self w))) as [|n] eqn:HKn; [lia|].
    cbn [seq map forIter] in Hloop.
    apply bind_Ok in Hloop. destruct Hloop as ([loc1 brk] & w2 & Hround & Hrest).
    cbn [fst snd] in Hrest.
    destruct (psfIteration_round ext exposure cs0 (Z.of_nat 0) (initialLocals (debug w))
                (preparedWorld ext l w)) as (_ & _ & _ & _ & (evs & T1 & F1) & _).
    rewrite Hround in T1. cbn [snd] in T1.
    apply psfIteration_to_interact in Hround.
    destruct Hround as (w4 & (_ & D4 & I4) & Hint).
    assert (Hrun4 : interact (initialLocals (debug w)) w4 =
                    (Ok (loc', true), {| self := self w4; heap := heap w4;
                                         debug := debug w4; stdin := rest;
                                         trace := trace w4 |})).
    { apply Z.eqb_neq in Hd.
      assert (Hi4 : dbg_displayIterations (debug w4) = true)
        by (rewrite D4; exact Hi).
      assert (I4' : stdin w4 = stdin w) by (rewrite I4; reflexivity).
      cbv [interact bind get prompt putStdin ret].
      change (display (initialLocals (debug w))) with (dbg_display (debug w)).
      rewrite Hd, Hi4, Hp. cbn [negb andb]. rewrite I4', Hpl, Hn. reflexivity. }
    rewrite Hint in Hrun4. injection Hrun4 as -> -> ->.
    unfold ret in Hrest. injection Hrest as _ <-. cbn [stdin trace] in *.
    split; [|reflexivity].
    rewrite T1, fitCount_round by exact F1. rewrite fitCount_prepared. lia.
  - intros e w' Hrun sd. unfold determinePsf. now apply bind_raise.
Qed.

(** C3 (as amended).  After its fit, a round resets the statuses, clips on
    chi-square and goes on with the spatial clipping in the world this leaves,
    where the candidates just clipped are BAD.  The spatial clipping walks
    [cell.begin(False)], that is every candidate of every cell whatever its
    status, and scores each one whose stamp [getImage()] returns: a candidate
    that the chi-square clipping of the same round has just marked BAD is
    scored as well, and its residuals enter the statistics and the pools of
    every component; only candidates without a stamp are left out. *)
Theorem spatial_residuals_include_bad (exposure : Exposure) (cs : SpatialCellSet)
  (iter : Z) (loc : Locals) (w : World) fit w1 :
  _fitPsf ext exposure cs w = (Ok fit, w1) ->
  let psf := fst (fst fit) in
  let kernel := getKernel psf in
  let w2 := snd (resetStatus cs w1) in
  let w3 := snd (chi2Clip cs iter w2) in
  let clipped := chi2Marked (self w2) (heap w2) cs iter in
  psfIteration ext exposure cs iter loc w =
    bind (spatialClip ext psf cs iter) (fun _ => interact loc) w3 /\
  (forall c, In c clipped -> validRef (heap w2) c -> statusOf (heap w3) c = BAD) /\
  spatialClip ext psf cs iter w3 =
    bind (spatialResiduals ext kernel (List.concat cs))
         (fun rc => forEach (seq 0 (getNKernelParameters ext kernel))
                            (spatialClipComponent ext (fst rc) (snd rc) iter)) w3 /\
  (forall res scored w4,
     spatialResiduals ext kernel (List.concat cs) w3 = (Ok (res, scored), w4) ->
     w4 = w3 /\
     scored = filter (hasImage (heap w3)) (List.concat cs) /\
     List.length res = List.length scored /\
     (forall c, In c clipped -> hasImage (heap w3) c = true -> In c scored)).
Proof.
  intros Hfit psf kernel w2 w3 clipped.
  assert (E2 : resetStatus cs w1 = (Ok tt, w2)).
  { unfold w2, resetStatus, bind, get. now rewrite forEach_setStatus. }
  assert (E3 : chi2Clip cs iter w2 = (Ok tt, w3)).
  { unfold w3. now rewrite chi2Clip_eq. }
  split; [|split; [|split]].
  - unfold psfIteration. rewrite (bind_step _ _ _ _ _ Hfit).
    rewrite (bind_step _ _ _ _ _ E2). rewrite (bind_step _ _ _ _ _ E3). reflexivity.
  - intros c Hc Hv. unfold w3. rewrite chi2Clip_eq. cbn [snd heap].
    rewrite statusOf_markAll. fold clipped. apply memb_In in Hc. rewrite Hc.
    unfold validRef in Hv. apply Nat.ltb_lt in Hv. now rewrite Hv.
  - unfold spatialClip, bind at 1, get at 1. now rewrite cellCandidates_all.
  - intros res scored w4 H. apply spatialResiduals_scored in H.
    destruct H as (Hw & Hs & HF). split; [exact Hw|]. split; [exact Hs|].
    split; [symmetry; eapply Forall2_length; eauto|].
    intros c Hc Him. rewrite Hs. apply filter_In. split; [|exact Him].
    apply (chi2Marked_in_cells (self w2) (heap w2) cs iter). exact Hc.
Qed.

(** X12.  With the display, [displayIterations] and the pause on (or [display]
    above 1) and no input left to read, the first prompt takes the end of
    input as the reply "n": a loop that returns has run one round only,
    however many were configured. *)
Theorem end_of_input_stops_after_one_round (exposure : Exposure) (l : list CandRef)
  (w : World) (cs : SpatialCellSet) (w' : World) :
  l <> [] -> stdin w = [] ->
  dbg_display (debug w) <> 0 -> dbg_displayIterations (debug w) = true ->
  dbg_pause (debug w) = true \/ 1 < dbg_display (debug w) ->
  0 < _nIterForPsf (self w) ->
  fitLoop ext exposure l w = (Ok cs, w') ->
  roundsRun ext exposure l w = 1%nat.
Proof.
  intros Hl Hin Hd Hi Hp HK Hrun. unfold roundsRun. rewrite Hrun. cbn [snd].
  destruct (fitLoop_eq ext exposure l w Hl) as [cs0 Heq]. rewrite Heq in Hrun.
  apply bind_Ok in Hrun. destruct Hrun as (loc' & w1 & Hloop & Hret).
  unfold ret in Hret. injection Hret as <- <-.
  unfold Py.range in Hloop.
  destruct (Z.to_nat (_nIterForPsf (self w))) as [|n] eqn:HKn; [lia|].
  cbn [seq map forIter] in Hloop.
  apply bind_Ok in Hloop. destruct Hloop as ([loc1 brk] & w2 & Hround & Hrest).
  cbn [fst snd] in Hrest.
  destruct (psfIteration_round ext exposure cs0 (Z.of_nat 0) (initialLocals (debug w))
              (preparedWorld ext l w)) as (_ & _ & _ & _ & (evs & T1 & F1) & _).
  rewrite Hround in T1. cbn [snd] in T1.
  apply psfIteration_to_interact in Hround.
  destruct Hround as (w4 & (_ & D4 & I4) & Hint).
  assert (Hbrk : brk = true).
  { assert (Hpause : pause (initialLocals (debug w)) = true).
    { unfold initialLocals. cbn [pause].
      destruct Hp as [-> | Hgt]; [now destruct (_ >? 1)|].
      rewrite Z.gtb_ltb. apply Z.ltb_lt in Hgt. now rewrite Hgt. }
    assert (Hn : fst (interact (initialLocals (debug w)) w4) =
                 Ok (withReply "n" (initialLocals (debug w)), true)).
    { apply interact_reply_n with (rest := []).
      - exact Hd.
      - rewrite D4. exact Hi.
      - exact Hpause.
      - rewrite I4. unfold preparedWorld. cbn [stdin]. rewrite Hin. reflexivity.
      - reflexivity. }
    rewrite Hint in Hn. cbn [fst] in Hn. now injection Hn as _ ->. }
  subst brk. unfold ret in Hrest. injection Hrest as _ <-.
  rewrite T1, fitCount_round by exact F1. rewrite fitCount_prepared. lia.
Qed.

(** *** No candidate is ever marked GOOD *)

Lemma forallb_weaken (P Q : Event -> bool) (evs : list Event) :
  (forall e, P e = true -> Q e = true) -> forallb P evs = true -> forallb Q evs = true.
Proof. rewrite !forallb_forall. auto. Qed.

Lemma psfIteration_noGood exposure cs iter loc (w : World) :
  Steady noGood w (snd (psfIteration ext exposure cs iter loc w)).
Proof.
  destruct (fitPsf_fitted ext exposure cs w) as [Hf _].
  destruct (_fitPsf ext exposure cs w) as [[fit|e] w1] eqn:Hfit; simpl in Hf.
  - destruct Hf as (S1 & D1 & W1 & H1 & T1 & _).
    destruct (psfIteration_Ok ext exposure cs iter loc w fit w1 Hfit)
      as (S2 & D2 & W2 & H2 & (evs & T2 & F2) & _).
    unfold Steady. split; [congruence|]. split; [congruence|].
    split; [congruence|]. split; [congruence|].
    eexists. split; [rewrite T2, T1, <- app_assoc; reflexivity|].
    rewrite !forallb_app, !andb_true_iff. split; [reflexivity|]. split.
    + generalize (List.concat cs). clear. intros l.
      induction l; simpl; auto.
    + eapply forallb_weaken; [|exact F2]. intros [] He; try discriminate.
      now destruct s.
  - rewrite (psfIteration_raise ext exposure cs iter loc w e w1 Hfit). simpl.
    destruct Hf as (S1 & D1 & W1 & H1 & T1 & _).
    unfold Steady. repeat (split; [assumption|]).
    eexists. split; [exact T1 | reflexivity].
Qed.

Lemma forIter_steady (P : Event -> bool)
  (body : Z -> Locals -> M Image (Locals * bool)) :
  (forall iter loc w, Steady P w (snd (body iter loc w))) ->
  forall iters loc w, Steady P w (snd (forIter iters body loc w)).
Proof.
  intros Hb. induction iters as [|iter iters IH]; intros loc w.
  - apply Steady_refl.
  - cbn [forIter]. unfold bind. specialize (Hb iter loc w).
    destruct (body iter loc w) as [[[loc1 brk]|e] w1]; cbn [fst snd] in *.
    + destruct brk; [exact Hb|]. eapply Steady_trans; [exact Hb | apply IH].
    + exact Hb.
Qed.

(** X13.  Whatever the candidates and however the call ends, [determinePsf] never
    calls [setStatus(GOOD)]: the statuses it assigns are UNKNOWN and BAD
    only. *)
Theorem never_marks_good (exposure : Exposure) (l : list CandRef)
  (sd : option (list SdqaRating)) (w : World) :
  exists evs,
    trace (snd (determinePsf ext exposure l sd w)) = trace w ++ evs /\
    forall c, ~ In (EvSetStatus c GOOD) evs.
Proof.
  destruct l as [|c0 l0].
  - exists []. split; [simpl; now rewrite app_nil_r | intros c []].
  - set (l := c0 :: l0). assert (Hl : l <> []) by discriminate.
    assert (Hst : Steady noGood (preparedWorld ext l w)
                    (snd (determinePsf ext exposure l sd w))).
    { destruct (determinePsf ext exposure l sd w) as [r w'] eqn:Hrun. cbn [snd].
      unfold determinePsf, bind in Hrun.
      destruct (fitLoop_eq ext exposure l w Hl) as [cs Heq]. rewrite Heq in Hrun.
      unfold bind in Hrun.
      pose proof (forIter_steady noGood (psfIteration ext exposure cs)
                    (psfIteration_noGood exposure cs)
                    (Py.range (_nIterForPsf (self w))) (initialLocals (debug w))
                    (preparedWorld ext l w)) as Hloop.
      destruct (forIter _ _ _ _) as [[loc'|e] w1]; cbn [snd] in Hloop.
      - unfold ret at 1 in Hrun.
        destruct (fitPsf_fitted ext exposure cs w1) as [Hf _].
        destruct (_fitPsf ext exposure cs w1) as [[fit|e] w2]; cbn [snd] in Hf.
        + destruct (finalize_quiet ext cs (snd fit) sd w2) as [Hq _].
          assert (H12 : Steady noGood w1 w2).
          { eapply Steady_mono; [|apply Fitted_Steady, Hf]. now intros []. }
          destruct (finalize ext cs (snd fit) sd w2) as [[ratings|e] w3];
            cbn [snd] in Hq; [unfold ret in Hrun|]; injection Hrun as _ <-;
            (eapply Steady_trans; [exact Hloop|]);
            (eapply Steady_trans; [exact H12 | now apply Quiet_Steady]).
        + injection Hrun as _ <-. eapply Steady_trans; [exact Hloop|].
          eapply Steady_mono; [|apply Fitted_Steady, Hf]. now intros [].
      - injection Hrun as _ <-. exact Hloop. }
    destruct Hst as (_ & _ & _ & _ & evs & T & F).
    eexists. split.
    + rewrite T. unfold preparedWorld. cbn [trace]. rewrite <- !app_assoc. reflexivity.
    + intros c Hin. apply in_app_or in Hin. destruct Hin as [Hin|Hin].
      * apply in_map_iff in Hin. destruct Hin as (x & Hx & _). discriminate.
      * apply in_app_or in Hin. destruct Hin as [Hin|Hin].
        -- simpl in Hin. intuition discriminate.
        -- rewrite forallb_forall in F. specialize (F _ Hin). discriminate.
Qed.

End WholeCall.

(** ** measurement.py *)

Module MeasurementFacts.
Import Measurement.

Lemma checkFluxSlots_Done (l : list (option string)) (names : list string) :
  checkFluxSlots l names = Done tt <->
  forall n, In (Some n) l -> inNames n names = true.
Proof.
  induction l as [|[name|] l IH]; simpl.
  - split; [intros _ n [] | reflexivity].
  - destruct (inNames name names) eqn:E; simpl.
    + rewrite IH. split.
      * intros H n [[= <-]|Hn]; auto.
      * intros H n Hn. apply H. now right.
    + split; [discriminate|]. intros H.
      specialize (H name (or_introl eq_refl)). congruence.
  - rewrite IH. split.
    + intros H n [Hn|Hn]; [discriminate | auto].
    + intros H n Hn. apply H. now right.
Qed.

Lemma differs_false (a : string) (b : option string) :
  differs a b = false <-> b = Some a.
Proof.
  destruct b as [b|]; simpl.
  - rewrite negb_false_iff, String.eqb_eq. split; [now intros -> | now intros [= ->]].
  - split; discriminate.
Qed.

(** X14.  [validate] accepts a configuration exactly when the centroider is not
    among the algorithms, the centroid slot, if set, names the centroider or
    one of the algorithms, and the shape slot and the four flux slots, if set,
    name algorithms that are run.  A centroid slot that fails its check is
    reported by an AttributeError (on [self.slots.astrom]) instead of the
    ValueError of the other checks. *)
Theorem validate_accepts (c : SourceMeasurementConfig) :
  (validate c = Done tt <->
   optInNames (centroider c) (algorithms c) = false /\
   (forall n, centroid (slots c) = Some n ->
              inNames n (algorithms c) = true \/ centroider c = Some n) /\
   (forall n, shape (slots c) = Some n -> inNames n (algorithms c) = true) /\
   (forall n, In (Some n) [psfFlux (slots c); apFlux (slots c);
                           modelFlux (slots c); instFlux (slots c)] ->
              inNames n (algorithms c) = true)) /\
  (validate c = Raised (AttributeError "astrom") <->
   optInNames (centroider c) (algorithms c) = false /\
   exists n, centroid (slots c) = Some n /\ inNames n (algorithms c) = false /\
             centroider c <> Some n).
Proof.
  unfold validate. destruct (optInNames (centroider c) (algorithms c)) eqn:Hc.
  { split; split; try discriminate; intros [H _]; discriminate. }
  set (F := checkFluxSlots [psfFlux (slots c); apFlux (slots c);
                            modelFlux (slots c); instFlux (slots c)] (algorithms c)).
  assert (HF1 : F = Done tt <->
                forall n, In (Some n) [psfFlux (slots c); apFlux (slots c);
                                       modelFlux (slots c); instFlux (slots c)] ->
                          inNames n (algorithms c) = true)
    by apply checkFluxSlots_Done.
  assert (HF2 : F <> Raised (AttributeError "astrom")).
  { unfold F. generalize [psfFlux (slots c); apFlux (slots c);
                          modelFlux (slots c); instFlux (slots c)].
    induction l as [|[n|] l IH]; simpl; try discriminate; auto.
    destruct (inNames n (algorithms c)); simpl; [exact IH | discriminate]. }
  clearbody F.
  destruct (centroid (slots c)) as [cn|] eqn:Hcen;
    [destruct (inNames cn (algorithms c)) eqn:Hin;
     [|destruct (differs cn (centroider c)) eqn:Hd;
       [|apply differs_false in Hd]] |];
    cbn [negb andb andThen];
    try (destruct (shape (slots c)) as [sn|] eqn:Hsh;
         [destruct (inNames sn (algorithms c)) eqn:Hs|]; cbn [negb andThen]).
  all: split; split.
  all: try discriminate.
  all: try (intros H; exfalso; now apply HF2).
  all: try (intros (_ & n & [= <-] & Hn & Hm); congruence).
  all: try (intros (_ & n & [=] & _)).
  all: try (intros (_ & _ & _ & H); now apply HF1).
  all: try (intros (_ & _ & H & _); specialize (H sn eq_refl); congruence).
  all: try (intros H; split; [reflexivity|]; split; [|split; [|now apply HF1]];
            intros n [= <-]; auto).
  all: try (intros (_ & H & _); destruct (H cn eq_refl) as [H1|H1]; [congruence|];
            apply differs_false in H1; congruence).
  all: intros _; split; [reflexivity|]; exists cn; repeat split; auto;
       intros H1; apply differs_false in H1; congruence.
Qed.

Example default_config_validates : validate defaultConfig = Done tt.
Proof. reflexivity. Qed.

Section Correction.
Context {Exposure ApCorr : Type}.
Variable ext : Externals Exposure ApCorr.

Lemma get_set (key k : Key) (v : Q) (source : SourceRecord) :
  get (set key v source) k = if Nat.eqb k key then v else get source k.
Proof. reflexivity. Qed.

Lemma fold_correctFlux_position (corr corrErr : Q) (l : list (Key * Key))
  (source : SourceRecord) :
  getX (fold_left (correctFlux ext corr corrErr) l source) = getX source /\
  getY (fold_left (correctFlux ext corr corrErr) l source) = getY source.
Proof.
  revert source. induction l as [|p l IH]; intros source; simpl; [now split|].
  destruct (IH (correctFlux ext corr corrErr source p)) as [-> ->]. now split.
Qed.

Lemma fold_correctFlux_frame (corr corrErr : Q) (l : list (Key * Key))
  (source : SourceRecord) (k : Key) :
  ~ In k (flatKeys l) ->
  get (fold_left (correctFlux ext corr corrErr) l source) k = get source k.
Proof.
  revert source. induction l as [|p l IH]; intros source Hk; simpl; [reflexivity|].
  simpl in Hk. rewrite IH by tauto. unfold correctFlux. rewrite !get_set.
  destruct (Nat.eqb_spec k (snd p)); [subst; tauto|].
  destruct (Nat.eqb_spec k (fst p)); [subst; tauto|]. reflexivity.
Qed.

Lemma fold_correctFlux_pair (corr corrErr : Q) (l : list (Key * Key))
  (source : SourceRecord) (fk ek : Key) :
  NoDup (flatKeys l) -> In (fk, ek) l ->
  get (fold_left (correctFlux ext corr corrErr) l source) fk = (get source fk * corr)%Q /\
  get (fold_left (correctFlux ext corr corrErr) l source) ek =
    pow_half ext (get source ek ^ 2 * corr ^ 2 + get source fk ^ 2 * corrErr ^ 2)%Q.
Proof.
  revert source. induction l as [|p l IH]; intros source Hnd Hin; [destruct Hin|].
  simpl in Hnd. apply NoDup_cons_iff in Hnd. destruct Hnd as [Hf Hnd].
  apply NoDup_cons_iff in Hnd. destruct Hnd as [Hs Hnd].
  cbn [fold_left]. destruct Hin as [->|Hin].
  - cbn [fst snd] in *. rewrite !fold_correctFlux_frame by (simpl in Hf; tauto).
    unfold correctFlux. cbn [fst snd]. rewrite !get_set, !Nat.eqb_refl.
    destruct (Nat.eqb_spec fk ek) as [->|Hne]; [simpl in Hf; tauto|].
    now split.
  - destruct (IH (correctFlux ext corr corrErr source p) Hnd Hin) as [-> ->].
    assert (Hfk : In fk (flatKeys l)).
    { unfold flatKeys. apply in_flat_map. exists (fk, ek). simpl. auto. }
    assert (Hek : In ek (flatKeys l)).
    { unfold flatKeys. apply in_flat_map. exists (fk, ek). simpl. auto. }
    unfold correctFlux. rewrite !get_set.
    destruct (Nat.eqb_spec fk (snd p)) as [->|]; [tauto|].
    destruct (Nat.eqb_spec fk (fst p)) as [->|]; [simpl in Hf; tauto|].
    destruct (Nat.eqb_spec ek (snd p)) as [->|]; [tauto|].
    destruct (Nat.eqb_spec ek (fst p)) as [->|]; [simpl in Hf; tauto|].
    now split.
Qed.

(** X15.  The aperture correction of one source, when the flux keys, their error
    keys and the two correction keys are all different: every listed flux is
    multiplied by the correction; its error becomes
    [(fluxErr^2 * corr^2 + flux^2 * corrErr^2) ** 0.5] of the values before
    the correction; the correction and its error are stored in their two
    fields; the position and every other field stay as they were. *)
Theorem aperture_correction_of_a_source (keys : ApCorrKeys) (apCorr : ApCorr)
  (source : SourceRecord) :
  NoDup (flatKeys (fluxKeys keys) ++ [corrKey keys; corrErrKey keys]) ->
  let corr := fst (computeAt ext apCorr (getX source) (getY source)) in
  let corrErr := snd (computeAt ext apCorr (getX source) (getY source)) in
  let source' := correctSource ext keys apCorr source in
  getX source' = getX source /\ getY source' = getY source /\
  get source' (corrKey keys) = corr /\ get source' (corrErrKey keys) = corrErr /\
  (forall fk ek, In (fk, ek) (fluxKeys keys) ->
     get source' fk = (get source fk * corr)%Q /\
     get source' ek =
       pow_half ext (get source ek ^ 2 * corr ^ 2 + get source fk ^ 2 * corrErr ^ 2)%Q) /\
  (forall k, ~ In k (flatKeys (fluxKeys keys)) ->
             k <> corrKey keys -> k <> corrErrKey keys ->
             get source' k = get source k).
Proof.
  intros Hnd corr corrErr source'. subst source'. unfold correctSource.
  fold corr corrErr.
  assert (Hnd1 : NoDup (flatKeys (fluxKeys keys))) by now apply NoDup_app_remove_r in Hnd.
  assert (Hc : ~ In (corrKey keys) (flatKeys (fluxKeys keys)) /\
               ~ In (corrErrKey keys) (flatKeys (fluxKeys keys)) /\
               corrKey keys <> corrErrKey keys).
  { pose proof (NoDup_remove_2 _ _ _ Hnd) as H1.
    change (flatKeys (fluxKeys keys) ++ [corrKey keys; corrErrKey keys])
      with (flatKeys (fluxKeys keys) ++ [corrKey keys] ++ [corrErrKey keys]) in Hnd.
    rewrite app_assoc in Hnd. pose proof (NoDup_remove_2 _ _ _ Hnd) as H2.
    rewrite app_nil_r in H2.
    repeat split.
    - intros H. apply H1. apply in_or_app. now left.
    - intros H. apply H2. apply in_or_app. now left.
    - intros H. apply H1. apply in_or_app. right. simpl. auto. }
  destruct Hc as (Hc1 & Hc2 & Hc3).
  destruct (fold_correctFlux_position corr corrErr (fluxKeys keys) source) as [Hx Hy].
  split; [exact Hx|]. split; [exact Hy|].
  split.
  { rewrite !get_set. destruct (Nat.eqb_spec (corrKey keys) (corrErrKey keys));
      [contradiction|]. now rewrite Nat.eqb_refl. }
  split; [rewrite get_set; now rewrite Nat.eqb_refl|].
  split.
  - intros fk ek Hin.
    assert (Hfk : In fk (flatKeys (fluxKeys keys))).
    { unfold flatKeys. apply in_flat_map. exists (fk, ek). simpl. auto. }
    assert (Hek : In ek (flatKeys (fluxKeys keys))).
    { unfold flatKeys. apply in_flat_map. exists (fk, ek). simpl. auto. }
    rewrite !get_set.
    destruct (Nat.eqb_spec fk (corrErrKey keys)) as [->|]; [contradiction|].
    destruct (Nat.eqb_spec fk (corrKey keys)) as [->|]; [contradiction|].
    destruct (Nat.eqb_spec ek (corrErrKey keys)) as [->|]; [contradiction|].
    destruct (Nat.eqb_spec ek (corrKey keys)) as [->|]; [contradiction|].
    now apply fold_correctFlux_pair.
  - intros k Hk H1 H2. rewrite !get_set.
    destruct (Nat.eqb_spec k (corrErrKey keys)); [contradiction|].
    destruct (Nat.eqb_spec k (corrKey keys)); [contradiction|].
    now apply fold_correctFlux_frame.
Qed.

(** X16.  [run] on a task made by [__init__] never reads a missing
    [fluxKeys]: it returns (the external calls apart), keeps the number of
    sources and sets up the table's slots; without an [apCorr], or with
    [doApplyApCorr] off, it is [measure] alone.  Calling [applyApCorr]
    directly on a task made with [doApplyApCorr] off raises AttributeError as
    soon as the catalog has a source (the task has no [fluxKeys]), and
    returns an empty catalog unchanged. *)
Theorem run_is_guarded (c : SourceMeasurementConfig) (exposure : Exposure)
  (sources : SourceCatalog) (apCorr : option ApCorr) :
  let task := init ext c in
  (exists out, run ext task exposure sources apCorr = Done out /\
               List.length (records out) = List.length (records sources) /\
               table out = setupTable (slots c) (table sources)) /\
  (apCorr = None \/ doApplyApCorr c = false ->
   run ext task exposure sources apCorr = Done (measure ext task exposure sources)) /\
  (doApplyApCorr c = false ->
   forall a, applyApCorr ext task sources a =
             match records sources with
             | [] => Done sources
             | _ :: _ => Raised (AttributeError "fluxKeys")
             end).
Proof.
  intros task. subst task. unfold run, init, applyApCorr, measure.
  cbn [config apCorrKeys table records]. split; [|split].
  - destruct apCorr as [a|]; [destruct (doApplyApCorr c)|];
      eexists; (split; [reflexivity|]); cbn [records table];
      rewrite ?length_map; split; reflexivity.
  - intros [-> | Hd]; [reflexivity|]. rewrite Hd. now destruct apCorr.
  - intros Hd a. rewrite Hd. reflexivity.
Qed.

(** X17.  A flux named twice in [apCorrFluxes] is corrected twice: [__init__]
    keeps both entries, and [applyApCorr] multiplies that flux of every source
    by the correction and then by the correction again. *)
Theorem repeated_flux_corrected_twice (c : SourceMeasurementConfig) (f : string)
  (sources : SourceCatalog) (apCorr : ApCorr) :
  doApplyApCorr c = true -> apCorrFluxes c = [f; f] ->
  inNames f (algorithms c) = true ->
  NoDup [findKey ext f; findKey ext (f ++ ".err"); newCorrKey ext; newCorrErrKey ext] ->
  exists out,
    applyApCorr ext (init ext c) sources apCorr = Done out /\
    List.length (records out) = List.length (records sources) /\
    forall i source, nth_error (records sources) i = Some source ->
      exists source',
        nth_error (records out) i = Some source' /\
        get source' (findKey ext f) =
        (get source (findKey ext f)
         * fst (computeAt ext apCorr (getX source) (getY source))
         * fst (computeAt ext apCorr (getX source) (getY source)))%Q.
Proof.
  intros Hd Hf Hin Hnd. unfold applyApCorr, init. rewrite Hd. cbn [apCorrKeys].
  eexists. split; [reflexivity|]. cbn [records]. split; [apply length_map|].
  intros i source Hi. rewrite nth_error_map, Hi. cbn [option_map].
  eexists. split; [reflexivity|].
  unfold selectFluxKeys. rewrite Hf. cbn [filter]. rewrite Hin. cbn [map].
  unfold correctSource. cbn [fluxKeys corrKey corrErrKey fold_left].
  set (corr := fst (computeAt ext apCorr (getX source) (getY source))).
  set (corrErr := snd (computeAt ext apCorr (getX source) (getY source))).
  apply NoDup_cons_iff in Hnd. destruct Hnd as [H1 Hnd]. simpl in H1.
  unfold correctFlux. cbn [fst snd]. rewrite !get_set, !Nat.eqb_refl.
  destruct (Nat.eqb_spec (findKey ext f) (newCorrErrKey ext)) as [E|_];
    [intuition congruence|].
  destruct (Nat.eqb_spec (findKey ext f) (newCorrKey ext)) as [E|_];
    [intuition congruence|].
  destruct (Nat.eqb_spec (findKey ext f) (findKey ext (f ++ ".err"))) as [E|_];
    [intuition congruence|].
  reflexivity.
Qed.

End Correction.

End MeasurementFacts.

(** ** Further concrete runs *)


Lemma rejections_grow_with_round_witness :
  0 <= 1 <= 3 /\ 3 < _nIterForPsf (self Toy.tenWorld) /\
  exists more, chi2Marked (self Toy.tenWorld) (heap Toy.tenWorld) Toy.cells10 3 =
               chi2Marked (self Toy.tenWorld) (heap Toy.tenWorld) Toy.cells10 1 ++ more.
Proof.
  assert (H1 : 0 <= 1 <= 3) by lia.
  assert (H2 : 3 < _nIterForPsf (self Toy.tenWorld)) by (simpl; lia).
  split; [exact H1|]. split; [exact H2|].
  exact (proj1 (rejections_grow_with_round Toy.plain (self Toy.tenWorld)
                  (heap Toy.tenWorld) Toy.cells10 1 3 H1 H2)).
Defined.

Lemma chi2_pool_membership_witness :
  In 0%nat (chi2Pool (self Toy.quietWorld) (heap Toy.quietWorld) Toy.cells3) /\
  ~ In 1%nat (chi2Pool (self Toy.quietWorld) (heap Toy.quietWorld) Toy.cells3).
Proof.
  split.
  - apply (chi2_pool_membership (self Toy.quietWorld) (heap Toy.quietWorld) Toy.cells3
             0%nat).
    split; [simpl; auto|]. right. reflexivity.
  - intros H.
    apply (chi2_pool_membership (self Toy.quietWorld) (heap Toy.quietWorld) Toy.cells3
             1%nat) in H.
    destruct H as [_ [H|H]]; vm_compute in H; discriminate.
Defined.

Lemma statuses_after_chi2_clipping_witness :
  In 0%nat (List.concat Toy.cells3) /\ validRef (heap Toy.quietWorld) 0%nat /\
  statusOf (heap (snd (chi2Clip Toy.cells3 1
                         (snd (resetStatus Toy.cells3 Toy.quietWorld))))) 0%nat = BAD.
Proof.
  assert (H1 : In 0%nat (List.concat Toy.cells3)) by (simpl; auto).
  assert (H2 : validRef (heap Toy.quietWorld) 0%nat) by (unfold validRef; simpl; lia).
  split; [exact H1|]. split; [exact H2|].
  destruct (statuses_after_chi2_clipping Toy.cells3 1 Toy.quietWorld) as (_ & _ & _ & H).
  destruct H as [_ H].
  - intros c Hc. vm_compute in Hc.
    repeat (destruct Hc as [<-|Hc]; [reflexivity|]). destruct Hc.
  - rewrite (H 0%nat H1 H2). reflexivity.
Defined.

Lemma star_counts_add_up_witness :
  fst (finalize Toy.plain Toy.cells3 (7 # 2) (Some []) Toy.clippedWorld) =
  Ok (Some [ {| ratingName := "phot.psf.spatialFitChi2"; ratingValue := 7 # 2;
                ratingErr := -1 |};
             {| ratingName := "phot.psf.numGoodStars"; ratingValue := 1; ratingErr := 0 |};
             {| ratingName := "phot.psf.numAvailStars"; ratingValue := 3; ratingErr := 0 |};
             {| ratingName := "phot.psf.spatialLowOrdFlag"; ratingValue := 0;
                ratingErr := 0 |} ]).
Proof.
  destruct (star_counts_add_up Toy.plain Toy.cells3 (7 # 2) (Some []) Toy.clippedWorld)
    as (_ & _ & H).
  rewrite (H [] eq_refl). reflexivity.
Defined.

Lemma psf_star_flag_on_good_only_witness :
  flagsOf (heap (snd (finalize Toy.plain Toy.cells3 1 None Toy.clippedWorld))) 1%nat = 1024 /\
  flagsOf (heap (snd (finalize Toy.plain Toy.cells3 1 None Toy.clippedWorld))) 0%nat = 0.
Proof.
  split.
  - destruct (psf_star_flag_on_good_only Toy.plain Toy.cells3 1 None Toy.clippedWorld 1%nat)
      as (H & _).
    destruct H as [H _].
    + unfold validRef. simpl. lia.
    + simpl. auto.
    + discriminate.
    + rewrite H. reflexivity.
  - destruct (psf_star_flag_on_good_only Toy.plain Toy.cells3 1 None Toy.clippedWorld 0%nat)
      as (_ & H & _).
    rewrite H; [reflexivity | now right].
Defined.

Lemma fitPsf_zero_division_witness :
  fst (_fitPsf Toy.plain tt Runs.cells2 Runs.allBadWorld) = Raise ZeroDivisionError.
Proof.
  apply (fitPsf_zero_division Toy.plain tt Runs.cells2 Runs.allBadWorld).
  - discriminate.
  - left. reflexivity.
Defined.

Lemma kernel_size_bounds_witness :
  scaledKernelSize Toy.plain Runs.crossed [4%Q] = 9 /\
  scaledKernelSize Toy.plain (Toy.determiner 200 2) [4%Q] = 200.
Proof.
  destruct (kernel_size_bounds Toy.plain Runs.crossed [4%Q]) as (_ & _ & H & _).
  destruct (kernel_size_bounds Toy.plain (Toy.determiner 200 2) [4%Q]) as (H' & _).
  split; [apply H; simpl; lia | apply H'; simpl; lia].
Defined.

Lemma residuals_zero_amplitude_witness :
  fst (candidateResiduals Runs.flat [1; 0]%Q (Toy.star 1 4 (Py.Fin 1)) tt Toy.quietWorld)
  = Raise ZeroDivisionError.
Proof.
  apply (residuals_zero_amplitude Runs.flat [1; 0]%Q (Toy.star 1 4 (Py.Fin 1)) tt
           Toy.quietWorld).
  - vm_compute. intuition discriminate.
  - split; [reflexivity|]. split; discriminate.
Defined.

Lemma spatial_clip_edges_witness :
  spatialClip Toy.mixture (createPsf_PCA [1; 0]%Q) Runs.cells2 0 Runs.blindWorld
    = (Raise IndexError, Runs.blindWorld) /\
  spatialClip Toy.plain (createPsf_PCA []) Runs.cells2 0 Runs.blindWorld
    = (Ok tt, Runs.blindWorld).
Proof.
  destruct (spatial_clip_edges Toy.mixture (createPsf_PCA [1; 0]%Q) Runs.cells2 0
              Runs.blindWorld) as [_ H1].
  destruct (spatial_clip_edges Toy.plain (createPsf_PCA []) Runs.cells2 0
              Runs.blindWorld) as [H2 _].
  split.
  - apply H1; [discriminate|]. intros c [<-|[<-|[]]]; reflexivity.
  - apply H2. reflexivity.
Defined.

Lemma prompt_outcomes_witness :
  promptLoop [["h"]; ["what"]; ["s"; "cells.fits"]; ["q"]; ["y"]]%string
             (initialLocals Toy.interactive)
  = Prompted {| display := 0; pause := true; reply := "q" |} [["y"%string]].
Proof.
  assert (Hp : forall line,
             In line [["h"]; ["what"]; ["s"; "cells.fits"]; ["q"]; ["y"]]%string ->
             hd ""%string line <> "p"%string).
  { intros line Hl. repeat (destruct Hl as [<-|Hl]; [discriminate|]). destruct Hl. }
  pose proof (prompt_outcomes [["h"]; ["what"]; ["s"; "cells.fits"]; ["q"]; ["y"]]%string
                (initialLocals Toy.interactive) Hp) as H.
  destruct (promptLoop _ _) as [loc' rest|e rest] eqn:E; [|discriminate E].
  rewrite <- E. reflexivity.
Defined.

Lemma end_of_input_stops_after_one_round_witness :
  roundsRun Toy.plain tt [0; 1; 2]%nat Runs.eofWorld = 1%nat.
Proof.
  apply (end_of_input_stops_after_one_round Toy.plain tt [0; 1; 2]%nat Runs.eofWorld
           Toy.cells3 (snd (fitLoop Toy.plain tt [0; 1; 2]%nat Runs.eofWorld))).
  - discriminate.
  - reflexivity.
  - discriminate.
  - reflexivity.
  - now left.
  - reflexivity.
  - vm_compute. reflexivity.
Defined.

Lemma never_marks_good_witness :
  ~ In (EvSetStatus 0%nat GOOD)
       (trace (snd (determinePsf Toy.plain tt [0; 1; 2]%nat None Toy.quietWorld))).
Proof.
  destruct (never_marks_good Toy.plain tt [0; 1; 2]%nat None Toy.quietWorld)
    as (evs & Ht & Hn).
  rewrite Ht. intros H. apply in_app_or in H. destruct H as [H|H].
  - destruct H.
  - exact (Hn _ H).
Defined.

Lemma validate_accepts_witness :
  Measurement.validate Measurement.defaultConfig = Measurement.Done tt.
Proof.
  apply (MeasurementFacts.validate_accepts Measurement.defaultConfig).
  split; [reflexivity|]. split; [|split].
  - intros n [= <-]. now right.
  - intros n [= <-]. reflexivity.
  - intros n [[= <-]|[[= <-]|[[= <-]|[[= <-]|[]]]]]; reflexivity.
Defined.

Lemma aperture_correction_of_a_source_witness :
  Measurement.get
    (Measurement.correctSource Measurement.toyExt
       {| Measurement.fluxKeys := [(0, 1); (2, 3)]%nat;
          Measurement.corrKey := 4%nat; Measurement.corrErrKey := 5%nat |}
       tt Measurement.toySource) 0%nat
  = (3 * 2)%Q.
Proof.
  destruct (MeasurementFacts.aperture_correction_of_a_source Measurement.toyExt
              {| Measurement.fluxKeys := [(0, 1); (2, 3)]%nat;
                 Measurement.corrKey := 4%nat; Measurement.corrErrKey := 5%nat |}
              tt Measurement.toySource) as (_ & _ & _ & _ & H & _).
  - simpl. repeat constructor; simpl; intuition discriminate.
  - destruct (H 0%nat 1%nat) as [H0 _]; [simpl; auto|]. exact H0.
Defined.

Lemma run_is_guarded_witness :
  Measurement.applyApCorr Measurement.toyExt
    (Measurement.init Measurement.toyExt
       {| Measurement.slots := Measurement.initSlots None;
          Measurement.algorithms := ["flux.psf"%string];
          Measurement.centroider := None;
          Measurement.apCorrFluxes := ["flux.psf"%string];
          Measurement.doApplyApCorr := false;
          Measurement.prefix := None |})
    Measurement.toyCatalog tt
  = Measurement.Raised (Measurement.AttributeError "fluxKeys").
Proof.
  destruct (MeasurementFacts.run_is_guarded Measurement.toyExt
              {| Measurement.slots := Measurement.initSlots None;
                 Measurement.algorithms := ["flux.psf"%string];
                 Measurement.centroider := None;
                 Measurement.apCorrFluxes := ["flux.psf"%string];
                 Measurement.doApplyApCorr := false;
                 Measurement.prefix := None |}
              tt Measurement.toyCatalog None) as (_ & _ & H).
  rewrite (H eq_refl tt). reflexivity.
Defined.

Lemma repeated_flux_corrected_twice_witness :
  exists out,
    Measurement.applyApCorr Measurement.toyExt
      (Measurement.init Measurement.toyExt Measurement.twiceConfig)
      Measurement.toyCatalog tt = Measurement.Done out /\
    map (fun source => Measurement.get source 0%nat) (Measurement.records out)
    = [3 * 2 * 2; 3 * 2 * 2]%Q.
Proof.
  destruct (MeasurementFacts.repeated_flux_corrected_twice Measurement.toyExt
              Measurement.twiceConfig "flux.psf" Measurement.toyCatalog tt)
    as (out & Hout & _ & H).
  - reflexivity.
  - reflexivity.
  - reflexivity.
  - repeat constructor; simpl; intuition discriminate.
  - exists out. split; [exact Hout|].
    injection Hout as <-. reflexivity.
Defined.

Lemma loop_runs_K_rounds_witness :
  [0; 1; 2]%nat <> [] /\
  roundsRun Toy.plain tt [0; 1; 2]%nat Toy.quietWorld = 2%nat /\
  roundsRun Toy.plain tt [0; 1; 2]%nat Toy.promptWorld = 1%nat.
Proof.
  assert (H : [0; 1; 2]%nat <> []) by discriminate.
  split; [exact H|]. split.
  - destruct (loop_runs_K_rounds Toy.plain tt [0; 1; 2]%nat Toy.quietWorld H)
      as (_ & _ & Heq & _).
    apply (Heq (or_introl eq_refl) Toy.cells3
               (snd (fitLoop Toy.plain tt [0; 1; 2]%nat Toy.quietWorld))).
    vm_compute. reflexivity.
  - destruct (loop_runs_K_rounds Toy.plain tt [0; 1; 2]%nat Toy.promptWorld H)
      as (_ & _ & _ & Hn & _).
    destruct (Hn ltac:(discriminate) eq_refl eq_refl eq_refl
                 (withReply "n" (initialLocals Toy.interactive)) [] eq_refl eq_refl
                 Toy.cells3
                 (snd (fitLoop Toy.plain tt [0; 1; 2]%nat Toy.promptWorld)))
      as [H1 _]; [vm_compute; reflexivity | exact H1].
Defined.

(** An exception ends the loop before its [K] rounds: with both candidates
    BAD from the start the first fit counts none and divides by zero. *)
Example loop_ended_by_exception :
  fst (fitLoop Toy.plain tt [0; 1]%nat Runs.staleWorld) = Raise ZeroDivisionError /\
  roundsRun Toy.plain tt [0; 1]%nat Runs.staleWorld = 1%nat /\
  _nIterForPsf (self Runs.staleWorld) = 3.
Proof. vm_compute. repeat split. Qed.

Lemma spatial_residuals_include_bad_witness :
  exists fit w1,
    _fitPsf Runs.graded tt Toy.cells3 Runs.gradedWorld = (Ok fit, w1) /\
    statusOf (heap (snd (chi2Clip Toy.cells3 0 (snd (resetStatus Toy.cells3 w1))))) 0%nat
    = BAD /\
    forall res scored w4,
      spatialResiduals Runs.graded (getKernel (fst (fst fit))) (List.concat Toy.cells3)
        (snd (chi2Clip Toy.cells3 0 (snd (resetStatus Toy.cells3 w1))))
      = (Ok (res, scored), w4) ->
      In 0%nat scored.
Proof.
  destruct (_fitPsf Runs.graded tt Toy.cells3 Runs.gradedWorld) as [[fit|e] w1] eqn:Hfit;
    [|vm_compute in Hfit; discriminate].
  exists fit, w1. split; [reflexivity|].
  destruct (spatial_residuals_include_bad Runs.graded tt Toy.cells3 0
              (initialLocals Toy.quiet) Runs.gradedWorld fit w1 Hfit)
    as (_ & Hbad & _ & Hs).
  vm_compute in Hfit. injection Hfit as <- <-.
  split.
  - apply Hbad; [vm_compute; auto | unfold validRef; vm_compute; lia].
  - intros res scored w4 H. destruct (Hs _ _ _ H) as (_ & _ & _ & Hin).
    apply Hin; [vm_compute; auto | reflexivity].
Defined.

(** C3 as stated fails: in a round on three stars, candidate 0 is marked BAD
    by the chi-square clipping and then marked again by the spatial clipping
    of the same round, whose pool it entered with the largest residual. *)
Lemma bad_candidate_is_scored :
  ~ (forall c,
       In c (chi2Marked (self Runs.gradedWorld) (heap Runs.gradedWorld) Toy.cells3 0) ->
       (count_occ Nat.eq_dec
          (flat_map (fun e => match e with EvSetStatus c' BAD => [c'] | _ => [] end)
             (trace (snd (psfIteration Runs.graded tt Toy.cells3 0
                            (initialLocals Toy.quiet) Runs.gradedWorld)))) c <= 1)%nat).
Proof.
  intros H. specialize (H 0%nat). vm_compute in H.
  assert (H0 : (2 <= 1)%nat) by (apply H; auto). lia.
Qed.

Example graded_round :
  trace (snd (psfIteration Runs.graded tt Toy.cells3 0 (initialLocals Toy.quiet)
                Runs.gradedWorld)) =
  [ EvFitPsf [UNKNOWN; UNKNOWN; UNKNOWN];
    EvSetStatus 0 UNKNOWN; EvSetStatus 1 UNKNOWN; EvSetStatus 2 UNKNOWN;
    EvSetStatus 0 BAD;
    EvSetStatus 0 BAD; EvSetStatus 2 BAD ]%nat /\
  statuses (heap (snd (psfIteration Runs.graded tt Toy.cells3 0 (initialLocals Toy.quiet)
                         Runs.gradedWorld))) = [BAD; UNKNOWN; BAD].
Proof. split; reflexivity. Qed.
